(** * mcp-apple: web research pipeline and message store reader

    A shallow embedding of [utils/webSearch.ts] and [utils/message.ts].
    JavaScript strings are sequences of UTF-16 code units; a function that
    may throw returns a [Completion]; the network is a function from
    requests and attempt numbers to settled [fetch] promises, and every
    call of [makeRequest] records the requests it issues and the delays it
    waits for in a trace. *)

From Stdlib Require Import ZArith NArith List String Ascii Bool Lia DecimalString.
From stdpp Require Import base list.
Import ListNotations.

(** ** JavaScript values *)

(** A JavaScript string is a sequence of UTF-16 code units. *)
Definition jsstring := list N.

(** [js s] is the JavaScript string written [s]; since the double quote has no
    spelling of its own here, a grave accent in [s] stands for it (no string
    of the program contains a grave accent). The patterns quoted in the
    comments follow the same convention. *)
Definition js (s : string) : jsstring :=
  map (fun a => let n := N_of_ascii a in if N.eqb n 96 then 34%N else n)
      (list_ascii_of_string s).

Fixpoint jseqb (a b : jsstring) : bool :=
  match a, b with
  | [], [] => true
  | x :: a', y :: b' => N.eqb x y && jseqb a' b'
  | _, _ => false
  end.

(** [String(n)] for an integer [n]. *)
Definition show_Z (z : Z) : jsstring := js (NilZero.string_of_int (Z.to_int z)).
Definition show_nat (n : nat) : jsstring := show_Z (Z.of_nat n).

(** A number as far as the program distinguishes them: an integer, or NaN. *)
Inductive JsNum := Num (z : Z) | NaN.

(** [!s] is true exactly for the empty string. *)
Definition truthy_str (s : jsstring) : bool :=
  match s with [] => false | _ => true end.

(** An [Error] object: whether it is a [DOMException], its [name] and its
    [message]. *)
Record JsError := {
  is_DOMException : bool;
  name : jsstring;
  message : jsstring
}.

(** [new Error(msg)] *)
Definition new_Error (msg : jsstring) : JsError :=
  {| is_DOMException := false; name := js "Error"; message := msg |}.

(** What a [throw] or a rejected promise carries: an [Error] object, or some
    other value, of which only [String(value)] is ever used. *)
Inductive Thrown :=
| ThrowError (e : JsError)
| ThrowValue (shown : jsstring).

(** [error instanceof Error ? error : new Error(String(error))] *)
Definition as_Error (t : Thrown) : JsError :=
  match t with
  | ThrowError e => e
  | ThrowValue s => new_Error s
  end.

(** [error instanceof Error ? error.message : String(error)] *)
Definition error_text (t : Thrown) : jsstring :=
  match t with
  | ThrowError e => message e
  | ThrowValue s => s
  end.

Inductive Completion (A : Type) :=
| Normal (a : A)
| Throw (t : Thrown).
Arguments Normal {A} a.
Arguments Throw {A} t.

(** ** The network *)

Definition Headers := list (jsstring * jsstring).

(** The request [fetch] is called with; [signal] is the delay given to
    [AbortSignal.timeout], when there is one. *)
Record Request := {
  req_url : jsstring;
  req_method : jsstring;
  req_headers : Headers;
  signal : option N
}.

(** A response: its status, and what reading its body with [text()]
    gives. *)
Record Response := {
  status : Z;
  text : Completion jsstring
}.

(** [response.ok] *)
Definition ok (r : Response) : bool :=
  ((200 <=? status r) && (status r <=? 299))%Z.

(** The network answers the [n]-th attempt of a request with a settled
    promise: fulfilled with a response, or rejected. *)
Definition Network := Request -> Z -> Completion Response.

(** The reason an [AbortSignal.timeout] signal aborts with, and so what
    [fetch] rejects with when the delay of its signal elapses: a
    [DOMException] named TimeoutError (its message differs between
    runtimes). *)
Definition timeout_reason (msg : jsstring) : JsError :=
  {| is_DOMException := true; name := js "TimeoutError"; message := msg |}.

(** What [fetch] rejects with when its signal is aborted by
    [AbortController.abort()]. *)
Definition abort_reason (msg : jsstring) : JsError :=
  {| is_DOMException := true; name := js "AbortError"; message := msg |}.

(** What a call has done: the requests sent and the delays waited for, in
    order. *)
Inductive Event :=
| Fetch (r : Request) (attempt : Z)
| Sleep (ms : Z).

Record Run (A : Type) := {
  outcome : Completion A;
  trace : list Event
}.
Arguments outcome {A} r.
Arguments trace {A} r.

Definition is_Fetch (e : Event) : bool :=
  match e with Fetch _ _ => true | Sleep _ => false end.

Definition attempts_made {A} (r : Run A) : nat :=
  length (filter (fun e => is_Fetch e = true) (trace r)).

Fixpoint delays_of (tr : list Event) : list Z :=
  match tr with
  | [] => []
  | Sleep ms :: tr' => ms :: delays_of tr'
  | Fetch _ _ :: tr' => delays_of tr'
  end.

(** ** Library functions of the platform *)

Definition URIError : JsError :=
  {| is_DOMException := false; name := js "URIError";
     message := js "URI malformed" |}.

Definition hex_value (c : N) : option N :=
  if ((48 <=? c) && (c <=? 57))%N then Some (c - 48)%N
  else if ((65 <=? c) && (c <=? 70))%N then Some (c - 55)%N
  else if ((97 <=? c) && (c <=? 102))%N then Some (c - 87)%N
  else None.

Definition hex_digit (n : N) : N :=
  if (n <? 10)%N then (48 + n)%N else (55 + n)%N.

(** The UTF-16 code units of a code point. *)
Definition utf16 (cp : N) : jsstring :=
  if (cp <? 65536)%N then [cp]
  else [(55296 + (cp - 65536) / 1024)%N; (56320 + (cp - 65536) mod 1024)%N].

(** The UTF-8 decoder: the code point being assembled, the number of bytes
    it still needs, and the range the next byte must lie in. *)
Record Utf8 := {
  code_point : N;
  needed : nat;
  lower : N;
  upper : N
}.

Definition utf8_idle : Utf8 :=
  {| code_point := 0; needed := 0; lower := 128; upper := 191 |}.

(** A byte read when no code point is being assembled: a code point, the
    start of a sequence, or ([None]) an error. *)
Definition utf8_lead (b : N) : option (N + Utf8) :=
  if (b <=? 127)%N then Some (inl b)
  else if ((194 <=? b) && (b <=? 223))%N then
    Some (inr {| code_point := N.land b 31; needed := 1;
                 lower := 128; upper := 191 |})
  else if ((224 <=? b) && (b <=? 239))%N then
    Some (inr {| code_point := N.land b 15; needed := 2;
                 lower := if (b =? 224)%N then 160 else 128;
                 upper := if (b =? 237)%N then 159 else 191 |})
  else if ((240 <=? b) && (b <=? 244))%N then
    Some (inr {| code_point := N.land b 7; needed := 3;
                 lower := if (b =? 240)%N then 144 else 128;
                 upper := if (b =? 244)%N then 143 else 191 |})
  else None.

(** Decoding a byte sequence: a list of code points, [None] standing for
    each error. A byte that cannot continue the sequence under way ends it
    with an error and is read again as the first byte of what follows. *)
Fixpoint utf8_decode (st : Utf8) (bytes : list N) : list (option N) :=
  match bytes with
  | [] => match needed st with O => [] | S _ => [None] end
  | b :: bs =>
      match needed st with
      | O =>
          match utf8_lead b with
          | Some (inl cp) => Some cp :: utf8_decode utf8_idle bs
          | Some (inr st') => utf8_decode st' bs
          | None => None :: utf8_decode utf8_idle bs
          end
      | S n =>
          if ((lower st <=? b) && (b <=? upper st))%N then
            let cp := N.lor (N.shiftl (code_point st) 6) (N.land b 63) in
            match n with
            | O => Some cp :: utf8_decode utf8_idle bs
            | S _ => utf8_decode {| code_point := cp; needed := n;
                                    lower := 128; upper := 191 |} bs
            end
          else
            None ::
            match utf8_lead b with
            | Some (inl cp) => Some cp :: utf8_decode utf8_idle bs
            | Some (inr st') => utf8_decode st' bs
            | None => None :: utf8_decode utf8_idle bs
            end
      end
  end.

(** [buffer.toString()]: UTF-8, each error replaced by U+FFFD. *)
Definition Buffer_toString (bytes : list N) : jsstring :=
  concat (map (fun o => match o with Some cp => utf16 cp | None => [65533%N] end)
              (utf8_decode utf8_idle bytes)).

(** [Buffer.from(s, 'hex')]: pairs of hexadecimal digits, each read from
    the low byte of its code unit, up to the first pair that is not one; a
    last code unit on its own is dropped. *)
Fixpoint Buffer_from_hex (s : jsstring) : list N :=
  match s with
  | a :: b :: t =>
      match hex_value (a mod 256), hex_value (b mod 256) with
      | Some x, Some y => (16 * x + y)%N :: Buffer_from_hex t
      | _, _ => []
      end
  | _ => []
  end.

(** The UTF-8 bytes of a code point. *)
Definition utf8_encode (cp : N) : list N :=
  if (cp <? 128)%N then [cp]
  else if (cp <? 2048)%N then [(192 + cp / 64)%N; (128 + cp mod 64)%N]
  else if (cp <? 65536)%N then
    [(224 + cp / 4096)%N; (128 + (cp / 64) mod 64)%N; (128 + cp mod 64)%N]
  else
    [(240 + cp / 262144)%N; (128 + (cp / 4096) mod 64)%N;
     (128 + (cp / 64) mod 64)%N; (128 + cp mod 64)%N].

Definition percent (b : N) : jsstring :=
  [37%N; hex_digit (b / 16); hex_digit (b mod 16)].

Definition is_alnum (c : N) : bool :=
  ((48 <=? c) && (c <=? 57) || (65 <=? c) && (c <=? 90)
   || (97 <=? c) && (c <=? 122))%N.

(** The characters [encodeURIComponent] leaves as they are. *)
Definition uri_unreserved (c : N) : bool :=
  is_alnum c || existsb (N.eqb c) (js "-_.!~*'()").

Definition is_high_surrogate (c : N) : bool := ((55296 <=? c) && (c <=? 56319))%N.
Definition is_low_surrogate (c : N) : bool := ((56320 <=? c) && (c <=? 57343))%N.

Definition percent_encode (cp : N) : jsstring :=
  concat (map percent (utf8_encode cp)).

Definition prepend (s : jsstring) (c : Completion jsstring) : Completion jsstring :=
  match c with
  | Normal t => Normal (s ++ t)
  | Throw e => Throw e
  end.

(** [encodeURIComponent(s)]; a surrogate on its own is a [URIError]. *)
Fixpoint encodeURIComponent (s : jsstring) : Completion jsstring :=
  match s with
  | [] => Normal []
  | c :: t =>
      if uri_unreserved c then prepend [c] (encodeURIComponent t)
      else if is_low_surrogate c then Throw (ThrowError URIError)
      else if is_high_surrogate c then
        match t with
        | d :: t' =>
            if is_low_surrogate d then
              prepend (percent_encode
                         (65536 + (c - 55296) * 1024 + (d - 56320))%N)
                      (encodeURIComponent t')
            else Throw (ThrowError URIError)
        | [] => Throw (ThrowError URIError)
        end
      else prepend (percent_encode c) (encodeURIComponent t)
  end.

(** The byte written [%XY] at the head of [s], and what follows it. *)
Definition percent_byte (s : jsstring) : option (N * jsstring) :=
  match s with
  | c :: a :: b :: t =>
      if (c =? 37)%N then
        match hex_value a, hex_value b with
        | Some x, Some y => Some ((16 * x + y)%N, t)
        | _, _ => None
        end
      else None
  | _ => None
  end.

(** The [n] continuation bytes [%XY] at the head of [s]. *)
Fixpoint continuation_bytes (n : nat) (s : jsstring) : option (list N * jsstring) :=
  match n with
  | O => Some ([], s)
  | S n' =>
      match percent_byte s with
      | Some (b, t) =>
          if ((128 <=? b) && (b <=? 191))%N then
            match continuation_bytes n' t with
            | Some (bs, t') => Some (b :: bs, t')
            | None => None
            end
          else None
      | None => None
      end
  end.

(** The number of bytes that follow the first byte [b >= 128] of a
    sequence, from its leading one bits. *)
Definition following_bytes (b : N) : option nat :=
  if ((192 <=? b) && (b <=? 223))%N then Some 1
  else if ((224 <=? b) && (b <=? 239))%N then Some 2
  else if ((240 <=? b) && (b <=? 247))%N then Some 3
  else None.

(** [decodeURIComponent(s)]: an escape that is cut short, is not
    hexadecimal, or does not write valid UTF-8 is a [URIError]. [fuel]
    bounds the number of code units left. *)
Fixpoint decode_uri (fuel : nat) (s : jsstring) : Completion jsstring :=
  match fuel with
  | O => Normal []
  | S fuel' =>
      match s with
      | [] => Normal []
      | c :: t =>
          if negb (c =? 37)%N then prepend [c] (decode_uri fuel' t)
          else
            match percent_byte s with
            | None => Throw (ThrowError URIError)
            | Some (b, t1) =>
                if (b <? 128)%N then prepend [b] (decode_uri fuel' t1)
                else
                  match following_bytes b with
                  | None => Throw (ThrowError URIError)
                  | Some n =>
                      match continuation_bytes n t1 with
                      | None => Throw (ThrowError URIError)
                      | Some (bs, t2) =>
                          match utf8_decode utf8_idle (b :: bs) with
                          | [Some cp] => prepend (utf16 cp) (decode_uri fuel' t2)
                          | _ => Throw (ThrowError URIError)
                          end
                      end
                  end
            end
      end
  end.

Definition decodeURIComponent (s : jsstring) : Completion jsstring :=
  decode_uri (length s) s.

(** [String(e)] for what was thrown. *)
Definition show_thrown (t : Thrown) : jsstring :=
  match t with
  | ThrowError e =>
      if negb (truthy_str (name e)) then message e
      else if negb (truthy_str (message e)) then name e
      else name e ++ js ": " ++ message e
  | ThrowValue s => s
  end.

(** ** Promises settled together *)

Inductive Settlement (A : Type) :=
| Fulfilled (value : A)
| Rejected (reason : Thrown).
Arguments Fulfilled {A} value.
Arguments Rejected {A} reason.

Definition settle {A} (c : Completion A) : Settlement A :=
  match c with
  | Normal a => Fulfilled a
  | Throw t => Rejected t
  end.

Fixpoint all_filled {A} (slots : list (option A)) : option (list A) :=
  match slots with
  | [] => Some []
  | Some a :: slots' =>
      match all_filled slots' with
      | Some l => Some (a :: l)
      | None => None
      end
  | None :: _ => None
  end.

(** A task that settles stores its outcome at its own index. *)
Definition store_settled {A} (tasks : list (Completion A))
    (slots : list (option (Settlement A))) (i : nat)
    : list (option (Settlement A)) :=
  match tasks !! i with
  | Some c => <[i := Some (settle c)]> slots
  | None => slots
  end.

(** [Promise.allSettled(tasks)]: the tasks run together and settle in the
    order [schedule] gives (a list of indices), and the whole is fulfilled
    with the array of outcomes once none is missing ([None]: still
    pending). *)
Definition allSettled {A} (tasks : list (Completion A)) (schedule : list nat)
    : option (list (Settlement A)) :=
  all_filled
    (fold_left (store_settled tasks) schedule (replicate (length tasks) None)).

(** A slot holds nothing, or the outcome of the task of its index. *)
Definition slots_sound {A} (tasks : list (Completion A))
    (slots : list (option (Settlement A))) : Prop :=
  forall i v, slots !! i = Some (Some v) ->
              exists c, tasks !! i = Some c /\ v = settle c.

(** ** Regular expressions

    The backtracking matcher of ECMAScript, for the constructs the program
    uses: a matcher takes the state reached so far and a continuation, and
    answers with the final state or with failure; alternatives are tried from
    left to right, a greedy quantifier tries one more iteration before it
    tries the continuation and a lazy one the other way round. No pattern
    of the program has a capture group under a quantifier, a back reference
    or a look-behind, so captures are never reset and matching only moves
    forward in the input. *)

Module Regex.

Record State := {
  pos : nat;                        (* end index of the part matched so far *)
  prev : option N;                  (* the code unit before [pos] *)
  rest : jsstring;                  (* the input from [pos] on *)
  caps : list (nat * jsstring)      (* captures, the latest first *)
}.

Definition Cont := State -> option State.

Inductive regex :=
| Eps
| Chr (p : N -> bool)
| Seq (a b : regex)
| Alt (a b : regex)
| Rep (greedy : bool) (min : nat) (max : option nat) (a : regex)
| Group (i : nat) (a : regex)
| NotAhead (a : regex)
| Bol
| Eol
| WordBoundary.

Definition advance (x : State) (c : N) (t : jsstring) : State :=
  {| pos := S (pos x); prev := Some c; rest := t; caps := caps x |}.

Definition capture (i : nat) (x y : State) : State :=
  {| pos := pos y; prev := prev y; rest := rest y;
     caps := (i, take (pos y - pos x) (rest x)) :: caps y |}.

Definition is_word (c : N) : bool :=
  ((48 <=? c) && (c <=? 57) || (65 <=? c) && (c <=? 90)
   || (97 <=? c) && (c <=? 122) || (c =? 95))%N.

Definition word_before (x : State) : bool :=
  match prev x with Some c => is_word c | None => false end.

Definition word_after (x : State) : bool :=
  match rest x with c :: _ => is_word c | [] => false end.

Section Repeat.
Variable m : State -> Cont -> option State.
Variable greedy : bool.

(** RepeatMatcher. An iteration that is not required and matches the empty
    string is refused, so every iteration beyond the first [min] moves
    [pos] forward: [fuel] starts at [min] plus the length of the input left
    and cannot run out before the iterations do. *)
Fixpoint repeat (fuel min : nat) (max : option nat) (x : State) (k : Cont)
    : option State :=
  match max with
  | Some O => k x
  | _ =>
      match fuel with
      | O => match min with O => k x | S _ => None end
      | S fuel' =>
          let d := fun y : State =>
            if Nat.eqb min 0 && Nat.eqb (pos y) (pos x) then None
            else repeat fuel' (Nat.pred min) (option_map Nat.pred max) y k in
          match min with
          | S _ => m x d
          | O =>
              if greedy then
                match m x d with Some z => Some z | None => k x end
              else
                match k x with Some z => Some z | None => m x d end
          end
      end
  end.
End Repeat.

Fixpoint rmatch (r : regex) (x : State) (k : Cont) {struct r} : option State :=
  match r with
  | Eps => k x
  | Chr p =>
      match rest x with
      | c :: t => if p c then k (advance x c t) else None
      | [] => None
      end
  | Seq a b => rmatch a x (fun y => rmatch b y k)
  | Alt a b =>
      match rmatch a x k with
      | Some z => Some z
      | None => rmatch b x k
      end
  | Rep greedy min max a =>
      repeat (rmatch a) greedy (min + length (rest x)) min max x k
  | Group i a => rmatch a x (fun y => k (capture i x y))
  | NotAhead a =>
      match rmatch a x Some with
      | Some _ => None
      | None => k x
      end
  | Bol => if Nat.eqb (pos x) 0 then k x else None
  | Eol => match rest x with [] => k x | _ :: _ => None end
  | WordBoundary =>
      if xorb (word_before x) (word_after x) then k x else None
  end.

(** The leftmost match at or after a position: where it starts and the state
    it ends in. *)
Fixpoint find (r : regex) (p : nat) (pv : option N) (s : jsstring)
    : option (State * State) :=
  let x := {| pos := p; prev := pv; rest := s; caps := [] |} in
  match rmatch r x Some with
  | Some y => Some (x, y)
  | None =>
      match s with
      | [] => None
      | c :: t => find r (S p) (Some c) t
      end
  end.

Definition matched (m : State * State) : jsstring :=
  take (pos (snd m) - pos (fst m)) (rest (fst m)).

(** [match[i]] for a capture group [i >= 1]; [None] is [undefined]. *)
Fixpoint lookup_cap (i : nat) (cs : list (nat * jsstring)) : option jsstring :=
  match cs with
  | [] => None
  | (j, s) :: cs' => if Nat.eqb i j then Some s else lookup_cap i cs'
  end.

Definition group (m : State * State) (i : nat) : option jsstring :=
  lookup_cap i (caps (snd m)).

(** [s.match(r)] for [r] without the [g] flag; [None] is [null]. *)
Definition exec (r : regex) (s : jsstring) : option (State * State) :=
  find r 0 None s.

(** [r.test(s)] *)
Definition test (r : regex) (s : jsstring) : bool :=
  match exec r s with Some _ => true | None => false end.

(** The successive matches of a [g] regex: the search resumes where the last
    match ended, one code unit further when that match was empty. Each round
    moves forward, so [fuel], one more than the length, does not run out. *)
Fixpoint matches_from (fuel : nat) (r : regex) (p : nat) (pv : option N)
    (s : jsstring) : list (State * State) :=
  match fuel with
  | O => []
  | S fuel' =>
      match find r p pv s with
      | None => []
      | Some (a, b) =>
          (a, b) ::
          (if Nat.eqb (pos b) (pos a) then
             match rest b with
             | [] => []
             | c :: t => matches_from fuel' r (S (pos b)) (Some c) t
             end
           else matches_from fuel' r (pos b) (prev b) (rest b))
      end
  end.

Definition all_matches (r : regex) (s : jsstring) : list (State * State) :=
  matches_from (S (length s)) r 0 None s.

(** [s.match(r)] for [r] with the [g] flag: the matched substrings; the
    empty list stands for [null]. *)
Definition match_all (r : regex) (s : jsstring) : list jsstring :=
  map matched (all_matches r s).

Fixpoint splice (s : jsstring) (from : nat) (ms : list (State * State))
    (by_ : jsstring) : jsstring :=
  match ms with
  | [] => drop from s
  | m :: ms' =>
      take (pos (fst m) - from) (drop from s) ++ by_
        ++ splice s (pos (snd m)) ms' by_
  end.

(** [s.replace(r, by_)] with the [g] flag, for a replacement without [$]. *)
Definition replace_all (r : regex) (by_ s : jsstring) : jsstring :=
  splice s 0 (all_matches r s) by_.

(** [s.replace(r, by_)] without the [g] flag. *)
Definition replace_first (r : regex) (by_ s : jsstring) : jsstring :=
  match exec r s with
  | Some m => splice s 0 [m] by_
  | None => s
  end.

(** *** Writing patterns *)

Definition is_digit (c : N) : bool := ((48 <=? c) && (c <=? 57))%N.

Definition in_range (lo hi c : N) : bool := ((lo <=? c) && (c <=? hi))%N.

(** [\s]: white space and line terminators. *)
Definition is_space (c : N) : bool :=
  (in_range 9 13 c || (c =? 32) || (c =? 160) || (c =? 5760)
   || in_range 8192 8202 c || (c =? 8232) || (c =? 8233) || (c =? 8239)
   || (c =? 8287) || (c =? 12288) || (c =? 65279))%N.

Definition is_line_terminator (c : N) : bool :=
  ((c =? 10) || (c =? 13) || (c =? 8232) || (c =? 8233))%N.

Definition one_of (s : string) (c : N) : bool :=
  existsb (N.eqb c) (js s).

(** Canonicalize, for the [i] flag, on the characters the patterns name:
    the ASCII letters fold to upper case, and no character outside ASCII
    folds to an ASCII one. *)
Definition canon (c : N) : N :=
  if in_range 97 122 c then (c - 32)%N else c.

Definition chr (c : N) : regex := Chr (N.eqb c).
Definition chr_i (c : N) : regex := Chr (fun d => N.eqb (canon d) (canon c)).

Fixpoint cat (rs : list regex) : regex :=
  match rs with
  | [] => Eps
  | [r] => r
  | r :: rs' => Seq r (cat rs')
  end.

Definition lit (s : string) : regex := cat (map chr (js s)).
Definition lit_i (s : string) : regex := cat (map chr_i (js s)).

Definition set (s : string) : regex := Chr (one_of s).
Definition not_set (s : string) : regex := Chr (fun c => negb (one_of s c)).
Definition digit : regex := Chr is_digit.
Definition space : regex := Chr is_space.
(** [.] without and with the [s] flag *)
Definition dot : regex := Chr (fun c => negb (is_line_terminator c)).
Definition any : regex := Chr (fun _ => true).

Definition star (r : regex) : regex := Rep true 0 None r.
Definition star_lazy (r : regex) : regex := Rep false 0 None r.
Definition plus (r : regex) : regex := Rep true 1 None r.
Definition opt (r : regex) : regex := Rep true 0 (Some 1) r.
Definition times (n : nat) (r : regex) : regex := Rep true n (Some n) r.

(** [s.trim()] *)
Fixpoint trim_start (s : jsstring) : jsstring :=
  match s with
  | c :: t => if is_space c then trim_start t else s
  | [] => []
  end.

Definition trim (s : jsstring) : jsstring :=
  rev (trim_start (rev (trim_start s))).

(** *** Moving forward

    What the termination of the matcher rests on: a matcher calls its
    continuation on states that lie further in the same input. *)

Definition remaining (x : State) : nat := length (rest x).

Definition reach (x y : State) : Prop :=
  remaining y <= remaining x /\ pos y + remaining y = pos x + remaining x.

(** The answer of a matcher depends on its continuation at the states it can
    reach only. *)
Definition forward (m : State -> Cont -> option State) : Prop :=
  forall x k k', (forall y, reach x y -> k y = k' y) -> m x k = m x k'.

(** A match is the answer of the continuation at a state reached. *)
Definition sound (m : State -> Cont -> option State) : Prop :=
  forall x k z, m x k = Some z -> exists y, reach x y /\ k y = Some z.

End Regex.

Module WebSearch.

(** ** [utils/webSearch.ts]: the HTTP fetcher *)

Record RequestOptions := {
  method : option jsstring;
  headers : option Headers;
  timeout : option N;
  retries : option JsNum
}.

Definition default_headers : Headers :=
  [ (js "User-Agent",
     js "Mozilla/5.0 (Windows NT 10.0; Win64; x64) AppleWebKit/537.36 (KHTML, like Gecko) Chrome/120.0.0.0 Safari/537.36");
    (js "Accept",
     js "text/html,application/xhtml+xml,application/xml;q=0.9,image/avif,image/webp,*/*;q=0.8");
    (js "Accept-Language", js "en-US,en;q=0.5") ].

(** Object spread: a key that is already there keeps its place and takes the
    new value, a new key goes to the end. *)
Fixpoint set_header (k v : jsstring) (h : Headers) : Headers :=
  match h with
  | [] => [(k, v)]
  | (k', v') :: h' =>
      if jseqb k k' then (k', v) :: h' else (k', v') :: set_header k v h'
  end.

Definition spread (base extra : Headers) : Headers :=
  fold_left (fun h kv => set_header (fst kv) (snd kv) h) extra base.

(** [options.retries || 2] *)
Definition retry_budget (options : RequestOptions) : Z :=
  match retries options with
  | Some (Num z) => if (z =? 0)%Z then 2%Z else z
  | Some NaN => 2%Z
  | None => 2%Z
  end.

Definition request_of (url : jsstring) (options : RequestOptions) : Request :=
  {| req_url := url;
     req_method := match method options with
                   | Some m => if truthy_str m then m else js "GET"
                   | None => js "GET"
                   end;
     req_headers := spread default_headers
                      (match headers options with Some h => h | None => [] end);
     signal := match timeout options with
               | Some t => if N.eqb t 0 then None else Some t
               | None => None
               end |}.

(** [error instanceof DOMException && error.name === 'AbortError'] *)
Definition is_abort_error (t : Thrown) : bool :=
  match t with
  | ThrowError e => is_DOMException e && jseqb (name e) (js "AbortError")
  | ThrowValue _ => false
  end.

Definition status_error (st : Z) : JsError :=
  new_Error (js "Request failed with status code " ++ show_Z st).

(** [throw lastError || new Error('Request failed')] *)
Definition throw_last {A} (lastError : option JsError) : Completion A :=
  Throw (ThrowError (match lastError with
                     | Some e => e
                     | None => new_Error (js "Request failed")
                     end)).

Section MakeRequest.
Variable net : Network.
Variable url : jsstring.
Variable options : RequestOptions.

(** What the [try] block of one attempt ends with: the response when it is
    [ok], the error thrown otherwise. *)
Definition attempt_result (attempt : Z) : Completion Response :=
  match net (request_of url options) attempt with
  | Normal resp =>
      if ok resp then Normal resp
      else Throw (ThrowError (status_error (status resp)))
  | Throw t => Throw t
  end.

(** The loop [for (attempt = 0; attempt <= retries; attempt++)], by
    recursion on the number [n] of values of [attempt] that are left in
    [0..retries]. [return response.text()] hands the promise of the body to
    the caller without awaiting it, so that a body that cannot be read
    rejects the call without going through the [catch]. *)
Fixpoint attempt_loop (n : nat) (attempt : Z) (lastError : option JsError)
    (tr : list Event) : Run jsstring :=
  match n with
  | O => {| outcome := throw_last lastError; trace := tr |}
  | S n' =>
      let tr := tr ++ [Fetch (request_of url options) attempt] in
      match attempt_result attempt with
      | Normal resp => {| outcome := text resp; trace := tr |}
      | Throw error =>
          let lastError := Some (as_Error error) in
          if is_abort_error error then
            {| outcome := throw_last lastError; trace := tr |}
          else if (attempt =? retry_budget options)%Z then
            {| outcome := throw_last lastError; trace := tr |}
          else
            attempt_loop n' (attempt + 1)%Z lastError
              (tr ++ [Sleep (1000 * 2 ^ attempt)%Z])
      end
  end.

Definition makeRequest : Run jsstring :=
  attempt_loop (Z.to_nat (retry_budget options + 1)) 0%Z None [].
End MakeRequest.


(** ** [utils/webSearch.ts]: search results *)

Import Regex.

Record SearchResult := {
  title : jsstring;
  url : jsstring;
  displayUrl : jsstring;
  snippet : jsstring
}.

Record ContentResult := {
  cr_title : jsstring;
  cr_url : jsstring;
  cr_displayUrl : jsstring;
  cr_snippet : jsstring;
  content : option jsstring;      (* [None] is [null] *)
  error : option jsstring         (* [None] is [undefined] *)
}.

Record SearchResponse := {
  search_query : jsstring;
  search_results : list SearchResult;
  search_error : option jsstring
}.

Record ContentResponse := {
  query : jsstring;
  results : list ContentResult;
  response_error : option jsstring
}.

(** [match[i]] where a string is expected. *)
Definition cap (m : State * State) (i : nat) : jsstring :=
  match group m i with Some s => s | None => [] end.

Definition bind {A B} (c : Completion A) (f : A -> Completion B) : Completion B :=
  match c with
  | Normal a => f a
  | Throw t => Throw t
  end.

(** [/<[^>]+>/g] *)
Definition re_tag : regex := cat [lit "<"; plus (not_set ">"); lit ">"].
(** [/\s+/g] *)
Definition re_spaces : regex := plus space.

Definition cleanHTML (text : jsstring) : jsstring :=
  if negb (truthy_str text) then []
  else
    let decodedText :=
      replace_all (lit "&nbsp;") (js " ")
        (replace_all (lit "&#39;") (js "'")
           (replace_all (lit "&#x27;") (js "'")
              (replace_all (lit "&quot;") (js "`")
                 (replace_all (lit "&gt;") (js ">")
                    (replace_all (lit "&lt;") (js "<")
                       (replace_all (lit "&amp;") (js "&") text)))))) in
    let decodedText := replace_all re_tag [] decodedText in
    trim (replace_all re_spaces (js " ") decodedText).

(** [/<div class=`serp__results`>(.*?)<div class=`(nav-link|feedback-btn)`/s] *)
Definition re_results : regex :=
  cat [lit "<div class=`serp__results`>"; Group 1 (star_lazy any);
       lit "<div class=`"; Group 2 (Alt (lit "nav-link") (lit "feedback-btn"));
       lit "`"].

(** [/<div class=`result results_links results_links_deep web-result[^>]*>(.*?)<div class=`clear`><\/div>/gs] *)
Definition re_block : regex :=
  cat [lit "<div class=`result results_links results_links_deep web-result";
       star (not_set ">"); lit ">"; Group 1 (star_lazy any);
       lit "<div class=`clear`></div>"].

(** [/<a rel=`nofollow` class=`result__a`[^>]*>(.*?)<\/a>/s] *)
Definition re_title : regex :=
  cat [lit "<a rel=`nofollow` class=`result__a`"; star (not_set ">"); lit ">";
       Group 1 (star_lazy any); lit "</a>"].

(** [/href=`\/\/duckduckgo\.com\/l\/\?uddg=(.*?)(?:&|`)/] *)
Definition re_url : regex :=
  cat [lit "href=`//duckduckgo.com/l/?uddg="; Group 1 (star_lazy dot);
       Alt (lit "&") (lit "`")].

(** [/<a class=`result__url`[^>]*>(.*?)<\/a>/s] *)
Definition re_displayUrl : regex :=
  cat [lit "<a class=`result__url`"; star (not_set ">"); lit ">";
       Group 1 (star_lazy any); lit "</a>"].

(** [/<a class=`result__snippet`[^>]*>(.*?)<\/a>/s] *)
Definition re_snippet : regex :=
  cat [lit "<a class=`result__snippet`"; star (not_set ">"); lit ">";
       Group 1 (star_lazy any); lit "</a>"].

(** [/<h2 class=`result__title`>.*?<a rel=`nofollow` class=`result__a`.*?href=`.*?uddg=(.*?)(?:&|`).*?>(.*?)<\/a>.*?<a class=`result__snippet`.*?>(.*?)<\/a>/gs] *)
Definition re_links : regex :=
  cat [lit "<h2 class=`result__title`>"; star_lazy any;
       lit "<a rel=`nofollow` class=`result__a`"; star_lazy any;
       lit "href=`"; star_lazy any; lit "uddg="; Group 1 (star_lazy any);
       Alt (lit "&") (lit "`"); star_lazy any; lit ">";
       Group 2 (star_lazy any); lit "</a>"; star_lazy any;
       lit "<a class=`result__snippet`"; star_lazy any; lit ">";
       Group 3 (star_lazy any); lit "</a>"].

(** [/<a rel=`nofollow` class=`result__a`.*?>(.*?)<\/a>/s] *)
Definition re_alt_title : regex :=
  cat [lit "<a rel=`nofollow` class=`result__a`"; star_lazy any; lit ">";
       Group 1 (star_lazy any); lit "</a>"].

(** [/href=`.*?uddg=(.*?)(?:&|`)/] *)
Definition re_alt_url : regex :=
  cat [lit "href=`"; star_lazy dot; lit "uddg="; Group 1 (star_lazy dot);
       Alt (lit "&") (lit "`")].

(** [/<a class=`result__snippet`.*?>(.*?)<\/a>/s] *)
Definition re_alt_snippet : regex :=
  cat [lit "<a class=`result__snippet`"; star_lazy any; lit ">";
       Group 1 (star_lazy any); lit "</a>"].

Section Extraction.
(** [new URL(s).hostname], which throws when [s] is not an absolute URL. *)
Variable URL_hostname : jsstring -> Completion jsstring.

(** The body of the [try] of one round of the loop over the blocks: the
    result to push, if any. *)
Definition parse_block (block : jsstring) : Completion (option SearchResult) :=
  let titleMatch := exec re_title block in
  let urlMatch := exec re_url block in
  let displayUrlMatch := exec re_displayUrl block in
  let snippetMatch := exec re_snippet block in
  match titleMatch, urlMatch with
  | Some titleMatch, Some urlMatch =>
      bind (decodeURIComponent (cap urlMatch 1)) (fun u =>
      bind (match displayUrlMatch with
            | Some d => Normal (cleanHTML (cap d 1))
            | None => bind (decodeURIComponent (cap urlMatch 1)) URL_hostname
            end) (fun d =>
      Normal (Some {| title := cleanHTML (cap titleMatch 1);
                      url := u;
                      displayUrl := d;
                      snippet := match snippetMatch with
                                 | Some sn => cleanHTML (cap sn 1)
                                 | None => []
                                 end |})))
  | _, _ => Normal None
  end.

(** One round: a block whose [try] throws is passed over. *)
Definition push_block (results : list SearchResult) (block : jsstring)
    : list SearchResult :=
  match parse_block block with
  | Normal (Some r) => results ++ [r]
  | Normal None => results
  | Throw _ => results
  end.

Definition extractDDGResults (html : jsstring) : list SearchResult :=
  match exec re_results html with
  | None => []
  | Some resultsMatch =>
      let resultsHtml := cap resultsMatch 1 in
      let resultBlocks := match_all re_block resultsHtml in
      fold_left push_block
        (take (Nat.min 10 (length resultBlocks)) resultBlocks) []
  end.

Definition parse_link (link : jsstring) : Completion (option SearchResult) :=
  let titleMatch := exec re_alt_title link in
  let urlMatch := exec re_alt_url link in
  let snippetMatch := exec re_alt_snippet link in
  match titleMatch, urlMatch with
  | Some titleMatch, Some urlMatch =>
      bind (decodeURIComponent (cap urlMatch 1)) (fun u =>
      bind (bind (decodeURIComponent (cap urlMatch 1)) URL_hostname) (fun d =>
      Normal (Some {| title := cleanHTML (cap titleMatch 1);
                      url := u;
                      displayUrl := d;
                      snippet := match snippetMatch with
                                 | Some sn => cleanHTML (cap sn 1)
                                 | None => []
                                 end |})))
  | _, _ => Normal None
  end.

(** The loop over the links, inside one [try]: the first link that throws
    ends it, with the results pushed so far. *)
Fixpoint push_links (links : list jsstring) (results : list SearchResult)
    : list SearchResult :=
  match links with
  | [] => results
  | link :: links' =>
      match parse_link link with
      | Normal (Some r) => push_links links' (results ++ [r])
      | Normal None => push_links links' results
      | Throw _ => results
      end
  end.

Definition extractDDGResultsAlternative (html : jsstring) : list SearchResult :=
  push_links (match_all re_links html) [].

Variable net : Network.

Definition search_options : RequestOptions :=
  {| method := None; headers := None; timeout := Some 10000%N;
     retries := Some (Num 2) |}.

Definition searchDuckDuckGo (query : jsstring) : SearchResponse :=
  match
    bind (encodeURIComponent query) (fun encodedQuery =>
    let searchUrl := js "https://html.duckduckgo.com/html/?q=" ++ encodedQuery in
    bind (outcome (makeRequest net searchUrl search_options)) (fun html =>
    let results := extractDDGResults html in
    if Nat.eqb (length results) 0 then
      let alternativeResults := extractDDGResultsAlternative html in
      if Nat.ltb 0 (length alternativeResults) then
        Normal {| search_query := query;
                  search_results := alternativeResults;
                  search_error := None |}
      else
        Normal {| search_query := query;
                  search_results := [];
                  search_error :=
                    Some (js "No results found or couldn't parse results") |}
    else
      Normal {| search_query := query;
                search_results := results;
                search_error := None |}))
  with
  | Normal r => r
  | Throw error =>
      {| search_query := query;
         search_error := Some (error_text error);
         search_results := [] |}
  end.

(** ** [utils/webSearch.ts]: page content *)

(** The pattern the program writes out, with the flags [gi], for script,
    style, header, footer, nav, aside, form, main, article and body: the
    opening [<tag] at a word boundary, then text without [<], then any
    number of [<] that do not begin [</tag>], each with the text without
    [<] after it, then [</tag>]. *)
Definition re_element (tag : string) : regex :=
  cat [lit_i ("<" ++ tag); WordBoundary; star (not_set "<");
       star (cat [NotAhead (lit_i ("</" ++ tag ++ ">")); lit "<";
                  star (not_set "<")]);
       lit_i ("</" ++ tag ++ ">")].

(** [/<!--.*?-->/gs] *)
Definition re_comment : regex := cat [lit "<!--"; star_lazy any; lit "-->"].

(** [(?:content|post-content|entry-content|article-content|page-content|main-content)] *)
Definition re_content_names : regex :=
  Alt (lit_i "content")
    (Alt (lit_i "post-content")
       (Alt (lit_i "entry-content")
          (Alt (lit_i "article-content")
             (Alt (lit_i "page-content") (lit_i "main-content"))))).

(** [/<div\s+(?:[^>]*\s+)?class\s*=\s*[`'](?:[^`']*\s+)?(?:content|...)[^`']*[`'][^>]*>.*?<\/div>/gi] *)
Definition re_content_class : regex :=
  cat [lit_i "<div"; plus space; opt (cat [star (not_set ">"); plus space]);
       lit_i "class"; star space; lit "="; star space; set "`'";
       opt (cat [star (not_set "`'"); plus space]); re_content_names;
       star (not_set "`'"); set "`'"; star (not_set ">"); lit ">";
       star_lazy dot; lit_i "</div>"].

(** [/<div\s+(?:[^>]*\s+)?id\s*=\s*[`'](?:content|...)[`'][^>]*>.*?<\/div>/gi] *)
Definition re_content_id : regex :=
  cat [lit_i "<div"; plus space; opt (cat [star (not_set ">"); plus space]);
       lit_i "id"; star space; lit "="; star space; set "`'";
       re_content_names; set "`'"; star (not_set ">"); lit ">";
       star_lazy dot; lit_i "</div>"].

Definition contentSelectors : list regex :=
  [re_element "main"; re_element "article"; re_content_class;
   re_content_id; re_element "body"].

(** [matches.join(" ")] *)
Fixpoint join (sep : jsstring) (l : list jsstring) : jsstring :=
  match l with
  | [] => []
  | [a] => a
  | a :: l' => a ++ sep ++ join sep l'
  end.

(** The loop over the selectors: the matches of the first that has any,
    joined. *)
Fixpoint select_content (selectors : list regex) (cleanedContent : jsstring)
    : jsstring :=
  match selectors with
  | [] => []
  | selector :: selectors' =>
      match match_all selector cleanedContent with
      | [] => select_content selectors' cleanedContent
      | matches => join (js " ") matches
      end
  end.

(** No step of the [try] block throws on a string, so its [catch] is not
    modelled. *)
Definition extractMainContent (content : jsstring) : jsstring :=
  if negb (truthy_str content) then []
  else
    let cleanedContent :=
      replace_all re_comment (js " ")
        (replace_all (re_element "form") (js " ")
           (replace_all (re_element "aside") (js " ")
              (replace_all (re_element "nav") (js " ")
                 (replace_all (re_element "footer") (js " ")
                    (replace_all (re_element "header") (js " ")
                       (replace_all (re_element "style") (js " ")
                          (replace_all (re_element "script") (js " ")
                             content))))))) in
    let mainContent := select_content contentSelectors cleanedContent in
    let mainContent :=
      if negb (truthy_str mainContent) then cleanedContent else mainContent in
    let textContent := replace_all re_tag (js " ") mainContent in
    let textContent := trim (replace_all re_spaces (js " ") textContent) in
    cleanHTML textContent.

Record PageContent := {
  page_url : jsstring;
  page_content : option jsstring;
  page_error : option jsstring
}.

Definition page_options : RequestOptions :=
  {| method := None;
     headers := Some [(js "Accept",
                       js "text/html,application/xhtml+xml,application/xml;q=0.9,*/*;q=0.8")];
     timeout := Some 15000%N;
     retries := Some (Num 1) |}.

(** [/<title[^>]*>(.*?)<\/title>/i] *)
Definition re_page_title : regex :=
  cat [lit_i "<title"; star (not_set ">"); lit ">"; Group 1 (star_lazy dot);
       lit_i "</title>"].

(** The call of [extractMainContent] as the inner [try] sees it. *)
Definition try_extract (html : jsstring) : Completion jsstring :=
  Normal (extractMainContent html).

(** [fetchPageContent], for what the call of [extractMainContent] in its
    inner [try] does, [extract]. *)
Definition fetchPageContent_with (extract : jsstring -> Completion jsstring)
    (url : jsstring) : Completion PageContent :=
  match outcome (makeRequest net url page_options) with
  | Normal html =>
      match extract html with
      | Throw contentError =>
          Normal {| page_url := url;
                    page_content := None;
                    page_error := Some (js "Error extracting content: "
                                          ++ error_text contentError) |}
      | Normal content =>
          let title := match exec re_page_title html with
                       | Some titleMatch => cleanHTML (cap titleMatch 1)
                       | None => []
                       end in
          Normal {| page_url := url;
                    page_content :=
                      Some (if truthy_str content then content
                            else js "[No content extracted. Page title: "
                                   ++ title ++ js "]");
                    page_error := None |}
      end
  | Throw error =>
      Normal {| page_url := url;
                page_error := Some (error_text error);
                page_content := None |}
  end.

Definition fetchPageContent (url : jsstring) : Completion PageContent :=
  fetchPageContent_with try_extract url.

(** ** [utils/webSearch.ts]: the pipeline *)

(** [{...result, content, error}] from the settled promise of a result. *)
Definition full_result (result : SearchResult) (promise : Settlement PageContent)
    : ContentResult :=
  match promise with
  | Fulfilled value =>
      {| cr_title := title result; cr_url := url result;
         cr_displayUrl := displayUrl result; cr_snippet := snippet result;
         content := page_content value;
         error := page_error value |}
  | Rejected reason =>
      {| cr_title := title result; cr_url := url result;
         cr_displayUrl := displayUrl result; cr_snippet := snippet result;
         content := None;
         error := Some (js "Failed to fetch content: " ++ show_thrown reason) |}
  end.

(** [resultsToProcess.map((result, index) => ...)] over the array
    [settledPromises]. *)
Fixpoint fullResults (index : nat) (resultsToProcess : list SearchResult)
    (settledPromises : list (Settlement PageContent)) : list ContentResult :=
  match resultsToProcess with
  | [] => []
  | result :: rest =>
      match settledPromises !! index with
      | Some promise =>
          full_result result promise
            :: fullResults (S index) rest settledPromises
      | None => []
      end
  end.

(** [webSearch(query)], the page fetches settling in the order [schedule];
    [None] when some fetch is never settled, and the call with it. The
    pages are fetched by [fetchPageContent], whose call of
    [extractMainContent] is [extract]. *)
Definition webSearch_with (extract : jsstring -> Completion jsstring)
    (query : jsstring) (schedule : list nat) : option ContentResponse :=
  let searchResults := searchDuckDuckGo query in
  if match search_error searchResults with
     | Some e => truthy_str e
     | None => false
     end || Nat.eqb (length (search_results searchResults)) 0
  then
    Some {| query := query;
            response_error :=
              Some (match search_error searchResults with
                    | Some e => if truthy_str e then e
                                else js "No search results found"
                    | None => js "No search results found"
                    end);
            results := [] |}
  else
    let resultsToProcess := take 5 (search_results searchResults) in
    match allSettled (map (fun result => fetchPageContent_with extract (url result))
                          resultsToProcess) schedule with
    | None => None
    | Some settledPromises =>
        Some {| query := query;
                results := fullResults 0 resultsToProcess settledPromises;
                response_error := None |}
    end.

Definition webSearch (query : jsstring) (schedule : list nat)
    : option ContentResponse :=
  webSearch_with try_extract query schedule.
End Extraction.

End WebSearch.

Module Message.

Import Regex.

(** ** [utils/message.ts]: phone numbers *)

(** [/[^0-9+]/g] *)
Definition re_not_phone : regex :=
  Chr (fun c => negb (is_digit c || N.eqb c 43)).

(** [/^\+1\d{10}$/] *)
Definition re_plus_one_ten : regex := cat [Bol; lit "+1"; times 10 digit; Eol].
(** [/^1\d{10}$/] *)
Definition re_one_ten : regex := cat [Bol; lit "1"; times 10 digit; Eol].
(** [/^\d{10}$/] *)
Definition re_ten : regex := cat [Bol; times 10 digit; Eol].

(** [s.startsWith(p)] *)
Fixpoint startsWith (s p : jsstring) : bool :=
  match p, s with
  | [], _ => true
  | a :: p', b :: s' => N.eqb a b && startsWith s' p'
  | _ :: _, [] => false
  end.

(** [phone.replace(/[^0-9+]/g, '')] *)
Definition cleaned (phone : jsstring) : jsstring :=
  replace_all re_not_phone [] phone.

(** The set [formats] receives one string and is returned as an array. *)
Definition normalizePhoneNumber (phone : jsstring) : list jsstring :=
  let cleaned := cleaned phone in
  if test re_plus_one_ten cleaned then [cleaned]
  else if test re_one_ten cleaned then [js "+" ++ cleaned]
  else if test re_ten cleaned then [js "+1" ++ cleaned]
  else if startsWith cleaned (js "+1") then [cleaned]
  else if startsWith cleaned (js "1") then [js "+" ++ cleaned]
  else [js "+1" ++ cleaned].

(** ** [utils/message.ts]: attributed bodies *)

Record Decoded := {
  text : jsstring;
  url : option jsstring
}.

Definition not_readable : jsstring := js "[Message content not readable]".

(** The seven patterns tried for the text:
    [/NSString`>(.*?)</], [/NSString`>([^<]+)/],
    [/NSNumber`>\d+<.*?NSString`>(.*?)</], [/NSArray`>.*?NSString`>(.*?)</],
    [/`string`:\s*`([^`]+)`/], [/text[^>]*>(.*?)</], [/message>(.*?)</]. *)
Definition patterns : list regex :=
  [ cat [lit "NSString`>"; Group 1 (star_lazy dot); lit "<"];
    cat [lit "NSString`>"; Group 1 (plus (not_set "<"))];
    cat [lit "NSNumber`>"; plus digit; lit "<"; star_lazy dot;
         lit "NSString`>"; Group 1 (star_lazy dot); lit "<"];
    cat [lit "NSArray`>"; star_lazy dot; lit "NSString`>";
         Group 1 (star_lazy dot); lit "<"];
    cat [lit "`string`:"; star space; lit "`"; Group 1 (plus (not_set "`"));
         lit "`"];
    cat [lit "text"; star (not_set ">"); lit ">"; Group 1 (star_lazy dot);
         lit "<"];
    cat [lit "message>"; Group 1 (star_lazy dot); lit "<"] ].

(** [[^\s<`]] *)
Definition url_char : regex :=
  Chr (fun c => negb (is_space c || one_of "<`" c)).

(** [https?:\/\/] *)
Definition http : regex := cat [lit "http"; opt (lit "s"); lit "://"].

(** The four patterns tried for the URL:
    [/(https?:\/\/[^\s<`]+)/], [/NSString`>(https?:\/\/[^\s<`]+)/],
    [/`url`:\s*`(https?:\/\/[^`]+)`/], [/link[^>]*>(https?:\/\/[^<]+)/]. *)
Definition urlPatterns : list regex :=
  [ Group 1 (cat [http; plus url_char]);
    cat [lit "NSString`>"; Group 1 (cat [http; plus url_char])];
    cat [lit "`url`:"; star space; lit "`";
         Group 1 (cat [http; plus (not_set "`")]); lit "`"];
    cat [lit "link"; star (not_set ">"); lit ">";
         Group 1 (cat [http; plus (not_set "<")])] ].

(** [match?.[1]] when it is truthy. *)
Definition first_group (pattern : regex) (content : jsstring) : option jsstring :=
  match exec pattern content with
  | Some m =>
      match group m 1 with
      | Some s => if truthy_str s then Some s else None
      | None => None
      end
  | None => None
  end.

(** The loop over [patterns]: [text] takes every capture found, and the
    loop ends at the first that is longer than 5. *)
Fixpoint find_text (patterns : list regex) (content text : jsstring) : jsstring :=
  match patterns with
  | [] => text
  | pattern :: patterns' =>
      match first_group pattern content with
      | Some t =>
          if Nat.ltb 5 (length t) then t
          else find_text patterns' content t
      | None => find_text patterns' content text
      end
  end.

(** The loop over [urlPatterns]: the first capture found. *)
Fixpoint find_url (patterns : list regex) (content : jsstring) : option jsstring :=
  match patterns with
  | [] => None
  | pattern :: patterns' =>
      match first_group pattern content with
      | Some u => Some u
      | None => find_url patterns' content
      end
  end.

(** The generic cleanup:
    [/streamtyped.*?NSString/g], [/NSAttributedString.*?NSString/g],
    [/NSDictionary.*?$/g], [/\+[A-Za-z]+\s/g], [/NSNumber.*?NSValue.*?\*/g]
    removed, [/[^\x20-\x7E]/g] and [/\s+/g] replaced by a space, and the
    whole trimmed. *)
Definition readable (content : jsstring) : jsstring :=
  trim
    (replace_all (plus space) (js " ")
       (replace_all (Chr (fun c => negb (in_range 32 126 c))) (js " ")
          (replace_all
             (cat [lit "NSNumber"; star_lazy dot; lit "NSValue"; star_lazy dot;
                   lit "*"]) []
             (replace_all
                (cat [lit "+";
                      plus (Chr (fun c => in_range 65 90 c || in_range 97 122 c));
                      space]) []
                (replace_all (cat [lit "NSDictionary"; star_lazy dot; Eol]) []
                   (replace_all
                      (cat [lit "NSAttributedString"; star_lazy dot;
                            lit "NSString"]) []
                      (replace_all
                         (cat [lit "streamtyped"; star_lazy dot; lit "NSString"])
                         [] content))))))).

(** The clean up of the text found: [/^[+\s]+/] and [/\s*iI\s*[A-Z]\s*$/]
    removed, [/\s+/g] replaced by a space, and the whole trimmed. *)
Definition tidy (text : jsstring) : jsstring :=
  trim
    (replace_all (plus space) (js " ")
       (replace_first
          (cat [star space; lit "iI"; star space; Chr (in_range 65 90);
                star space; Eol]) []
          (replace_first
             (cat [Bol; plus (Chr (fun c => N.eqb c 43 || is_space c))]) []
             text))).

(** No step of the [try] block throws on a string, so its [catch], which
    returns the same placeholder, is not modelled. *)
Definition decodeAttributedBody (hexString : jsstring) : Decoded :=
  let buffer := Buffer_from_hex hexString in
  let content := Buffer_toString buffer in
  let text := find_text patterns content [] in
  let url := find_url urlPatterns content in
  let unreadable :=
    negb (truthy_str text) && match url with Some _ => false | None => true end in
  let readableText := readable content in
  if unreadable && negb (Nat.ltb 5 (length readableText)) then
    {| text := not_readable; url := None |}
  else
    let text := if unreadable then readableText else text in
    let text := if truthy_str text then tidy text else text in
    {| text := if truthy_str text then text
               else match url with Some u => u | None => [] end;
       url := url |}.

(** ** [utils/message.ts]: reading the store *)

(** A message of the store, with the columns the queries read. *)
Record StoredMessage := {
  ROWID : Z;
  stored_text : option jsstring;
  attributedBody : option (list N);
  stored_date : option jsstring;          (* what [datetime(...)] prints *)
  handle : jsstring;
  stored_is_from_me : Z;
  stored_is_audio_message : Z;
  stored_cache_has_attachments : Z;
  stored_subject : option jsstring
}.

(** A row of the answer, as [JSON.parse] gives it. *)
Record Row := {
  message_id : Z;
  row_content : option jsstring;
  row_date : option jsstring;
  row_sender : jsstring;
  row_is_from_me : Z;
  is_audio_message : Z;
  cache_has_attachments : Z;
  subject : option jsstring;
  content_type : Z
}.

(** [hex(blob)] *)
Definition hex (bytes : list N) : jsstring :=
  concat (map (fun b => [hex_digit (b / 16); hex_digit (b mod 16)]) bytes).

(** [m.text IS NOT NULL AND m.text != ''] *)
Definition has_text (m : StoredMessage) : bool :=
  match stored_text m with Some t => truthy_str t | None => false end.

(** The [SELECT] list of both queries, with its two [CASE] columns. *)
Definition select (m : StoredMessage) : Row :=
  {| message_id := ROWID m;
     row_content := if has_text m then stored_text m
                    else match attributedBody m with
                         | Some b => Some (hex b)
                         | None => None
                         end;
     row_date := stored_date m;
     row_sender := handle m;
     row_is_from_me := stored_is_from_me m;
     is_audio_message := stored_is_audio_message m;
     cache_has_attachments := stored_cache_has_attachments m;
     subject := stored_subject m;
     content_type := if has_text m then 0%Z
                     else match attributedBody m with
                          | Some _ => 1%Z
                          | None => 2%Z
                          end |}.

Record Message := {
  content : jsstring;
  date : jsstring;
  sender : jsstring;
  is_from_me : bool;
  attachments : option (list jsstring);
  msg_url : option jsstring
}.

Definition no_text_content : jsstring := js "[No text content]".

(** [/(https?:\/\/[^\s]+)/] *)
Definition re_text_url : regex :=
  Group 1 (cat [http; plus (Chr (fun c => negb (is_space c)))]).

Fixpoint mapM {A B} (f : A -> Completion B) (l : list A) : Completion (list B) :=
  match l with
  | [] => Normal []
  | a :: l' =>
      match f a with
      | Normal b =>
          match mapM f l' with
          | Normal bs => Normal (b :: bs)
          | Throw t => Throw t
          end
      | Throw t => Throw t
      end
  end.

Section Store.
(** The file names the attachment query finds for a message, [None] for a
    null; the query can fail. *)
Variable attachment_rows : Z -> Completion (list (option jsstring)).
(** [new Date(d).toISOString()], which throws for a date that is not
    valid. *)
Variable toISOString : option jsstring -> Completion jsstring.

(** [attachments.map(a => a.filename).filter(Boolean)], and the empty
    list when the query failed. *)
Definition getAttachmentPaths (messageId : Z) : list jsstring :=
  match attachment_rows messageId with
  | Normal rows =>
      omap (fun f => match f with
                     | Some name => if truthy_str name then Some name else None
                     | None => None
                     end) rows
  | Throw _ => []
  end.

(** [msg.content !== null || msg.cache_has_attachments === 1] *)
Definition kept (msg : Row) : bool :=
  match row_content msg with Some _ => true | None => false end
  || (cache_has_attachments msg =? 1)%Z.

(** The function mapped over the rows that are kept. *)
Definition format (msg : Row) : Completion Message :=
  let content := match row_content msg with Some c => c | None => [] end in
  let decoded := decodeAttributedBody content in
  let url :=
    if (content_type msg =? 1)%Z then url decoded
    else match exec re_text_url content with
         | Some urlMatch => group urlMatch 1
         | None => None
         end in
  let content := if (content_type msg =? 1)%Z then text decoded else content in
  let attachments :=
    if negb (cache_has_attachments msg =? 0)%Z
    then getAttachmentPaths (message_id msg) else [] in
  let content :=
    match subject msg with
    | Some s => if truthy_str s then js "Subject: " ++ s ++ [10%N] ++ content
                else content
    | None => content
    end in
  match toISOString (row_date msg) with
  | Throw t => Throw t
  | Normal iso =>
      let has_attachments := Nat.ltb 0 (length attachments) in
      let has_url := match url with Some u => truthy_str u | None => false end in
      Normal
        {| content :=
             (if truthy_str content then content else no_text_content)
             ++ (if has_attachments
                 then [10%N] ++ js "[Attachments: "
                        ++ show_nat (length attachments) ++ js "]"
                 else [])
             ++ (if has_url
                 then [10%N] ++ js "[URL: "
                        ++ match url with Some u => u | None => [] end
                        ++ js "]"
                 else []);
           date := iso;
           sender := row_sender msg;
           is_from_me := negb (row_is_from_me msg =? 0)%Z;
           attachments := if has_attachments then Some attachments else None;
           msg_url := if has_url then url else None |}
  end.

(** [Promise.all(messages.filter(...).map(...))]: the first rejection
    rejects the whole. *)
Definition processedMessages (messages : list Row) : Completion (list Message) :=
  mapM format (filter (fun msg => kept msg = true) messages).

(** What [readMessages] and [getUnreadMessages] return for the stored
    messages their query selects, in its order: nothing without access to
    the store, and nothing when a step throws. *)
Definition readMessages (hasAccess : bool) (selected : list StoredMessage)
    : list Message :=
  if negb hasAccess then []
  else
    match processedMessages (map select selected) with
    | Normal msgs => msgs
    | Throw _ => []
    end.

Definition getUnreadMessages (hasAccess : bool) (selected : list StoredMessage)
    : list Message :=
  if negb hasAccess then []
  else
    match processedMessages (map select selected) with
    | Normal msgs => msgs
    | Throw _ => []
    end.
End Store.

End Message.

Module MessageOps.

Import Regex Message.

(** ** [utils/message.ts]: retries, access to the store, queries, sending *)

Definition MAX_RETRIES : Z := 3.
Definition RETRY_DELAY : Z := 1000.

(** What a retried operation has done: its calls, numbered, and the delays
    waited for. *)
Inductive Step :=
| Call (i : nat)
| Wait (ms : Z).

Record Retried (A : Type) := {
  returned : Completion A;
  steps : list Step
}.
Arguments returned {A} r.
Arguments steps {A} r.

Definition calls {A} (r : Retried A) : nat :=
  length (List.filter (fun s => match s with Call _ => true | Wait _ => false end)
                      (steps r)).

Fixpoint waits (l : list Step) : list Z :=
  match l with
  | [] => []
  | Wait ms :: l' => ms :: waits l'
  | Call _ :: l' => waits l'
  end.

Section Retry.
Context {A : Type}.
(** The operation, by the number of its call. *)
Variable operation : nat -> Completion A.
Variable delay : Z.

(** [retryOperation], by recursion on the retries that are left: [retries >
    0] holds as long as [n] is not 0. *)
Fixpoint retry_loop (n : nat) (i : nat) (done : list Step) : Retried A :=
  match operation i with
  | Normal a => {| returned := Normal a; steps := done ++ [Call i] |}
  | Throw error =>
      match n with
      | S n' => retry_loop n' (S i) (done ++ [Call i; Wait delay])
      | O => {| returned := Throw error; steps := done ++ [Call i] |}
      end
  end.
End Retry.

(** [retryOperation(operation, retries = MAX_RETRIES, delay = RETRY_DELAY)] *)
Definition retryOperation {A} (operation : nat -> Completion A)
    (retries delay : option Z) : Retried A :=
  retry_loop operation
    (match delay with Some d => d | None => RETRY_DELAY end)
    (Z.to_nat (match retries with Some r => r | None => MAX_RETRIES end))
    0 [].

(** What [checkMessagesDBAccess] meets: whether the file of the store can be
    accessed, and whether the probe query runs. *)
Record StoreAccess := {
  file_access : Completion unit;
  probe : Completion unit
}.

(** [checkMessagesDBAccess]: its [catch] turns every failure into
    [false]. *)
Definition checkMessagesDBAccess (s : StoreAccess) : bool :=
  match file_access s with
  | Normal _ =>
      match probe s with
      | Normal _ => true
      | Throw _ => false
      end
  | Throw _ => false
  end.

(** [p => `'${p.replace(/'/g, "''")}'`] *)
Definition sql_quote (p : jsstring) : jsstring :=
  js "'" ++ replace_all (chr 39) (js "''") p ++ js "'".

(** [phoneFormats.map(...).join(',')] *)
Definition phoneList (phoneNumber : jsstring) : jsstring :=
  WebSearch.join (js ",") (map sql_quote (normalizePhoneNumber phoneNumber)).

Section Reading.
Variable attachment_rows : Z -> Completion (list (option jsstring)).
Variable toISOString : option jsstring -> Completion jsstring.
(** The state of the store at each call of the access check, and what each
    run of the query gives: the stored messages it selects, or a failure of
    the command. *)
Variable store : nat -> StoreAccess.
Variable run_query : nat -> Completion (list StoredMessage).

(** [await retryOperation(checkMessagesDBAccess)] *)
Definition access_check : Retried bool :=
  retryOperation (fun i => Normal (checkMessagesDBAccess (store i))) None None.

(** [await retryOperation(() => execAsync(...))] *)
Definition query_runs : Retried (list StoredMessage) :=
  retryOperation run_query None None.

(** [readMessages] and [getUnreadMessages] with their access check and the
    runs of their query. *)
Definition read_store : list Message :=
  match returned access_check with
  | Normal hasAccess =>
      if negb hasAccess then []
      else
        match returned query_runs with
        | Normal selected =>
            readMessages attachment_rows toISOString true selected
        | Throw _ => []
        end
  | Throw _ => []
  end.
End Reading.

(** [message.replace(/`/g, '\\`')], the grave accent standing for the double
    quote. *)
Definition escapedMessage (message : jsstring) : jsstring :=
  replace_all (chr 34) [92%N; 34%N] message.

(** The script [sendMessage] runs. *)
Definition send_script (phoneNumber message : jsstring) : jsstring :=
  [10%N] ++ js "tell application `Messages`" ++ [10%N]
  ++ js "    set targetService to 1st service whose service type = iMessage" ++ [10%N]
  ++ js "    set targetBuddy to buddy `" ++ phoneNumber ++ js "`" ++ [10%N]
  ++ js "    send `" ++ escapedMessage message ++ js "` to targetBuddy" ++ [10%N]
  ++ js "end tell".

End MessageOps.

Module Handlers.

Import WebSearch.

(** ** [src/handlers/webSearchHandler.ts] *)

Record ToolResult := {
  text : jsstring;
  isError : bool
}.

(** [${r.content}] *)
Definition shown_content (c : option jsstring) : jsstring :=
  match c with Some s => s | None => js "null" end.

(** [`[${r.displayUrl}] ${r.title} - ${r.snippet} \n content: ${r.content}`] *)
Definition result_line (r : ContentResult) : jsstring :=
  js "[" ++ cr_displayUrl r ++ js "] " ++ cr_title r ++ js " - " ++ cr_snippet r
  ++ js " " ++ [10%N] ++ js " content: " ++ shown_content (content r).

(** [handleWebSearch], given what loading the module and the call of
    [webSearch] give. *)
Definition handleWebSearch (query : jsstring) (loaded : Completion unit)
    (result : ContentResponse) : ToolResult :=
  match loaded with
  | Normal _ =>
      {| text :=
           if Nat.ltb 0 (length (results result)) then
             js "Found " ++ show_nat (length (results result))
             ++ js " results for `" ++ query ++ js "`. "
             ++ join [10%N] (map result_line (results result))
           else js "No results found for `" ++ query ++ js "`.";
         isError := false |}
  | Throw error =>
      {| text := js "Error performing web search: " ++ error_text error;
         isError := true |}
  end.

End Handlers.

(** * Vocabulary of the properties *)

Module Fixtures.
Import Regex WebSearch.

(** An attempt fails, and not with an abort: the [fetch] is rejected with
    something else than an [AbortError] (a network error), or its response
    has a status outside 200..299. *)
Definition fails_retryably (net : Network) (url : jsstring)
    (options : RequestOptions) (attempt : Z) : Prop :=
  exists error,
    attempt_result net url options attempt = Throw error
    /\ is_abort_error error = false.

Definition always_fails (net : Network) (url : jsstring)
    (options : RequestOptions) : Prop :=
  forall attempt, fails_retryably net url options attempt.

(** The error an attempt ends with. *)
Definition attempt_error (net : Network) (url : jsstring)
    (options : RequestOptions) (attempt : Z) : option JsError :=
  match attempt_result net url options attempt with
  | Throw error => Some (as_Error error)
  | Normal _ => None
  end.

(** A network on which every request runs into the timeout of its signal. *)
Definition timing_out : Network :=
  fun _ _ => Throw (ThrowError (timeout_reason (js "The operation timed out."))).

(** A network that answers every request with the status 503. *)
Definition unavailable : Network :=
  fun _ _ => Normal {| status := 503; text := Normal [] |}.

Definition with_retries (n : option JsNum) : RequestOptions :=
  {| method := None; headers := None; timeout := Some 10000%N; retries := n |}.

(** The characters [cleaned] keeps: the digits and [+]. *)
Definition phone_char (c : N) : bool := is_digit c || N.eqb c 43.

Definition digits (ds : jsstring) : Prop := Forall (fun c => is_digit c = true) ds.

(** The cleaning as the specification words it: every character removed
    except the digits and a leading [+]. *)
Definition spec_cleaned (phone : jsstring) : jsstring :=
  match List.filter phone_char phone with
  | c :: t => c :: List.filter is_digit t
  | [] => []
  end.



(** A stored message without text and without attributed body, and its
    attachment flag. *)
Definition bare_message (flag : Z) (subject : option jsstring) : Message.StoredMessage :=
  {| Message.ROWID := 7;
     Message.stored_text := None;
     Message.attributedBody := None;
     Message.stored_date := Some (js "2024-05-01 10:00:00");
     Message.handle := js "+15551234567";
     Message.stored_is_from_me := 0;
     Message.stored_is_audio_message := 0;
     Message.stored_cache_has_attachments := flag;
     Message.stored_subject := subject |}.

(** An attachment table with two files for every message, one where the
    only file has no name, and one that cannot be read. *)
Definition two_files : Z -> Completion (list (option jsstring)) :=
  fun _ => Normal [Some (js "~/a.jpg"); Some (js "~/b.png")].
Definition unnamed_file : Z -> Completion (list (option jsstring)) :=
  fun _ => Normal [None].
Definition no_table : Z -> Completion (list (option jsstring)) :=
  fun _ => Throw (ThrowError (new_Error (js "Command failed"))).

(** A clock for which every date is valid. *)
Definition fixed_iso : option jsstring -> Completion jsstring :=
  fun _ => Normal (js "2024-05-01T08:00:00.000Z").

(** [subject] is not null and not empty. *)
Definition has_subject (msg : Message.Row) : bool :=
  match Message.subject msg with Some s => truthy_str s | None => false end.

(** The marker [\n[Attachments: n]]. *)
Definition attachments_marker (n : nat) : jsstring :=
  [10%N] ++ js "[Attachments: " ++ show_nat n ++ js "]".

(** The dates of the messages selected that are kept are all valid. *)
Definition valid_dates (toISOString : option jsstring -> Completion jsstring)
    (selected : list Message.StoredMessage) : Prop :=
  Forall (fun m => Message.kept (Message.select m) = true ->
                   exists iso, toISOString (Message.stored_date m) = Normal iso)
         selected.

(** The message made of a stored message without content, whose attachment
    query resolves the file names [names] and whose date is [iso]: the
    subject line when there is a subject, the placeholder otherwise, then
    the marker when there are file names. *)
Definition null_content_message (m : Message.StoredMessage)
    (names : list jsstring) (iso : jsstring) : Message.Message :=
  {| Message.content :=
       match Message.stored_subject m with
       | Some s => if truthy_str s then js "Subject: " ++ s ++ [10%N]
                   else Message.no_text_content
       | None => Message.no_text_content
       end
       ++ match names with
          | [] => []
          | _ :: _ => attachments_marker (length names)
          end;
     Message.date := iso;
     Message.sender := Message.handle m;
     Message.is_from_me := negb (Message.stored_is_from_me m =? 0)%Z;
     Message.attachments := match names with
                            | [] => None
                            | _ :: _ => Some names
                            end;
     Message.msg_url := None |}.

(** A stand-in for [new URL(s).hostname] on the URLs of the examples:
    absolute http and https URLs with a host of lower-case ASCII letters,
    digits, dots and hyphens, without credentials and port; on those it
    gives the host, as the platform does, and it throws on a string without
    scheme. On other strings it is not the function of the platform, which
    lower-cases the host and accepts credentials and a port: the theorems
    take the function of the platform as a variable, and only the examples
    use this one. *)
Definition re_plain_url : regex :=
  cat [Bol; lit "http"; opt (lit "s"); lit "://";
       Group 1 (plus (Chr (fun c => is_alnum c || one_of ".-" c)));
       Alt (set "/?#") Eol].

Definition plain_hostname (s : jsstring) : Completion jsstring :=
  match exec re_plain_url s with
  | Some m => Normal (cap m 1)
  | None =>
      Throw (ThrowError {| is_DOMException := false; name := js "TypeError";
                           message := js "Invalid URL" |})
  end.

(** A result block of the search page for the encoded URL [u], with [extra]
    after its title. *)
Definition result_block (u extra : string) : string :=
  "<div class=`result results_links results_links_deep web-result `>"
  ++ "<h2 class=`result__title`><a rel=`nofollow` class=`result__a` "
  ++ "href=`//duckduckgo.com/l/?uddg=" ++ u ++ "&amp;rut=1`>Example &amp; Co</a></h2>"
  ++ extra ++ "<div class=`clear`></div></div>".

Definition display_and_snippet : string :=
  "<a class=`result__url` href=`x`> example.com/a </a>"
  ++ "<a class=`result__snippet` href=`x`>A <b>snippet</b></a>".

Definition display_only : string :=
  "<a class=`result__url` href=`x`> example.com/a </a>".

Definition results_page (blocks : string) : jsstring :=
  js ("<html><div class=`serp__results`>" ++ blocks ++ "<div class=`nav-link`>").

(** A block with its title, an address that is not percent-encoded text,
    and its display URL; only the snippet is missing. *)
Definition undecodable_block : jsstring :=
  js (result_block "%" display_only).

(** A page in the looser markup only: no results container. *)
Definition fallback_page : jsstring :=
  js ("<h2 class=`result__title`><a rel=`nofollow` class=`result__a` "
      ++ "href=`//duckduckgo.com/l/?uddg=https%3A%2F%2Fexample.com%2Fa&amp;rut=1`>"
      ++ "Example &amp; Co</a></h2>"
      ++ "<a class=`result__snippet` href=`x`>A <b>snippet</b></a>").

(** A search page with three results. *)
Definition three_results_page : jsstring :=
  results_page (result_block "https%3A%2F%2Fa.example%2F1" display_and_snippet
                ++ result_block "https%3A%2F%2Fb.example%2F2" ""
                ++ result_block "https%3A%2F%2Fc.example%2F3" display_and_snippet).

Definition served (body : jsstring) : Completion Response :=
  Normal {| status := 200; text := Normal body |}.

Definition is_search (r : Request) : bool :=
  Message.startsWith (req_url r) (js "https://html.duckduckgo.com/html/?q=").

(** Networks that serve a search page, and for the pages of the results
    [pages]. *)
Definition serving (search_page : jsstring)
    (pages : jsstring -> Completion Response) : Network :=
  fun r _ => if is_search r then served search_page else pages (req_url r).

Definition article : jsstring :=
  js "<html><head><title>T</title></head><body><main>Lima is the capital.</main></body></html>".

(** Every page is served, but for the second result, whose fetch is
    rejected. *)
Definition second_fails (message : jsstring) (u : jsstring) : Completion Response :=
  if jseqb u (js "https://b.example/2")
  then Throw (ThrowError {| is_DOMException := false; name := js "TypeError";
                            message := message |})
  else served article.

(** The page the search request brings back. *)
Definition search_page (net : Network) (query html : jsstring) : Prop :=
  exists encodedQuery,
    encodeURIComponent query = Normal encodedQuery
    /\ outcome (makeRequest net
                  (js "https://html.duckduckgo.com/html/?q=" ++ encodedQuery)
                  search_options) = Normal html.

(** The fetch of a page fails: [makeRequest] throws. *)
Definition fetch_failed (net : Network) (url : jsstring) : Prop :=
  exists e, outcome (makeRequest net url page_options) = Throw e.

(** The extraction of a page fails: the page is fetched and the call
    [extract] of [extractMainContent] throws. *)
Definition extraction_failed (extract : jsstring -> Completion jsstring)
    (net : Network) (url : jsstring) : Prop :=
  exists html e,
    outcome (makeRequest net url page_options) = Normal html
    /\ extract html = Throw e.

(** Whatever the network rejects with carries a text that is not empty, as
    the errors of the platform do: the rejections of [fetch], and those of
    reading a body. *)
Definition rejections_carry_text (net : Network) : Prop :=
  forall req attempt,
    match net req attempt with
    | Throw t => error_text t <> []
    | Normal resp => forall t, text resp = Throw t -> error_text t <> []
    end.

(** The result made of a search result and of the fetch of its own page. *)
Definition page_result_with (extract : jsstring -> Completion jsstring)
    (net : Network) (result : SearchResult) : ContentResult :=
  full_result result (settle (fetchPageContent_with net extract (url result))).

Definition page_result (net : Network) (result : SearchResult) : ContentResult :=
  page_result_with try_extract net result.

(** An extractor that throws on every page. *)
Definition failing_extract (html : jsstring) : Completion jsstring :=
  Throw (ThrowError (new_Error (js "bad page"))).

(** The first capture of a match that is there. *)
Definition cap_of (m : option (State * State)) : jsstring :=
  match m with Some m => cap m 1 | None => [] end.

End Fixtures.

Module More.
Import Regex WebSearch Fixtures.

(** The requests and delays of a call that goes through [k] failed attempts
    and one more: the same request each time, the [i]-th failure followed by
    a delay of [1000 * 2 ^ i] ms. *)
Definition backoff_from (req : Request) (i k : nat) : list Event :=
  flat_map (fun j => [Fetch req (Z.of_nat j); Sleep (1000 * 2 ^ Z.of_nat j)])
           (seq i k)
  ++ [Fetch req (Z.of_nat (i + k))].

Definition backoff (req : Request) (k : nat) : list Event := backoff_from req 0 k.

(** The value of a header: that of the first entry with its name. *)
Fixpoint header (k : jsstring) (h : Headers) : option jsstring :=
  match h with
  | [] => None
  | (k', v) :: h' => if jseqb k k' then Some v else header k h'
  end.

(** The value the last entry with the name [k] gives. *)
Definition last_header (k : jsstring) (h : Headers) : option jsstring :=
  header k (rev h).

(** A network that answers the first [k] attempts of every request with
    the status 503 and the later ones with [body]. *)
Definition flaky (k : Z) (body : jsstring) : Network :=
  fun _ attempt =>
    if (attempt <? k)%Z then Normal {| status := 503; text := Normal [] |}
    else Normal {| status := 200; text := Normal body |}.

(** Every run of characters of the class [q] replaced by [by_]. *)
Fixpoint collapse (q : N -> bool) (by_ : jsstring) (in_run : bool) (s : jsstring)
    : jsstring :=
  match s with
  | [] => []
  | c :: t =>
      if q c then (if in_run then [] else by_) ++ collapse q by_ true t
      else c :: collapse q by_ false t
  end.

(** Every character of the class [q] replaced by [by_]. *)
Definition substitute (q : N -> bool) (by_ : jsstring) (s : jsstring) : jsstring :=
  flat_map (fun c => if q c then by_ else [c]) s.

(** The state after the longest run of characters of the class [q]. *)
Fixpoint run_end (q : N -> bool) (p : nat) (pv : option N) (s : jsstring)
    (cs : list (nat * jsstring)) : State :=
  match s with
  | c :: t => if q c then run_end q (S p) (Some c) t cs
              else {| pos := p; prev := pv; rest := s; caps := cs |}
  | [] => {| pos := p; prev := pv; rest := []; caps := cs |}
  end.

(** Text in which the only white space is single spaces between other
    characters: [after_space] tells whether a space, or the start, comes
    just before. *)
Fixpoint spaced_from (after_space : bool) (s : jsstring) : bool :=
  match s with
  | [] => negb after_space
  | c :: t =>
      if is_space c then N.eqb c 32 && negb after_space && spaced_from true t
      else spaced_from false t
  end.

Definition normalized (s : jsstring) : bool :=
  match s with
  | [] => true
  | _ => spaced_from true s
  end.

(** What is left after the longest run of characters of the class [q]. *)
Fixpoint drop_run (q : N -> bool) (s : jsstring) : jsstring :=
  match s with
  | c :: t => if q c then drop_run q t else s
  | [] => []
  end.

(** As [spaced_from], but the text may end with a space. *)
Fixpoint loose (after_space : bool) (s : jsstring) : bool :=
  match s with
  | [] => true
  | c :: t =>
      if is_space c then N.eqb c 32 && negb after_space && loose true t
      else loose false t
  end.

(** The result blocks of a search page. *)
Definition result_blocks (html : jsstring) : list jsstring :=
  match exec re_results html with
  | Some resultsMatch => match_all re_block (cap resultsMatch 1)
  | None => []
  end.

(** What one block contributes: its result, or nothing when a field is
    missing or its [try] throws. *)
Definition block_result (URL_hostname : jsstring -> Completion jsstring)
    (block : jsstring) : option SearchResult :=
  match parse_block URL_hostname block with
  | Normal (Some r) => Some r
  | Normal None => None
  | Throw _ => None
  end.

(** A link of the looser markup with the encoded address [u]. *)
Definition result_link (u : string) : string :=
  "<h2 class=`result__title`><a rel=`nofollow` class=`result__a` "
  ++ "href=`//duckduckgo.com/l/?uddg=" ++ u ++ "&amp;rut=1`>Example</a></h2>"
  ++ "<a class=`result__snippet` href=`x`>A snippet</a>".

End More.

Module MoreMessages.
Import Regex Message MessageOps Fixtures.

(** Ten characters, all digits. *)
Definition ten_digits (s : jsstring) : bool :=
  Nat.eqb (length s) 10 && forallb is_digit s.

(** The steps of a retried operation that fails [k] times from its call
    [i] on and is called once more. *)
Definition retry_steps (delay : Z) (i k : nat) : list Step :=
  flat_map (fun j => [Call j; Wait delay]) (seq i k) ++ [Call (i + k)].

(** A store that can be read. *)
Definition open_store : nat -> StoreAccess :=
  fun _ => {| file_access := Normal tt; probe := Normal tt |}.

(** A query whose first two runs fail. *)
Definition third_run (selected : list StoredMessage)
    : nat -> Completion (list StoredMessage) :=
  fun i => if Nat.ltb i 2
           then Throw (ThrowError (new_Error (js "database is locked")))
           else Normal selected.

(** A clock for which the empty string is no date. *)
Definition strict_iso : option jsstring -> Completion jsstring :=
  fun d => match d with
           | Some [] =>
               Throw (ThrowError {| is_DOMException := false;
                                    name := js "RangeError";
                                    message := js "Invalid time value" |})
           | _ => Normal (js "2024-05-01T08:00:00.000Z")
           end.

(** A stored message with a text and a date. *)
Definition text_message (body : string) (date : string) : StoredMessage :=
  {| ROWID := 9;
     stored_text := Some (js body);
     attributedBody := None;
     stored_date := Some (js date);
     handle := js "+15551234567";
     stored_is_from_me := 1;
     stored_is_audio_message := 0;
     stored_cache_has_attachments := 0;
     stored_subject := None |}.

End MoreMessages.

(** * Properties *)

(** ** Decoding percent escapes *)

Section DecodeURI.

Lemma percent_byte_length s b t :
  percent_byte s = Some (b, t) -> length s = 3 + length t.
Proof.
  unfold percent_byte.
  destruct s as [|c [|a1 [|a2 t']]]; try discriminate.
  destruct (c =? 37)%N; [|discriminate].
  destruct (hex_value a1), (hex_value a2); try discriminate.
  intros [= _ <-]. reflexivity.
Qed.

Lemma continuation_bytes_length n : forall s bs t,
  continuation_bytes n s = Some (bs, t) -> length t <= length s.
Proof.
  induction n as [|n IH]; intros s bs t; cbn [continuation_bytes].
  - intros [= _ <-]. reflexivity.
  - destruct (percent_byte s) as [[b t1]|] eqn:E; [|discriminate].
    destruct ((128 <=? b) && (b <=? 191))%N; [|discriminate].
    destruct (continuation_bytes n t1) as [[bs' t']|] eqn:E'; [|discriminate].
    intros [= _ <-]. apply percent_byte_length in E. apply IH in E'. lia.
Qed.

Lemma decode_uri_S fuel s :
  decode_uri (S fuel) s
  = match s with
    | [] => Normal []
    | c :: t =>
        if negb (c =? 37)%N then prepend [c] (decode_uri fuel t)
        else
          match percent_byte s with
          | None => Throw (ThrowError URIError)
          | Some (b, t1) =>
              if (b <? 128)%N then prepend [b] (decode_uri fuel t1)
              else
                match following_bytes b with
                | None => Throw (ThrowError URIError)
                | Some n =>
                    match continuation_bytes n t1 with
                    | None => Throw (ThrowError URIError)
                    | Some (bs, t2) =>
                        match utf8_decode utf8_idle (b :: bs) with
                        | [Some cp] => prepend (utf16 cp) (decode_uri fuel t2)
                        | _ => Throw (ThrowError URIError)
                        end
                    end
                end
          end
    end.
Proof. reflexivity. Qed.

(** The fuel of the decoder is enough: it never runs out before the
    string does. *)
Lemma decode_uri_fuel_step fuel : forall s,
  length s <= fuel -> decode_uri fuel s = decode_uri (S fuel) s.
Proof.
  induction fuel as [|fuel IH]; intros s Hf.
  - destruct s; [reflexivity | simpl in Hf; lia].
  - rewrite (decode_uri_S (S fuel)), (decode_uri_S fuel).
    destruct s as [|c t]; [reflexivity|]. cbn [length] in Hf.
    destruct (negb (c =? 37)%N); [rewrite IH by lia; reflexivity|].
    destruct (percent_byte (c :: t)) as [[b t1]|] eqn:E; [|reflexivity].
    apply percent_byte_length in E. cbn [length] in E.
    destruct (b <? 128)%N; [rewrite IH by lia; reflexivity|].
    destruct (following_bytes b) as [n|]; [|reflexivity].
    destruct (continuation_bytes n t1) as [[bs t2]|] eqn:E'; [|reflexivity].
    apply continuation_bytes_length in E'.
    destruct (utf8_decode utf8_idle (b :: bs)) as [|[cp|] [|? ?]]; try reflexivity.
    rewrite IH by lia. reflexivity.
Qed.

(** With any fuel that covers the string, the decoder gives what
    [decodeURIComponent] gives. *)
Lemma decodeURIComponent_fuel fuel s :
  length s <= fuel -> decode_uri fuel s = decodeURIComponent s.
Proof.
  intros Hf. unfold decodeURIComponent.
  replace fuel with ((fuel - length s) + length s) by lia.
  induction (fuel - length s) as [|d IH]; [reflexivity|].
  rewrite <- IH. cbn [Nat.add]. symmetry. apply decode_uri_fuel_step. lia.
Qed.
End DecodeURI.

(** ** The matcher moves forward *)

Section Forward.
Import Regex.

Lemma reach_refl x : reach x x.
Proof. split; reflexivity. Qed.

Lemma reach_trans x y z : reach x y -> reach y z -> reach x z.
Proof. unfold reach. intros [? ?] [? ?]. split; lia. Qed.

Lemma reach_capture i x y : reach x y -> reach x (capture i x y).
Proof. unfold reach, remaining, capture. cbn [rest pos]. tauto. Qed.

Lemma reach_same_pos x y : reach x y -> (pos y = pos x <-> remaining y = remaining x).
Proof. unfold reach. intros [? ?]. lia. Qed.

Section RepeatForward.
Variable m : State -> Cont -> option State.
Variable greedy : bool.
Hypothesis m_forward : forward m.
Hypothesis m_sound : sound m.

Lemma repeat_forward fuel : forall min max, forward (fun x k => repeat m greedy fuel min max x k).
Proof.
  induction fuel as [|fuel IH]; intros min max x k k' Hk; cbn [repeat].
  - destruct max as [[|?]|]; destruct min; try reflexivity;
      apply Hk, reach_refl.
  - assert (Hd : forall y, reach x y ->
               (if Nat.eqb min 0 && Nat.eqb (pos y) (pos x) then None
                else repeat m greedy fuel (Nat.pred min) (option_map Nat.pred max) y k)
               = (if Nat.eqb min 0 && Nat.eqb (pos y) (pos x) then None
                  else repeat m greedy fuel (Nat.pred min) (option_map Nat.pred max) y k')).
    { intros y Hy. destruct (Nat.eqb min 0 && Nat.eqb (pos y) (pos x)); [reflexivity|].
      apply IH. intros z Hz. apply Hk. eapply reach_trans; eauto. }
    rewrite (Hk x (reach_refl x)).
    rewrite (m_forward x _ _ Hd). reflexivity.
Qed.

Lemma repeat_sound fuel : forall min max, sound (fun x k => repeat m greedy fuel min max x k).
Proof.
  induction fuel as [|fuel IH]; intros min max x k z; cbn [repeat].
  - destruct max as [[|?]|]; destruct min; try discriminate;
      intros H; exists x; split; auto using reach_refl.
  - assert (Hd : m x (fun y =>
                   if Nat.eqb min 0 && Nat.eqb (pos y) (pos x) then None
                   else repeat m greedy fuel (Nat.pred min) (option_map Nat.pred max) y k)
                 = Some z -> exists y, reach x y /\ k y = Some z).
    { intros H. apply m_sound in H as (y & Hy & H).
      destruct (Nat.eqb min 0 && Nat.eqb (pos y) (pos x)); [discriminate|].
      apply IH in H as (y' & Hy' & H). exists y'. split; [|assumption].
      eapply reach_trans; eauto. }
    assert (Hx : k x = Some z -> exists y, reach x y /\ k y = Some z).
    { intros H. exists x. split; auto using reach_refl. }
    destruct max as [[|?]|]; [exact Hx | |];
      (destruct min; [|exact Hd]); destruct greedy.
    + destruct (m x _); [|exact Hx]. intros [= <-]. apply Hd. reflexivity.
    + destruct (k x); [|exact Hd]. intros [= <-]. apply Hx. reflexivity.
    + destruct (m x _); [|exact Hx]. intros [= <-]. apply Hd. reflexivity.
    + destruct (k x); [|exact Hd]. intros [= <-]. apply Hx. reflexivity.
Qed.

Lemma repeat_S fuel min max x k :
  repeat m greedy (S fuel) min max x k
  = match max with
    | Some O => k x
    | _ =>
        let d := fun y : State =>
          if Nat.eqb min 0 && Nat.eqb (pos y) (pos x) then None
          else repeat m greedy fuel (Nat.pred min) (option_map Nat.pred max) y k in
        match min with
        | S _ => m x d
        | O =>
            if greedy then
              match m x d with Some z => Some z | None => k x end
            else
              match k x with Some z => Some z | None => m x d end
        end
    end.
Proof. reflexivity. Qed.

(** One more unit of fuel changes nothing once the fuel covers the
    iterations required and the input that is left. *)
Lemma repeat_fuel_step fuel : forall min max x k,
  min + remaining x <= fuel ->
  repeat m greedy fuel min max x k = repeat m greedy (S fuel) min max x k.
Proof.
  induction fuel as [|fuel IH]; intros min max x k Hf.
  - assert (min = 0) by lia. assert (Hx : remaining x = 0) by lia. subst min.
    cbn [repeat]. destruct max as [[|?]|]; try reflexivity;
      cbn [Nat.eqb andb].
    + destruct (m x _) as [z|] eqn:E.
      * apply m_sound in E as (y & Hy & E).
        rewrite (proj2 (Nat.eqb_eq (pos y) (pos x))) in E; [discriminate|].
        apply (reach_same_pos x y Hy). destruct Hy. lia.
      * destruct greedy; [reflexivity|]. now destruct (k x).
    + destruct (m x _) as [z|] eqn:E.
      * apply m_sound in E as (y & Hy & E).
        rewrite (proj2 (Nat.eqb_eq (pos y) (pos x))) in E; [discriminate|].
        apply (reach_same_pos x y Hy). destruct Hy. lia.
      * destruct greedy; [reflexivity|]. now destruct (k x).
  - rewrite (repeat_S (S fuel)), (repeat_S fuel). cbv zeta.
    assert (Hd : forall y, reach x y ->
               (if Nat.eqb min 0 && Nat.eqb (pos y) (pos x) then None
                else repeat m greedy fuel (Nat.pred min) (option_map Nat.pred max) y k)
               = (if Nat.eqb min 0 && Nat.eqb (pos y) (pos x) then None
                  else repeat m greedy (S fuel) (Nat.pred min)
                         (option_map Nat.pred max) y k)).
    { intros y Hy.
      destruct (Nat.eqb min 0 && Nat.eqb (pos y) (pos x)) eqn:E; [reflexivity|].
      apply IH.
      apply andb_false_iff in E as [E|E].
      - apply Nat.eqb_neq in E. destruct Hy. lia.
      - apply Nat.eqb_neq in E.
        pose proof (reach_same_pos x y Hy). destruct Hy. lia. }
    rewrite (m_forward x _ _ Hd). reflexivity.
Qed.

Lemma repeat_fuel fuel min max x k :
  min + remaining x <= fuel ->
  repeat m greedy fuel min max x k
  = repeat m greedy (min + remaining x) min max x k.
Proof.
  intros Hf. replace fuel with ((fuel - (min + remaining x)) + (min + remaining x)) by lia.
  induction (fuel - (min + remaining x)) as [|d IH]; [reflexivity|].
  rewrite <- IH. cbn [Nat.add]. symmetry. apply repeat_fuel_step. lia.
Qed.
End RepeatForward.

Lemma rmatch_forward_sound r : forward (rmatch r) /\ sound (rmatch r).
Proof.
  induction r as [|p|a [Fa Sa] b [Fb Sb]|a [Fa Sa] b [Fb Sb]
                  |greedy min max a [Fa Sa]|i a [Fa Sa]|a [Fa Sa]| | |].
  - split.
    + intros x k k' Hk. apply Hk, reach_refl.
    + intros x k z H. exists x. split; auto using reach_refl.
  - assert (Hadv : forall x c t, rest x = c :: t -> reach x (advance x c t)).
    { intros x c t E. unfold reach, remaining, advance. cbn [rest pos].
      rewrite E. cbn [length]. lia. }
    split.
    + intros x k k' Hk. cbn [rmatch]. destruct (rest x) as [|c t] eqn:E; [reflexivity|].
      destruct (p c); [|reflexivity]. apply Hk, Hadv, E.
    + intros x k z. cbn [rmatch]. destruct (rest x) as [|c t] eqn:E; [discriminate|].
      destruct (p c); [|discriminate]. intros H. eauto.
  - split.
    + intros x k k' Hk. cbn [rmatch]. apply Fa. intros y Hy. apply Fb.
      intros z Hz. apply Hk. eapply reach_trans; eauto.
    + intros x k z H. cbn [rmatch] in H. apply Sa in H as (y & Hy & H).
      apply Sb in H as (y' & Hy' & H). exists y'. split; [|assumption].
      eapply reach_trans; eauto.
  - split.
    + intros x k k' Hk. cbn [rmatch].
      now rewrite (Fa x k k' Hk), (Fb x k k' Hk).
    + intros x k z. cbn [rmatch]. destruct (rmatch a x k) eqn:E.
      * intros [= <-]. now apply Sa.
      * apply Sb.
  - split.
    + intros x k k' Hk. cbn [rmatch]. now apply (repeat_forward (rmatch a) greedy Fa).
    + intros x k z H. cbn [rmatch] in H.
      now apply (repeat_sound (rmatch a) greedy Sa) in H.
  - split.
    + intros x k k' Hk. cbn [rmatch]. apply Fa. intros y Hy.
      apply Hk. now apply reach_capture.
    + intros x k z H. cbn [rmatch] in H. apply Sa in H as (y & Hy & H).
      exists (capture i x y). split; [now apply reach_capture | assumption].
  - split.
    + intros x k k' Hk. cbn [rmatch]. destruct (rmatch a x Some); [reflexivity|].
      apply Hk, reach_refl.
    + intros x k z. cbn [rmatch]. destruct (rmatch a x Some); [discriminate|].
      intros H. exists x. split; auto using reach_refl.
  - split.
    + intros x k k' Hk. cbn [rmatch]. destruct (Nat.eqb (pos x) 0); [|reflexivity].
      apply Hk, reach_refl.
    + intros x k z. cbn [rmatch]. destruct (Nat.eqb (pos x) 0); [|discriminate].
      intros H. exists x. split; auto using reach_refl.
  - split.
    + intros x k k' Hk. cbn [rmatch]. destruct (rest x); [|reflexivity].
      apply Hk, reach_refl.
    + intros x k z. cbn [rmatch]. destruct (rest x); [|discriminate].
      intros H. exists x. split; auto using reach_refl.
  - split.
    + intros x k k' Hk. cbn [rmatch].
      destruct (xorb (word_before x) (word_after x)); [|reflexivity].
      apply Hk, reach_refl.
    + intros x k z. cbn [rmatch].
      destruct (xorb (word_before x) (word_after x)); [|discriminate].
      intros H. exists x. split; auto using reach_refl.
Qed.

(** The fuel of a quantifier is enough: with any larger fuel the answer is
    the same. *)
Lemma quantifier_fuel greedy min max a fuel x k :
  min + remaining x <= fuel ->
  repeat (rmatch a) greedy fuel min max x k
  = rmatch (Rep greedy min max a) x k.
Proof.
  intros Hf. cbn [rmatch].
  destruct (rmatch_forward_sound a) as [Fa Sa].
  apply (repeat_fuel (rmatch a) greedy Fa Sa fuel min max x k Hf).
Qed.

(** A match found from a position lies in the input that follows it. *)
Lemma find_reach r : forall s p pv a b,
  find r p pv s = Some (a, b) ->
  reach a b /\ remaining a <= length s /\ pos a + remaining a = p + length s.
Proof.
  induction s as [|c t IH]; intros p pv a b; cbn [find].
  - destruct (rmatch r _ Some) as [y|] eqn:E; [|discriminate].
    intros [= <- <-]. apply (proj2 (rmatch_forward_sound r)) in E as (y' & Hy & [= ->]).
    split; [assumption|]. unfold remaining. cbn. lia.
  - destruct (rmatch r _ Some) as [y|] eqn:E.
    + intros [= <- <-]. apply (proj2 (rmatch_forward_sound r)) in E as (y' & Hy & [= ->]).
      split; [assumption|]. unfold remaining. cbn. lia.
    + intros H. apply IH in H as (Hr & Hl & Hp). cbn [length]. split; [assumption|]. lia.
Qed.

Lemma matches_from_S r fuel p pv s :
  matches_from (S fuel) r p pv s
  = match find r p pv s with
    | None => []
    | Some (a, b) =>
        (a, b) ::
        (if Nat.eqb (pos b) (pos a) then
           match rest b with
           | [] => []
           | c :: t => matches_from fuel r (S (pos b)) (Some c) t
           end
         else matches_from fuel r (pos b) (prev b) (rest b))
    end.
Proof. reflexivity. Qed.

(** The fuel of the search for all matches is enough. *)
Lemma matches_from_fuel_step r fuel : forall p pv s,
  length s < fuel ->
  matches_from fuel r p pv s = matches_from (S fuel) r p pv s.
Proof.
  induction fuel as [|fuel IH]; intros p pv s Hf; [lia|].
  rewrite (matches_from_S r (S fuel)), (matches_from_S r fuel).
  destruct (find r p pv s) as [[a b]|] eqn:E; [|reflexivity].
  apply find_reach in E as (Hr & Hl & Hp). f_equal.
  destruct (Nat.eqb (pos b) (pos a)) eqn:Epos.
  - destruct (rest b) as [|c t] eqn:Eb; [reflexivity|].
    apply IH. destruct Hr as [Hr _]. unfold remaining in *.
    rewrite Eb in Hr. cbn [length] in Hr. lia.
  - apply IH. apply Nat.eqb_neq in Epos.
    pose proof (reach_same_pos a b Hr). destruct Hr. unfold remaining in *. lia.
Qed.

(** With any fuel above the length of the input, the search gives the
    matches [all_matches] gives. *)
Lemma all_matches_fuel r s fuel :
  length s < fuel -> matches_from fuel r 0 None s = all_matches r s.
Proof.
  intros Hf. unfold all_matches.
  replace fuel with ((fuel - S (length s)) + S (length s)) by lia.
  induction (fuel - S (length s)) as [|d IH]; [reflexivity|].
  rewrite <- IH. cbn [Nat.add]. symmetry. apply matches_from_fuel_step. lia.
Qed.
End Forward.

(** ** The HTTP fetcher *)

Section Fetcher.
Import WebSearch Fixtures.

Variable net : Network.
Variable url : jsstring.

Lemma status_error_not_abort st :
  is_abort_error (ThrowError (status_error st)) = false.
Proof. reflexivity. Qed.

Lemma bad_status_fails_retryably options attempt resp :
  net (request_of url options) attempt = Normal resp ->
  ok resp = false ->
  fails_retryably net url options attempt.
Proof.
  intros Hnet Hok. exists (ThrowError (status_error (status resp))).
  unfold attempt_result. rewrite Hnet, Hok. split; reflexivity.
Qed.

(** One round of the loop on a failure that is not an abort, when
    attempts are left. *)
Lemma attempt_loop_retry options n attempt lastError tr error :
  attempt_result net url options attempt = Throw error ->
  is_abort_error error = false ->
  attempt <> retry_budget options ->
  attempt_loop net url options (S n) attempt lastError tr
  = attempt_loop net url options n (attempt + 1) (Some (as_Error error))
      ((tr ++ [Fetch (request_of url options) attempt])
         ++ [Sleep (1000 * 2 ^ attempt)]).
Proof.
  intros Hres Hab Hne. simpl. rewrite Hres, Hab.
  destruct (Z.eqb_spec attempt (retry_budget options)); [contradiction|].
  reflexivity.
Qed.

(** The last round. *)
Lemma attempt_loop_last options n attempt lastError tr error :
  attempt_result net url options attempt = Throw error ->
  is_abort_error error = false ->
  attempt = retry_budget options ->
  attempt_loop net url options (S n) attempt lastError tr
  = {| outcome := Throw (ThrowError (as_Error error));
       trace := tr ++ [Fetch (request_of url options) attempt] |}.
Proof.
  intros Hres Hab Heq. simpl. rewrite Hres, Hab.
  destruct (Z.eqb_spec attempt (retry_budget options)); [|contradiction].
  reflexivity.
Qed.

(** A round that is aborted ends the loop at once. *)
Lemma attempt_loop_abort options n attempt lastError tr error :
  attempt_result net url options attempt = Throw error ->
  is_abort_error error = true ->
  attempt_loop net url options (S n) attempt lastError tr
  = {| outcome := Throw (ThrowError (as_Error error));
       trace := tr ++ [Fetch (request_of url options) attempt] |}.
Proof.
  intros Hres Hab. simpl. rewrite Hres, Hab. reflexivity.
Qed.

(** With a budget of two retries, a call whose three attempts fail makes
    them all, waits 1000 ms and 2000 ms between them, and throws the error
    of the third. *)
Lemma three_attempts options :
  retry_budget options = 2%Z ->
  always_fails net url options ->
  let req := request_of url options in
  exists last,
    attempt_error net url options 2 = Some last
    /\ makeRequest net url options
       = {| outcome := Throw (ThrowError last);
            trace := [Fetch req 0; Sleep 1000; Fetch req 1; Sleep 2000;
                      Fetch req 2] |}.
Proof.
  intros Hb Hfail req.
  destruct (Hfail 0%Z) as (e0 & H0 & A0).
  destruct (Hfail 1%Z) as (e1 & H1 & A1).
  destruct (Hfail 2%Z) as (e2 & H2 & A2).
  exists (as_Error e2). split.
  - unfold attempt_error. rewrite H2. reflexivity.
  - unfold makeRequest. rewrite Hb. change (Z.to_nat (2 + 1)) with 3.
    rewrite (attempt_loop_retry _ _ _ _ _ _ H0 A0) by (rewrite Hb; lia).
    rewrite (attempt_loop_retry _ _ _ _ _ _ H1 A1) by (rewrite Hb; lia).
    rewrite (attempt_loop_last _ _ _ _ _ _ H2 A2) by (rewrite Hb; lia).
    reflexivity.
Qed.
End Fetcher.

Section FetcherClaims.
Import WebSearch Fixtures.

(** C3. With [retries = 2], a call whose every attempt fails otherwise
    than by an abort makes exactly three attempts, waits 1000 ms before
    the second and 2000 ms before the third, and throws the error of the
    third attempt; when that attempt got a response with a status outside
    200..299, the message of the error thrown ends with that status. *)
Theorem makeRequest_two_retries net url options :
  retries options = Some (Num 2) ->
  always_fails net url options ->
  let req := request_of url options in
  let run := makeRequest net url options in
  attempts_made run = 3
  /\ delays_of (trace run) = [1000; 2000]%Z
  /\ trace run = [Fetch req 0; Sleep 1000; Fetch req 1; Sleep 2000; Fetch req 2]
  /\ (exists last, attempt_error net url options 2 = Some last
                   /\ outcome run = Throw (ThrowError last))
  /\ (forall resp, net req 2%Z = Normal resp -> ok resp = false ->
        exists e, outcome run = Throw (ThrowError e)
                  /\ message e = js "Request failed with status code "
                                   ++ show_Z (status resp)).
Proof.
  intros Hr Hfail req run.
  assert (Hb : retry_budget options = 2%Z) by (unfold retry_budget; now rewrite Hr).
  destruct (three_attempts net url options Hb Hfail) as (last & Hlast & Hrun).
  subst run. rewrite Hrun. cbn [outcome trace].
  repeat split; try reflexivity.
  - exists last. split; [exact Hlast | reflexivity].
  - intros resp Hresp Hok. exists last. split; [reflexivity|].
    unfold attempt_error, attempt_result in Hlast.
    fold req in Hlast. rewrite Hresp, Hok in Hlast.
    injection Hlast as <-. reflexivity.
Qed.

Lemma makeRequest_two_retries_witness :
  retries (with_retries (Some (Num 2))) = Some (Num 2)
  /\ always_fails unavailable (js "https://example.com/") (with_retries (Some (Num 2)))
  /\ attempts_made
       (makeRequest unavailable (js "https://example.com/")
          (with_retries (Some (Num 2)))) = 3.
Proof.
  assert (Hf : always_fails unavailable (js "https://example.com/")
                 (with_retries (Some (Num 2)))).
  { intros attempt. eexists. split; reflexivity. }
  split; [reflexivity|]. split; [exact Hf|].
  exact (proj1 (makeRequest_two_retries unavailable (js "https://example.com/")
                  (with_retries (Some (Num 2))) eq_refl Hf)).
Defined.

(** C10. When [retries] is 0, NaN or left out, the budget is 2 retries:
    a call whose every attempt fails otherwise than by an abort makes three
    attempts; no options give a budget of 0. *)
Theorem makeRequest_falsy_retries net url options :
  retries options = None \/ retries options = Some (Num 0)
    \/ retries options = Some NaN ->
  always_fails net url options ->
  retry_budget options = 2%Z
  /\ attempts_made (makeRequest net url options) = 3
  /\ (forall options', retry_budget options' <> 0%Z).
Proof.
  intros Hr Hfail.
  assert (Hb : retry_budget options = 2%Z).
  { unfold retry_budget. destruct Hr as [-> | [-> | ->]]; reflexivity. }
  destruct (three_attempts net url options Hb Hfail) as (last & _ & Hrun).
  split; [exact Hb|]. split.
  - rewrite Hrun. reflexivity.
  - intros o. unfold retry_budget.
    destruct (retries o) as [[z|]|]; try discriminate.
    destruct (Z.eqb_spec z 0); [discriminate | assumption].
Qed.

Lemma makeRequest_falsy_retries_witness :
  (retries (with_retries (Some (Num 0))) = None
   \/ retries (with_retries (Some (Num 0))) = Some (Num 0)
   \/ retries (with_retries (Some (Num 0))) = Some NaN)
  /\ always_fails unavailable (js "https://example.com/") (with_retries (Some (Num 0)))
  /\ attempts_made
       (makeRequest unavailable (js "https://example.com/")
          (with_retries (Some (Num 0)))) = 3.
Proof.
  assert (Hf : always_fails unavailable (js "https://example.com/")
                 (with_retries (Some (Num 0)))).
  { intros attempt. eexists. split; reflexivity. }
  split; [right; left; reflexivity|]. split; [exact Hf|].
  exact (proj1 (proj2 (makeRequest_falsy_retries unavailable
                         (js "https://example.com/")
                         (with_retries (Some (Num 0)))
                         (or_intror (or_introl eq_refl)) Hf))).
Defined.

(** An attempt that is rejected with an [AbortError] is the last one. *)
Lemma makeRequest_abort_not_retried net url options msg :
  (0 <= retry_budget options)%Z ->
  net (request_of url options) 0%Z = Throw (ThrowError (abort_reason msg)) ->
  makeRequest net url options
  = {| outcome := Throw (ThrowError (abort_reason msg));
       trace := [Fetch (request_of url options) 0] |}.
Proof.
  intros Hb Hnet. unfold makeRequest.
  destruct (Z.to_nat (retry_budget options + 1)) eqn:E; [lia|].
  rewrite attempt_loop_abort with (error := ThrowError (abort_reason msg)).
  - reflexivity.
  - unfold attempt_result. now rewrite Hnet.
  - reflexivity.
Qed.

(** The loop only adds to the trace it starts with. *)
Lemma attempt_loop_extends net url options n :
  forall attempt lastError tr,
    exists more,
      trace (attempt_loop net url options n attempt lastError tr) = tr ++ more.
Proof.
  induction n as [|n IH]; intros attempt lastError tr; cbn [attempt_loop].
  - exists []. rewrite app_nil_r. reflexivity.
  - destruct (attempt_result net url options attempt) as [resp|error];
      cbn [trace]; [eauto|].
    destruct (is_abort_error error); cbn [trace]; [eauto|].
    destruct (attempt =? retry_budget options)%Z; cbn [trace]; [eauto|].
    destruct (IH (attempt + 1)%Z (Some (as_Error error))
                ((tr ++ [Fetch (request_of url options) attempt])
                   ++ [Sleep (1000 * 2 ^ attempt)])) as [more ->].
    rewrite <- !app_assoc. eauto.
Qed.

(** A round of the loop begins with a [fetch]. *)
Lemma attempt_loop_fetches net url options n attempt lastError tr :
  exists more,
    trace (attempt_loop net url options (S n) attempt lastError tr)
    = (tr ++ [Fetch (request_of url options) attempt]) ++ more.
Proof.
  cbn [attempt_loop].
  destruct (attempt_result net url options attempt) as [resp|error];
    cbn [trace]; [exists []; now rewrite app_nil_r|].
  destruct (is_abort_error error); cbn [trace];
    [exists []; now rewrite app_nil_r|].
  destruct (attempt =? retry_budget options)%Z; cbn [trace];
    [exists []; now rewrite app_nil_r|].
  destruct (attempt_loop_extends net url options n (attempt + 1)%Z
              (Some (as_Error error))
              ((tr ++ [Fetch (request_of url options) attempt])
                 ++ [Sleep (1000 * 2 ^ attempt)])) as [more ->].
  exists ([Sleep (1000 * 2 ^ attempt)%Z] ++ more). now rewrite <- !app_assoc.
Qed.

(** An attempt that runs into the timeout of its signal is followed by
    another one, as long as the budget allows a retry. *)
Lemma makeRequest_timeout_retried net url options msg :
  (1 <= retry_budget options)%Z ->
  net (request_of url options) 0%Z = Throw (ThrowError (timeout_reason msg)) ->
  In (Fetch (request_of url options) 1)
     (trace (makeRequest net url options)).
Proof.
  intros Hb Hnet. unfold makeRequest.
  destruct (Z.to_nat (retry_budget options + 1)) as [|[|n]] eqn:E; try lia.
  rewrite attempt_loop_retry with (error := ThrowError (timeout_reason msg));
    [| unfold attempt_result; now rewrite Hnet | reflexivity | lia].
  destruct (attempt_loop_fetches net url options n (0 + 1)%Z
              (Some (as_Error (ThrowError (timeout_reason msg))))
              (([] ++ [Fetch (request_of url options) 0])
                 ++ [Sleep (1000 * 2 ^ 0)])) as [more ->].
  apply in_or_app. left. apply in_or_app. right. left. reflexivity.
Qed.

(** C2, on the program: with a timeout of 10 s and [retries = 2], a call
    whose every [fetch] runs into the timeout makes three attempts, and
    waits 1000 ms and 2000 ms between them, before it throws the timeout
    error; the first timeout does not end it. *)
Theorem makeRequest_retries_timeouts :
  let options := with_retries (Some (Num 2)) in
  let url := js "https://example.com/" in
  let run := makeRequest timing_out url options in
  signal (request_of url options) = Some 10000%N
  /\ attempts_made run = 3
  /\ delays_of (trace run) = [1000; 2000]%Z
  /\ outcome run
     = Throw (ThrowError (timeout_reason (js "The operation timed out."))).
Proof. repeat split. Qed.

End FetcherClaims.

(** ** Regular expressions with one character class *)

Section OneClass.
Import Regex.
Variable q : N -> bool.

Lemma find_start r : forall s n pv a b,
  find r n pv s = Some (a, b) -> n <= pos a.
Proof.
  induction s as [|c t IH]; intros n pv a b; cbn [find].
  - destruct (rmatch r _ Some); [|discriminate].
    intros [= <- _]. reflexivity.
  - destruct (rmatch r _ Some).
    + intros [= <- _]. reflexivity.
    + intros H. apply IH in H. lia.
Qed.

Lemma matches_from_hit f n pv c t :
  q c = true ->
  matches_from (S f) (Chr q) n pv (c :: t)
  = (let x := {| pos := n; prev := pv; rest := c :: t; caps := [] |} in
     (x, advance x c t))
    :: matches_from f (Chr q) (S n) (Some c) t.
Proof.
  intros Hq. cbn [matches_from find rmatch rest]. rewrite Hq.
  cbn [advance pos prev rest]. rewrite (proj2 (Nat.eqb_neq (S n) n)) by lia.
  reflexivity.
Qed.

Lemma matches_from_miss f n pv c t :
  q c = false ->
  matches_from (S f) (Chr q) n pv (c :: t)
  = matches_from (S f) (Chr q) (S n) (Some c) t.
Proof.
  intros Hq. cbn [matches_from find rmatch rest]. rewrite Hq. reflexivity.
Qed.

Lemma matches_from_start r f : forall n pv s a b ms,
  matches_from f r n pv s = (a, b) :: ms -> n <= pos a.
Proof.
  destruct f as [|f]; intros n pv s a b ms; cbn [matches_from]; [discriminate|].
  destruct (find r n pv s) as [[a' b']|] eqn:E; [|discriminate].
  intros [= <- _ _]. eapply find_start; eauto.
Qed.

(** Replacing every character of a class by nothing leaves the
    characters outside the class, in their order. *)
Lemma splice_one_class : forall s pre pv f,
  length s < f ->
  splice (pre ++ s) (length pre) (matches_from f (Chr q) (length pre) pv s) []
  = List.filter (fun c => negb (q c)) s.
Proof.
  induction s as [|c t IH]; intros pre pv f Hf.
  - destruct f; [lia|]. cbn. rewrite app_nil_r. apply drop_all.
  - destruct f as [|f]; [simpl in Hf; lia|]. simpl in Hf.
    cbn [List.filter]. destruct (q c) eqn:Hq; cbn [negb].
    + rewrite matches_from_hit by assumption. cbn [splice fst snd pos advance].
      rewrite Nat.sub_diag. cbn [take app].
      replace (pre ++ c :: t) with ((pre ++ [c]) ++ t) by now rewrite <- app_assoc.
      replace (S (length pre)) with (length (pre ++ [c]))
        by (rewrite length_app; simpl; lia).
      apply IH. lia.
    + rewrite matches_from_miss by assumption.
      specialize (IH (pre ++ [c]) (Some c) (S f) ltac:(lia)).
      replace (length (pre ++ [c])) with (S (length pre)) in IH
        by (rewrite length_app; simpl; lia).
      rewrite <- app_assoc in IH. cbn [app] in IH. rewrite <- IH.
      destruct (matches_from (S f) (Chr q) (S (length pre)) (Some c) t)
        as [|[a b] ms] eqn:E; cbn [splice fst snd].
      * rewrite drop_app_length.
        change (pre ++ c :: t) with (pre ++ [c] ++ t).
        rewrite app_assoc.
        replace (S (length pre)) with (length (pre ++ [c]))
          by (rewrite length_app; simpl; lia).
        now rewrite drop_app_length.
      * apply matches_from_start in E.
        rewrite drop_app_length.
        replace (pos a - length pre) with (S (pos a - S (length pre))) by lia.
        cbn [take]. rewrite <- app_comm_cons. f_equal. f_equal.
        change (pre ++ c :: t) with (pre ++ [c] ++ t).
        rewrite app_assoc.
        replace (S (length pre)) with (length (pre ++ [c]))
          by (rewrite length_app; simpl; lia).
        now rewrite drop_app_length.
Qed.

Lemma replace_all_one_class s :
  replace_all (Chr q) [] s = List.filter (fun c => negb (q c)) s.
Proof.
  unfold replace_all, all_matches.
  apply (splice_one_class s [] None (S (length s))). lia.
Qed.
End OneClass.

(** ** Phone numbers *)

Section PhoneNumbers.
Import Regex Message Fixtures.

(** [cleaned] keeps the digits and every [+], wherever it stands. *)
Lemma cleaned_filter phone :
  cleaned phone = List.filter phone_char phone.
Proof.
  unfold cleaned, re_not_phone. rewrite replace_all_one_class.
  apply List.filter_ext. intros c. unfold phone_char.
  now rewrite negb_involutive.
Qed.

Lemma ten_characters (ds : jsstring) :
  length ds = 10 ->
  exists a b c d e f g h i j, ds = [a; b; c; d; e; f; g; h; i; j].
Proof.
  intros H. do 10 (destruct ds as [|? ds]; [discriminate|]).
  destruct ds; [|discriminate]. repeat eexists.
Qed.

Lemma digit_not_plus c : is_digit c = true -> N.eqb 43 c = false.
Proof.
  unfold is_digit. intros H. apply andb_true_iff in H as [H _].
  apply N.leb_le in H. apply N.eqb_neq. lia.
Qed.

Ltac ten_digits ds HL HD :=
  let a := fresh "a" in
  destruct (ten_characters ds HL) as (a & ? & ? & ? & ? & ? & ? & ? & ? & ? & ->);
  unfold digits in HD;
  repeat match goal with
         | H : Forall _ (_ :: _) |- _ => inversion H; clear H; subst
         end;
  cbv beta in *;
  pose proof (digit_not_plus a ltac:(assumption)).

Ltac run_regex :=
  unfold lit;
  repeat match goal with
         | |- context [js ?s] =>
             let v := eval vm_compute in (js s) in change (js s) with v
         end;
  cbn -[is_digit N.eqb];
  repeat match goal with
         | H : is_digit _ = true |- _ => rewrite H; cbn -[is_digit N.eqb]
         | H : N.eqb 43 _ = false |- _ => rewrite H; cbn -[is_digit N.eqb]
         end.

Lemma test_plus_one_ten ds :
  length ds = 10 -> digits ds ->
  test re_plus_one_ten (js "+1" ++ ds) = true.
Proof.
  intros HL HD. ten_digits ds HL HD.
  unfold test, exec, re_plus_one_ten. run_regex. reflexivity.
Qed.

Lemma test_one_ten ds :
  length ds = 10 -> digits ds ->
  test re_plus_one_ten (js "1" ++ ds) = false
  /\ test re_one_ten (js "1" ++ ds) = true.
Proof.
  intros HL HD. ten_digits ds HL HD.
  unfold test, exec, re_plus_one_ten, re_one_ten.
  split; run_regex; reflexivity.
Qed.

Lemma test_ten ds :
  length ds = 10 -> digits ds ->
  test re_plus_one_ten ds = false
  /\ test re_one_ten ds = false
  /\ test re_ten ds = true.
Proof.
  intros HL HD. ten_digits ds HL HD.
  unfold test, exec, re_plus_one_ten, re_one_ten, re_ten.
  repeat split; run_regex; try reflexivity.
  destruct (N.eqb 49 a); run_regex; reflexivity.
Qed.

(** [normalizePhoneNumber] returns exactly one string. *)
Lemma normalizePhoneNumber_singleton phone :
  exists s, normalizePhoneNumber phone = [s].
Proof.
  unfold normalizePhoneNumber.
  repeat match goal with |- context [if ?b then _ else _] => destruct b end;
    eauto.
Qed.

(** C7, as the program has it. [normalizePhoneNumber] returns an array of
    one string for every input. With [cleaned] the input without its
    characters other than digits and [+] (every [+], not only a leading
    one): when [cleaned] is [+1] and ten digits the result is [cleaned];
    when it is [1] and ten digits the result is [+] before it; when it is
    ten digits the result is [+1] before it. The three inputs of the
    specification all give [+15551234567]. *)
Theorem normalizePhoneNumber_formats phone :
  cleaned phone = List.filter phone_char phone
  /\ (exists s, normalizePhoneNumber phone = [s])
  /\ (forall ds, length ds = 10 -> digits ds ->
        cleaned phone = js "+1" ++ ds ->
        normalizePhoneNumber phone = [cleaned phone])
  /\ (forall ds, length ds = 10 -> digits ds ->
        cleaned phone = js "1" ++ ds ->
        normalizePhoneNumber phone = [js "+" ++ cleaned phone])
  /\ (forall ds, length ds = 10 -> digits ds ->
        cleaned phone = ds ->
        normalizePhoneNumber phone = [js "+1" ++ cleaned phone])
  /\ normalizePhoneNumber (js "+1 (555) 123-4567") = [js "+15551234567"]
  /\ normalizePhoneNumber (js "5551234567") = [js "+15551234567"]
  /\ normalizePhoneNumber (js "155-5123-4567") = [js "+15551234567"].
Proof.
  split; [apply cleaned_filter|].
  split; [apply normalizePhoneNumber_singleton|].
  split; [|split; [|split]].
  - intros ds HL HD Hc. unfold normalizePhoneNumber. rewrite Hc.
    now rewrite (test_plus_one_ten ds HL HD).
  - intros ds HL HD Hc. unfold normalizePhoneNumber. rewrite Hc.
    destruct (test_one_ten ds HL HD) as [-> ->]. reflexivity.
  - intros ds HL HD Hc. unfold normalizePhoneNumber. rewrite Hc.
    destruct (test_ten ds HL HD) as (-> & -> & ->). reflexivity.
  - repeat split; vm_compute; reflexivity.
Qed.

Lemma normalizePhoneNumber_formats_witness :
  length (js "5551234567") = 10
  /\ digits (js "5551234567")
  /\ cleaned (js "(555) 123-4567") = js "5551234567"
  /\ normalizePhoneNumber (js "(555) 123-4567") = [js "+15551234567"].
Proof.
  assert (HD : digits (js "5551234567")).
  { unfold digits. repeat constructor. }
  split; [reflexivity|]. split; [exact HD|]. split; [reflexivity|].
  exact (proj1 (proj2 (proj2 (proj2 (proj2
           (normalizePhoneNumber_formats (js "(555) 123-4567"))))))
           (js "5551234567") eq_refl HD eq_refl).
Defined.

(** C7 as it is worded fails: with only a leading [+] kept, 555+1234567
    would clean to ten digits and give [+15551234567]; the program keeps
    the inner [+] and returns [+1555+1234567]. *)
Lemma normalizePhoneNumber_inner_plus :
  ~ (forall phone,
       length (spec_cleaned phone) = 10 -> digits (spec_cleaned phone) ->
       normalizePhoneNumber phone = [js "+1" ++ spec_cleaned phone]).
Proof.
  intros H. specialize (H (js "555+1234567") eq_refl).
  assert (HD : digits (spec_cleaned (js "555+1234567"))).
  { unfold digits. vm_compute. repeat constructor. }
  specialize (H HD). vm_compute in H. discriminate H.
Qed.
End PhoneNumbers.

(** ** Attributed bodies *)

Section AttributedBody.
Import Regex Message Fixtures.

Lemma first_group_exec pattern content :
  exec pattern content = None -> first_group pattern content = None.
Proof. unfold first_group. now intros ->. Qed.














End AttributedBody.

(** ** Rows of the message store *)

Section Rows.
Import Regex Message Fixtures.

Variable attachment_rows : Z -> Completion (list (option jsstring)).
Variable toISOString : option jsstring -> Completion jsstring.

(** In the answers of the queries a null content comes with the content
    type 2. *)
Lemma null_content_type m :
  row_content (select m) = None -> content_type (select m) = 2%Z.
Proof.
  unfold select. cbn [row_content content_type].
  destruct (has_text m) eqn:Ht.
  - unfold has_text in Ht. destruct (stored_text m); discriminate.
  - destruct (attributedBody m); [discriminate | reflexivity].
Qed.

(** A row that is not kept leaves no trace in the answer. *)
Lemma processedMessages_dropped before row after :
  kept row = false ->
  processedMessages attachment_rows toISOString (before ++ row :: after)
  = processedMessages attachment_rows toISOString (before ++ after).
Proof.
  intros Hk. unfold processedMessages.
  rewrite !filter_app, filter_cons_False by congruence. reflexivity.
Qed.

(** The message made of a row without content. *)
Lemma format_null_row m iso :
  row_content (select m) = None ->
  toISOString (stored_date m) = Normal iso ->
  format attachment_rows toISOString (select m)
  = Normal (null_content_message m
              (if negb (stored_cache_has_attachments m =? 0)%Z
               then getAttachmentPaths attachment_rows (ROWID m) else [])
              iso).
Proof.
  intros Hc Hd. pose proof (null_content_type m Hc) as Ht.
  unfold format. rewrite Hc, Ht. cbn [Z.eqb Pos.eqb].
  cbn [row_date select subject cache_has_attachments message_id row_sender
       row_is_from_me].
  rewrite Hd. unfold null_content_message.
  set (names := if negb (stored_cache_has_attachments m =? 0)%Z
                then getAttachmentPaths attachment_rows (ROWID m) else []).
  assert (Hu : exec re_text_url [] = None) by (vm_compute; reflexivity).
  rewrite Hu. cbn [truthy_str]. f_equal.
  assert (Hn : (if Nat.ltb 0 (length names) then Some names else None)
               = match names with [] => None | _ :: _ => Some names end)
    by (destruct names; reflexivity).
  assert (Hm : (if Nat.ltb 0 (length names)
                then [10%N] ++ js "[Attachments: " ++ show_nat (length names)
                       ++ js "]"
                else [])
               = match names with
                 | [] => []
                 | _ :: _ => attachments_marker (length names)
                 end)
    by (destruct names; reflexivity).
  rewrite Hn, Hm, app_nil_r. f_equal. f_equal.
  destruct (stored_subject m) as [[|c s]|]; cbn [truthy_str]; try reflexivity.
  rewrite !app_nil_r. reflexivity.
Qed.

Lemma mapM_app {A B} (f : A -> Completion B) l1 l2 a b :
  mapM f l1 = Normal a -> mapM f l2 = Normal b ->
  mapM f (l1 ++ l2) = Normal (a ++ b).
Proof.
  revert a. induction l1 as [|x l1 IH]; intros a H1 H2; cbn [mapM app] in *.
  - injection H1 as <-. exact H2.
  - destruct (f x) as [y|]; [|discriminate].
    destruct (mapM f l1) as [ys|]; [|discriminate].
    injection H1 as <-. now rewrite (IH ys eq_refl H2).
Qed.

Lemma processedMessages_app l1 l2 a b :
  processedMessages attachment_rows toISOString (map select l1) = Normal a ->
  processedMessages attachment_rows toISOString (map select l2) = Normal b ->
  processedMessages attachment_rows toISOString (map select (l1 ++ l2))
  = Normal (a ++ b).
Proof.
  unfold processedMessages. intros H1 H2. rewrite map_app, filter_app.
  now apply mapM_app.
Qed.

(** With valid dates every message kept is formatted. *)
Lemma processedMessages_valid l :
  valid_dates toISOString l ->
  exists msgs,
    processedMessages attachment_rows toISOString (map select l) = Normal msgs.
Proof.
  unfold processedMessages.
  induction 1 as [|m l Hm _ [msgs IH]]; [exists []; reflexivity|].
  cbn [map]. destruct (kept (select m)) eqn:Hk.
  - rewrite filter_cons_True by assumption. cbn [mapM].
    destruct (Hm eq_refl) as [iso Hd].
    unfold format at 1. cbv zeta. cbn [row_date select]. rewrite Hd.
    fold select. rewrite IH. eauto.
  - rewrite filter_cons_False by congruence. eauto.
Qed.

(** C8, as the program has it. A stored message whose content column is
    null is left out of the answer when its attachment flag is 0, whatever
    the other messages selected. When the flag is 1 and the dates of the
    messages kept are valid, it is in the answer, between the messages of
    those selected before it and of those selected after it: its content
    is its subject line when it has a subject and the placeholder [[No text
    content]] otherwise, followed by the marker [[Attachments: n]], with
    [attachments] holding the file names, when the attachment query
    resolves [n > 0] file names; when it resolves none, there is no marker
    and [attachments] is left out. *)
Theorem null_content_rows (m : StoredMessage) :
  row_content (select m) = None ->
  (stored_cache_has_attachments m = 0%Z ->
     kept (select m) = false
     /\ forall hasAccess before after,
          readMessages attachment_rows toISOString hasAccess (before ++ m :: after)
          = readMessages attachment_rows toISOString hasAccess (before ++ after)
          /\ getUnreadMessages attachment_rows toISOString hasAccess
               (before ++ m :: after)
             = getUnreadMessages attachment_rows toISOString hasAccess
                 (before ++ after))
  /\ (stored_cache_has_attachments m = 1%Z ->
      kept (select m) = true
      /\ forall before after iso,
           valid_dates toISOString (before ++ after) ->
           toISOString (stored_date m) = Normal iso ->
           let msg := null_content_message m
                        (getAttachmentPaths attachment_rows (ROWID m)) iso in
           readMessages attachment_rows toISOString true (before ++ m :: after)
           = readMessages attachment_rows toISOString true before
             ++ msg :: readMessages attachment_rows toISOString true after
           /\ getUnreadMessages attachment_rows toISOString true
                (before ++ m :: after)
              = getUnreadMessages attachment_rows toISOString true before
                ++ msg :: getUnreadMessages attachment_rows toISOString true
                            after).
Proof.
  intros Hc. split.
  - intros Hflag.
    assert (Hk : kept (select m) = false).
    { unfold kept. rewrite Hc. cbn [select cache_has_attachments].
      now rewrite Hflag. }
    split; [exact Hk|]. intros hasAccess before after.
    unfold readMessages, getUnreadMessages.
    rewrite !map_app. cbn [map].
    rewrite processedMessages_dropped by exact Hk. split; reflexivity.
  - intros Hflag.
    assert (Hk : kept (select m) = true).
    { unfold kept. cbn [select cache_has_attachments]. rewrite Hflag.
      apply orb_true_r. }
    split; [exact Hk|]. intros before after iso Hvalid Hd msg.
    apply Forall_app in Hvalid as [Hb Ha].
    destruct (processedMessages_valid before Hb) as [mb Hmb].
    destruct (processedMessages_valid after Ha) as [ma Hma].
    assert (Hm : processedMessages attachment_rows toISOString (map select [m])
                 = Normal [msg]).
    { unfold processedMessages. cbn [map].
      rewrite filter_cons_True by assumption. rewrite filter_nil. cbn [mapM].
      rewrite (format_null_row m iso Hc Hd), Hflag. reflexivity. }
    assert (Hall : processedMessages attachment_rows toISOString
                     (map select (before ++ m :: after))
                   = Normal (mb ++ msg :: ma)).
    { change (m :: after) with ([m] ++ after).
      apply processedMessages_app; [exact Hmb|].
      now apply (processedMessages_app [m] after [msg] ma). }
    unfold readMessages, getUnreadMessages. cbn [negb].
    rewrite Hall, Hmb, Hma. split; reflexivity.
Qed.
End Rows.

Section RowsExamples.
Import Regex Message Fixtures MoreMessages.

Lemma null_content_rows_witness :
  row_content (select (bare_message 1 None)) = None
  /\ exists msg,
       readMessages two_files fixed_iso true
         [bare_message 0 None; bare_message 1 None;
          text_message "hello" "2024-05-01 10:02:00"]
       = msg :: readMessages two_files fixed_iso true
                  [text_message "hello" "2024-05-01 10:02:00"]
       /\ content msg = no_text_content ++ attachments_marker 2
       /\ attachments msg = Some [js "~/a.jpg"; js "~/b.png"].
Proof.
  split; [reflexivity|].
  assert (Hv : valid_dates fixed_iso
                 ([bare_message 0 None]
                  ++ [text_message "hello" "2024-05-01 10:02:00"])).
  { apply Forall_forall. intros m _ _. eexists. reflexivity. }
  destruct (proj2 (proj2 (null_content_rows two_files fixed_iso
                            (bare_message 1 None) eq_refl)
                     eq_refl)
              [bare_message 0 None]
              [text_message "hello" "2024-05-01 10:02:00"]
              (js "2024-05-01T08:00:00.000Z") Hv eq_refl)
    as (Hr & _).
  eexists. split; [exact Hr|]. split; reflexivity.
Defined.

(** C8 as it is worded fails in two ways. When the attachment query
    resolves no file name, the message of a row without subject has the
    placeholder for content, without the marker, and no [attachments]. And
    when the row has a subject, its content begins with the subject line,
    not with the placeholder, even when file names are resolved. *)
Lemma attachment_marker_missing :
  ~ (forall attachment_rows toISOString m,
       row_content (select m) = None ->
       stored_cache_has_attachments m = 1%Z ->
       has_subject (select m) = false ->
       exists msg n,
         readMessages attachment_rows toISOString true [m] = [msg]
         /\ content msg = no_text_content ++ attachments_marker n
         /\ attachments msg
            = Some (getAttachmentPaths attachment_rows (ROWID m)))
  /\ ~ (forall attachment_rows toISOString m,
          row_content (select m) = None ->
          stored_cache_has_attachments m = 1%Z ->
          getAttachmentPaths attachment_rows (ROWID m) <> [] ->
          exists msg n,
            readMessages attachment_rows toISOString true [m] = [msg]
            /\ content msg = no_text_content ++ attachments_marker n
            /\ attachments msg
               = Some (getAttachmentPaths attachment_rows (ROWID m))).
Proof.
  split.
  - intros H.
    destruct (H no_table fixed_iso (bare_message 1 None) eq_refl eq_refl eq_refl)
      as (msg & n & Hr & Hcontent & _).
    vm_compute in Hr. injection Hr as <-.
    apply (f_equal (@length N)) in Hcontent.
    unfold attachments_marker in Hcontent. rewrite !length_app in Hcontent.
    cbn in Hcontent. lia.
  - intros H.
    destruct (H two_files fixed_iso (bare_message 1 (Some (js "Hello")))
                eq_refl eq_refl ltac:(vm_compute; discriminate))
      as (msg & n & Hr & Hcontent & _).
    vm_compute in Hr. injection Hr as <-.
    apply (f_equal (hd 0%N)) in Hcontent. vm_compute in Hcontent.
    discriminate Hcontent.
Qed.
End RowsExamples.


(** ** Search results *)

Section SearchResults.
Import Regex WebSearch Fixtures More.

Variable URL_hostname : jsstring -> Completion jsstring.

Lemma push_block_length results block :
  length (push_block URL_hostname results block) <= S (length results).
Proof.
  unfold push_block.
  destruct (parse_block URL_hostname block) as [[r|]|t];
    rewrite ?length_app; simpl; lia.
Qed.

(** Each round of the loop pushes at most one result. *)
Lemma fold_push_block_length blocks : forall results,
  length (fold_left (push_block URL_hostname) blocks results)
  <= length results + length blocks.
Proof.
  induction blocks as [|b blocks IH]; intros results; cbn [fold_left length].
  - lia.
  - specialize (IH (push_block URL_hostname results b)).
    pose proof (push_block_length results b). lia.
Qed.

Lemma extractDDGResults_length html :
  length (extractDDGResults URL_hostname html) <= 10.
Proof.
  unfold extractDDGResults.
  destruct (exec re_results html) as [resultsMatch|]; [|simpl; lia].
  cbv zeta.
  etransitivity; [apply fold_push_block_length|].
  rewrite length_take. cbn [length]. lia.
Qed.

(** The loop pushes the contributions of the blocks, in their order. *)
Lemma fold_push_block blocks : forall results,
  fold_left (push_block URL_hostname) blocks results
  = results ++ omap (block_result URL_hostname) blocks.
Proof.
  induction blocks as [|b blocks IH]; intros results; cbn [fold_left omap].
  - now rewrite app_nil_r.
  - rewrite IH. unfold push_block, block_result. cbn [omap list_omap].
    destruct (parse_block URL_hostname b) as [[r|]|e]; cbn;
      rewrite <- ?app_assoc; reflexivity.
Qed.

(** The results are the contributions of the first ten blocks. *)
Lemma extractDDGResults_contributions html :
  extractDDGResults URL_hostname html
  = omap (block_result URL_hostname) (take 10 (result_blocks html)).
Proof.
  unfold extractDDGResults, result_blocks.
  destruct (exec re_results html) as [resultsMatch|]; [|reflexivity].
  cbv zeta. rewrite fold_push_block. cbn [app]. f_equal.
  destruct (Nat.le_ge_cases 10 (length (match_all re_block (cap resultsMatch 1))))
    as [Hl|Hl].
  - now rewrite Nat.min_l.
  - rewrite Nat.min_r by assumption. now rewrite !take_ge by lia.
Qed.

(** C6, as the program has it. The primary extractor returns at most 10
    results: the contributions of the first ten result blocks of the page,
    in the order of the page, the blocks after the tenth being left out. A
    block in which the title pattern or the address pattern does not match
    contributes nothing. A block in which both match contributes one
    result when its address can be percent-decoded and, if the block has
    no display URL, parsed as a URL: its display URL is then the host name
    of the address, and its snippet is empty when the block has none. When
    the address cannot be decoded, or cannot be parsed in a block without
    display URL, the block contributes nothing either. *)
Theorem extractDDGResults_blocks html :
  length (extractDDGResults URL_hostname html) <= 10
  /\ extractDDGResults URL_hostname html
     = omap (block_result URL_hostname) (take 10 (result_blocks html))
  /\ (forall block,
        exec re_title block = None \/ exec re_url block = None ->
        block_result URL_hostname block = None)
  /\ (forall block titleMatch urlMatch address,
        exec re_title block = Some titleMatch ->
        exec re_url block = Some urlMatch ->
        decodeURIComponent (cap urlMatch 1) = Normal address ->
        (forall host,
           exec re_displayUrl block = None ->
           URL_hostname address = Normal host ->
           block_result URL_hostname block
           = Some {| title := cleanHTML (cap titleMatch 1);
                     url := address;
                     displayUrl := host;
                     snippet := match exec re_snippet block with
                                | Some sn => cleanHTML (cap sn 1)
                                | None => []
                                end |})
        /\ (forall displayUrlMatch,
              exec re_displayUrl block = Some displayUrlMatch ->
              exec re_snippet block = None ->
              block_result URL_hostname block
              = Some {| title := cleanHTML (cap titleMatch 1);
                        url := address;
                        displayUrl := cleanHTML (cap displayUrlMatch 1);
                        snippet := [] |}))
  /\ (forall block titleMatch urlMatch,
        exec re_title block = Some titleMatch ->
        exec re_url block = Some urlMatch ->
        (exists e, decodeURIComponent (cap urlMatch 1) = Throw e)
        \/ (exec re_displayUrl block = None
            /\ exists address e,
                 decodeURIComponent (cap urlMatch 1) = Normal address
                 /\ URL_hostname address = Throw e) ->
        block_result URL_hostname block = None).
Proof.
  split; [apply extractDDGResults_length|].
  split; [apply extractDDGResults_contributions|]. split; [|split].
  - intros block [H|H]; unfold block_result, parse_block; rewrite H.
    + reflexivity.
    + destruct (exec re_title block); reflexivity.
  - intros block titleMatch urlMatch address Ht Hu Hd. split.
    + intros host Hno Hh. unfold block_result, parse_block.
      rewrite Ht, Hu, Hno, Hd. cbn [bind]. rewrite Hh. reflexivity.
    + intros displayUrlMatch Hdm Hsn. unfold block_result, parse_block.
      rewrite Ht, Hu, Hdm, Hsn, Hd. reflexivity.
  - intros block titleMatch urlMatch Ht Hu
      [[e He] | (Hno & address & e & Hd & Hh)];
      unfold block_result, parse_block; rewrite Ht, Hu.
    + rewrite He. reflexivity.
    + rewrite Hno, Hd. cbn [bind]. rewrite Hh. reflexivity.
Qed.
End SearchResults.

Section SearchResultsExamples.
Import Regex WebSearch Fixtures More.

Lemma extractDDGResults_blocks_witness :
  block_result plain_hostname undecodable_block = None
  /\ (exists r,
        block_result plain_hostname
          (js (result_block "https%3A%2F%2Fb.example%2F2" "")) = Some r
        /\ url r = js "https://b.example/2"
        /\ displayUrl r = js "b.example"
        /\ snippet r = [])
  /\ map url (extractDDGResults plain_hostname three_results_page)
     = [js "https://a.example/1"; js "https://b.example/2";
        js "https://c.example/3"].
Proof.
  split; [|split].
  - destruct (exec re_title undecodable_block) as [titleMatch|] eqn:Ht;
      [|vm_compute in Ht; discriminate].
    destruct (exec re_url undecodable_block) as [urlMatch|] eqn:Hu;
      [|vm_compute in Hu; discriminate].
    apply (proj2 (proj2 (proj2 (proj2 (extractDDGResults_blocks plain_hostname []))))
             undecodable_block titleMatch urlMatch Ht Hu).
    left. exists (ThrowError URIError).
    vm_compute in Hu. injection Hu as <-. reflexivity.
  - set (b := js (result_block "https%3A%2F%2Fb.example%2F2" "")).
    destruct (exec re_title b) as [titleMatch|] eqn:Ht;
      [|vm_compute in Ht; discriminate].
    destruct (exec re_url b) as [urlMatch|] eqn:Hu;
      [|vm_compute in Hu; discriminate].
    assert (Hd : decodeURIComponent (cap urlMatch 1)
                 = Normal (js "https://b.example/2")).
    { pose proof Hu as Hv. vm_compute in Hv. injection Hv as <-.
      vm_compute. reflexivity. }
    assert (Hno : exec re_displayUrl b = None) by (vm_compute; reflexivity).
    assert (Hsn : exec re_snippet b = None) by (vm_compute; reflexivity).
    assert (Hh : plain_hostname (js "https://b.example/2")
                 = Normal (js "b.example")) by (vm_compute; reflexivity).
    pose proof (proj1 (proj1 (proj2 (proj2 (proj2
                  (extractDDGResults_blocks plain_hostname []))))
                  b titleMatch urlMatch _ Ht Hu Hd) _ Hno Hh) as Hr.
    rewrite Hsn in Hr. eexists. split; [exact Hr|].
    cbn [url displayUrl snippet]. repeat split.
  - rewrite (proj1 (proj2 (extractDDGResults_blocks plain_hostname
                             three_results_page))).
    vm_compute. reflexivity.
Defined.

(** C6 as it is worded fails: a block that lacks only its snippet, and
    whose address is not percent-encoded text, contributes no result. *)
Lemma undecodable_block_skipped :
  ~ (forall URL_hostname block,
       exec re_title block <> None ->
       exec re_url block <> None ->
       exec re_displayUrl block <> None ->
       exec re_snippet block = None ->
       exists r, push_block URL_hostname [] block = [r] /\ snippet r = []).
Proof.
  intros H.
  assert (Ht : exec re_title undecodable_block <> None)
    by (vm_compute; discriminate).
  assert (Hu : exec re_url undecodable_block <> None)
    by (vm_compute; discriminate).
  assert (Hd : exec re_displayUrl undecodable_block <> None)
    by (vm_compute; discriminate).
  assert (Hs : exec re_snippet undecodable_block = None)
    by (vm_compute; reflexivity).
  destruct (H plain_hostname undecodable_block Ht Hu Hd Hs) as (r & Hr & _).
  vm_compute in Hr. discriminate Hr.
Qed.

(** The same on a whole page: its only block is passed over. *)
Example undecodable_page :
  extractDDGResults plain_hostname
    (results_page (result_block "%" display_only)) = [].
Proof. vm_compute. reflexivity. Qed.
End SearchResultsExamples.

(** ** The search step *)

Section SearchStep.
Import Regex WebSearch Fixtures.

Variable URL_hostname : jsstring -> Completion jsstring.
Variable net : Network.

(** What the search step answers for a page, from the two extractors. *)
Lemma searchDuckDuckGo_page query html :
  search_page net query html ->
  searchDuckDuckGo URL_hostname net query
  = match extractDDGResults URL_hostname html,
          extractDDGResultsAlternative URL_hostname html with
    | [], [] =>
        {| search_query := query; search_results := [];
           search_error := Some (js "No results found or couldn't parse results") |}
    | [], alternativeResults =>
        {| search_query := query; search_results := alternativeResults;
           search_error := None |}
    | results, _ =>
        {| search_query := query; search_results := results;
           search_error := None |}
    end.
Proof.
  intros (encodedQuery & He & Hr). unfold searchDuckDuckGo.
  rewrite He. cbn [bind]. rewrite Hr. cbn [bind].
  destruct (extractDDGResults URL_hostname html) as [|r rs]; [|reflexivity].
  cbn [length Nat.eqb].
  destruct (extractDDGResultsAlternative URL_hostname html); reflexivity.
Qed.

(** An error of the search step comes with an empty list of results. *)
Lemma searchDuckDuckGo_error query e :
  search_error (searchDuckDuckGo URL_hostname net query) = Some e ->
  search_results (searchDuckDuckGo URL_hostname net query) = [].
Proof.
  unfold searchDuckDuckGo.
  destruct (encodeURIComponent query) as [encodedQuery|t]; cbn [bind];
    [|reflexivity].
  destruct (outcome (makeRequest net _ search_options)) as [html|t];
    cbn [bind]; [|reflexivity].
  destruct (Nat.eqb (length (extractDDGResults URL_hostname html)) 0);
    [|discriminate].
  destruct (Nat.ltb 0 (length (extractDDGResultsAlternative URL_hostname html)));
    [discriminate | reflexivity].
Qed.

(** C5. For a page on which the primary extractor finds nothing: when the
    alternative extractor finds results, the search step returns them,
    without error; when it finds none either, the search step returns no
    result and the error that nothing was found. For a page that was
    fetched, this error is returned only when both extractors find
    nothing. *)
Theorem searchDuckDuckGo_fallback query html :
  search_page net query html ->
  let response := searchDuckDuckGo URL_hostname net query in
  let alternativeResults := extractDDGResultsAlternative URL_hostname html in
  (extractDDGResults URL_hostname html = [] ->
     (alternativeResults <> [] ->
        response = {| search_query := query;
                      search_results := alternativeResults;
                      search_error := None |})
     /\ (alternativeResults = [] ->
          response = {| search_query := query;
                        search_results := [];
                        search_error :=
                          Some (js "No results found or couldn't parse results") |}))
  /\ (search_error response <> None ->
      extractDDGResults URL_hostname html = [] /\ alternativeResults = []).
Proof.
  intros Hpage response alternativeResults. subst response.
  rewrite (searchDuckDuckGo_page query html Hpage).
  fold alternativeResults. split.
  - intros ->. split.
    + intros Hne. destruct alternativeResults; [contradiction | reflexivity].
    + intros ->. reflexivity.
  - destruct (extractDDGResults URL_hostname html) as [|r rs];
      destruct alternativeResults; cbn [search_error]; intros H;
      try contradiction; split; reflexivity.
Qed.
End SearchStep.

Section SearchStepExamples.
Import Regex WebSearch Fixtures.

Lemma searchDuckDuckGo_fallback_witness :
  search_page (serving fallback_page (second_fails [])) (js "capital of Peru")
    fallback_page
  /\ extractDDGResults plain_hostname fallback_page = []
  /\ extractDDGResultsAlternative plain_hostname fallback_page <> []
  /\ searchDuckDuckGo plain_hostname (serving fallback_page (second_fails []))
       (js "capital of Peru")
     = {| search_query := js "capital of Peru";
          search_results :=
            [ {| title := js "Example & Co"; url := js "https://example.com/a";
                 displayUrl := js "example.com"; snippet := js "A snippet" |} ];
          search_error := None |}.
Proof.
  assert (Hpage : search_page (serving fallback_page (second_fails []))
                    (js "capital of Peru") fallback_page).
  { eexists. split; vm_compute; reflexivity. }
  assert (Hprimary : extractDDGResults plain_hostname fallback_page = [])
    by (vm_compute; reflexivity).
  assert (Halt : extractDDGResultsAlternative plain_hostname fallback_page <> [])
    by (vm_compute; discriminate).
  split; [exact Hpage|]. split; [exact Hprimary|]. split; [exact Halt|].
  rewrite (proj1 (proj1 (searchDuckDuckGo_fallback plain_hostname
                           (serving fallback_page (second_fails []))
                           (js "capital of Peru") fallback_page Hpage)
                    Hprimary) Halt).
  vm_compute. reflexivity.
Defined.
End SearchStepExamples.

(** ** Promises settled together *)

Section AllSettled.
Context {A : Type}.
Variable tasks : list (Completion A).

Lemma allSettled_fold schedule :
  allSettled tasks schedule
  = all_filled (fold_left (store_settled tasks) schedule (replicate (length tasks) None)).
Proof. reflexivity. Qed.

Lemma store_settled_length schedule : forall slots,
  length (fold_left (store_settled tasks) schedule slots) = length slots.
Proof.
  induction schedule as [|j schedule IH]; intros slots; cbn [fold_left];
    [reflexivity|].
  rewrite IH. unfold store_settled.
  destruct (tasks !! j); [apply length_insert | reflexivity].
Qed.

Lemma store_settled_sound schedule : forall slots,
  slots_sound tasks slots -> slots_sound tasks (fold_left (store_settled tasks) schedule slots).
Proof.
  induction schedule as [|j schedule IH]; intros slots Hs; cbn [fold_left];
    [assumption|].
  apply IH. unfold store_settled.
  destruct (tasks !! j) as [c|] eqn:Hj; [|assumption].
  intros i v Hi. destruct (decide (j = i)) as [->|Hne].
  - destruct (decide (i < length slots)) as [Hlt|Hge].
    + rewrite list_lookup_insert_eq in Hi by assumption.
      injection Hi as <-. eauto.
    + rewrite list_insert_ge in Hi by lia. now apply Hs.
  - rewrite list_lookup_insert_ne in Hi by assumption. now apply Hs.
Qed.

(** A slot that holds the outcome of its task keeps it. *)
Lemma store_settled_stable schedule i c : forall slots,
  tasks !! i = Some c ->
  slots !! i = Some (Some (settle c)) ->
  fold_left (store_settled tasks) schedule slots !! i = Some (Some (settle c)).
Proof.
  induction schedule as [|j schedule IH]; intros slots Ht Hs; cbn [fold_left];
    [assumption|].
  apply IH; [assumption|]. unfold store_settled.
  destruct (tasks !! j) as [c'|] eqn:Hj; [|assumption].
  destruct (decide (j = i)) as [->|Hne].
  - rewrite Ht in Hj. injection Hj as <-.
    rewrite list_lookup_insert_eq; [reflexivity|].
    apply lookup_lt_Some in Hs. assumption.
  - now rewrite list_lookup_insert_ne.
Qed.

(** A task that settles fills its slot. *)
Lemma store_settled_filled schedule i c : forall slots,
  length slots = length tasks ->
  tasks !! i = Some c ->
  In i schedule ->
  fold_left (store_settled tasks) schedule slots !! i = Some (Some (settle c)).
Proof.
  induction schedule as [|j schedule IH]; intros slots Hl Ht Hin;
    [destruct Hin|].
  cbn [fold_left].
  destruct (decide (j = i)) as [->|Hne].
  - apply store_settled_stable; [assumption|].
    unfold store_settled. rewrite Ht.
    apply list_lookup_insert_eq. rewrite Hl. now apply lookup_lt_Some in Ht.
  - destruct Hin as [->|Hin]; [contradiction|].
    apply IH; [|assumption|assumption].
    unfold store_settled. destruct (tasks !! j); [|assumption].
    now rewrite length_insert.
Qed.

Lemma all_filled_Some (slots : list (option (Settlement A))) : forall l,
  all_filled slots = Some l -> slots = map Some l.
Proof.
  induction slots as [|[v|] slots IH]; intros l; cbn [all_filled].
  - now intros [= <-].
  - destruct (all_filled slots) as [l'|]; [|discriminate].
    intros [= <-]. cbn [map]. f_equal. now apply IH.
  - discriminate.
Qed.

Lemma all_filled_map (l : list (Settlement A)) : all_filled (map (@Some (Settlement A)) l) = Some l.
Proof. induction l as [|v l IH]; cbn [map all_filled]; [|rewrite IH]; reflexivity. Qed.

(** Settled together, the outcomes stand at the indices of their tasks,
    whatever the order in which they arrived. *)
Lemma allSettled_Some schedule l :
  allSettled tasks schedule = Some l -> l = map settle tasks.
Proof.
  rewrite allSettled_fold. intros H. apply all_filled_Some in H.
  assert (Hlen : length l = length tasks).
  { apply (f_equal (@length _)) in H.
    rewrite store_settled_length, length_replicate, length_map in H. lia. }
  assert (Hsound : slots_sound tasks (map Some l)).
  { rewrite <- H. apply store_settled_sound.
    intros i v Hi. apply lookup_replicate in Hi as [Hi _]. discriminate. }
  apply list_eq. intros i. rewrite list_lookup_fmap.
  destruct (l !! i) as [v|] eqn:Hv.
  - destruct (Hsound i v) as (c & Hc & ->).
    + now rewrite list_lookup_fmap, Hv.
    + now rewrite Hc.
  - apply lookup_ge_None in Hv. rewrite Hlen in Hv.
    apply lookup_ge_None in Hv. now rewrite Hv.
Qed.

Lemma allSettled_complete schedule :
  (forall i, i < length tasks -> In i schedule) ->
  allSettled tasks schedule = Some (map settle tasks).
Proof.
  intros Hall. rewrite allSettled_fold.
  replace (fold_left (store_settled tasks) schedule (replicate (length tasks) None))
    with (map Some (map settle tasks)); [apply all_filled_map|].
  apply list_eq. intros i. rewrite !list_lookup_fmap.
  destruct (tasks !! i) as [c|] eqn:Hc; cbn.
  - symmetry. apply store_settled_filled;
      [apply length_replicate | assumption |].
    apply Hall. now apply lookup_lt_Some in Hc.
  - symmetry. apply lookup_ge_None. rewrite store_settled_length, length_replicate.
    now apply lookup_ge_None in Hc.
Qed.

Lemma allSettled_permutation schedule :
  Permutation schedule (seq 0 (length tasks)) ->
  allSettled tasks schedule = Some (map settle tasks).
Proof.
  intros Hp. apply allSettled_complete. intros i Hi.
  apply (Permutation_in i (Permutation_sym Hp)). apply in_seq. lia.
Qed.
End AllSettled.

(** ** The pipeline *)

Section Pipeline.
Import Regex WebSearch Fixtures.

Variable URL_hostname : jsstring -> Completion jsstring.

(** [makeRequest] depends on the network through the answers to its own
    request only. *)
Lemma attempt_loop_ext net net' url options n :
  (forall attempt,
     net (request_of url options) attempt = net' (request_of url options) attempt) ->
  forall attempt lastError tr,
    attempt_loop net url options n attempt lastError tr
    = attempt_loop net' url options n attempt lastError tr.
Proof.
  intros Hnet. induction n as [|n IH]; intros attempt lastError tr;
    cbn [attempt_loop]; [reflexivity|].
  unfold attempt_result. rewrite Hnet.
  destruct (net' (request_of url options) attempt) as [resp|t].
  - destruct (ok resp); [reflexivity|]. cbn [is_abort_error status_error new_Error
      is_DOMException andb].
    destruct (attempt =? retry_budget options)%Z; [reflexivity | apply IH].
  - destruct (is_abort_error t); [reflexivity|].
    destruct (attempt =? retry_budget options)%Z; [reflexivity | apply IH].
Qed.

Lemma fetchPageContent_ext extract net net' url :
  (forall attempt,
     net (request_of url page_options) attempt
     = net' (request_of url page_options) attempt) ->
  fetchPageContent_with net extract url = fetchPageContent_with net' extract url.
Proof.
  intros Hnet. unfold fetchPageContent_with, makeRequest.
  now rewrite (attempt_loop_ext net net' url page_options _ Hnet).
Qed.

(** The array of results, from the array of settled promises. *)
Lemma fullResults_map extract net resultsToProcess : forall settled,
  fullResults (length settled) resultsToProcess
    (settled ++ map (fun result =>
                       settle (fetchPageContent_with net extract (url result)))
                    resultsToProcess)
  = map (page_result_with extract net) resultsToProcess.
Proof.
  induction resultsToProcess as [|result rest IH]; intros settled;
    cbn [fullResults map]; [reflexivity|].
  rewrite list_lookup_middle by reflexivity.
  f_equal.
  specialize (IH (settled
                  ++ [settle (fetchPageContent_with net extract (url result))])).
  rewrite length_app, <- app_assoc in IH. cbn [length app] in IH.
  rewrite Nat.add_1_r in IH. exact IH.
Qed.

(** What [webSearch] returns, when it returns: the results of the search,
    five at most, each with the outcome of the fetch of its own page. *)
Lemma webSearch_with_Some extract net query schedule response :
  webSearch_with URL_hostname net extract query schedule = Some response ->
  results response
  = map (page_result_with extract net)
        (take 5 (search_results (searchDuckDuckGo URL_hostname net query))).
Proof.
  unfold webSearch_with.
  set (searchResults := searchDuckDuckGo URL_hostname net query).
  destruct (_ || _) eqn:Hempty.
  - intros [= <-]. cbn [results].
    apply orb_true_iff in Hempty as [He|Hl].
    + destruct (search_error searchResults) as [e|] eqn:E; [|discriminate].
      subst searchResults.
      now rewrite (searchDuckDuckGo_error URL_hostname net query e E).
    + destruct (search_results searchResults); [reflexivity | discriminate].
  - destruct (allSettled _ schedule) as [settled|] eqn:Hs; [|discriminate].
    intros [= <-]. cbn [results]. apply allSettled_Some in Hs. subst settled.
    rewrite map_map. apply (fullResults_map extract net _ []).
Qed.

Lemma webSearch_Some net query schedule response :
  webSearch URL_hostname net query schedule = Some response ->
  results response
  = map (page_result net)
        (take 5 (search_results (searchDuckDuckGo URL_hostname net query))).
Proof. apply (webSearch_with_Some try_extract). Qed.

(** [webSearch] returns when every page fetch settles. *)
Lemma webSearch_permutation net query schedule :
  let searchResults := search_results (searchDuckDuckGo URL_hostname net query) in
  Permutation schedule (seq 0 (Nat.min (length searchResults) 5)) ->
  exists response, webSearch URL_hostname net query schedule = Some response.
Proof.
  intros searchResults Hp. unfold webSearch, webSearch_with.
  destruct (_ || _); [eauto|].
  rewrite allSettled_permutation; [eauto|].
  rewrite length_map, length_take. fold searchResults.
  now rewrite Nat.min_comm.
Qed.

(** The content and the error of a result, from the fetch of its page. *)
Lemma page_result_content net result :
  let r := page_result net result in
  cr_title r = title result /\ cr_url r = url result
  /\ cr_displayUrl r = displayUrl result /\ cr_snippet r = snippet result
  /\ match outcome (makeRequest net (url result) page_options) with
     | Normal html => content r <> None /\ error r = None
     | Throw e => content r = None /\ error r = Some (error_text e)
     end.
Proof.
  unfold page_result, page_result_with, fetchPageContent_with, try_extract.
  destruct (outcome (makeRequest net (url result) page_options)) as [html|e];
    cbn; repeat split; discriminate.
Qed.

(** C4. When the search step yields N results and every page fetch
    settles, in whatever order, [webSearch] returns min(N, 5) results, the
    one at index [i] with the title, the address, the display URL and the
    snippet of the search result at index [i]; the value returned is the
    same for every order. *)
Theorem webSearch_order net query schedule :
  let searchResults := search_results (searchDuckDuckGo URL_hostname net query) in
  let n := Nat.min (length searchResults) 5 in
  Permutation schedule (seq 0 n) ->
  exists response,
    webSearch URL_hostname net query schedule = Some response
    /\ length (results response) = n
    /\ (forall i, i < n ->
          exists r s,
            results response !! i = Some r /\ searchResults !! i = Some s
            /\ cr_title r = title s /\ cr_url r = url s
            /\ cr_displayUrl r = displayUrl s /\ cr_snippet r = snippet s)
    /\ (forall schedule',
          Permutation schedule' (seq 0 n) ->
          webSearch URL_hostname net query schedule' = Some response).
Proof.
  intros searchResults n Hp.
  destruct (webSearch_permutation net query schedule Hp) as [response Hr].
  pose proof (webSearch_Some net query schedule response Hr) as Hres.
  fold searchResults in Hres.
  exists response. split; [exact Hr|]. split; [|split].
  - rewrite Hres, length_map, length_take. subst n. apply Nat.min_comm.
  - intros i Hi.
    destruct (lookup_lt_is_Some_2 searchResults i ltac:(subst n; lia)) as [s Hs].
    exists (page_result net s), s. rewrite Hres, list_lookup_fmap.
    rewrite lookup_take_lt by (subst n; lia). rewrite Hs. cbn [fmap option_fmap option_map].
    split; [reflexivity|]. split; [reflexivity|].
    destruct (page_result_content net s) as (H1 & H2 & H3 & H4 & _). auto.
  - intros schedule' Hp'.
    destruct (webSearch_permutation net query schedule' Hp') as [response' Hr'].
    rewrite Hr'. f_equal.
    pose proof (webSearch_Some net query schedule' response' Hr') as Hres'.
    fold searchResults in Hres'.
    unfold webSearch, webSearch_with in Hr, Hr'.
    destruct (_ || _).
    + congruence.
    + destruct (allSettled _ schedule); [|discriminate].
      destruct (allSettled _ schedule'); [|discriminate].
      injection Hr as <-. injection Hr' as <-. cbn [results] in Hres, Hres'.
      now rewrite Hres, Hres'.
Qed.

(** What [makeRequest] throws carries a text, when what the network rejects
    with does. *)
Lemma message_as_Error t : message (as_Error t) = error_text t.
Proof. now destruct t. Qed.

Lemma status_error_text st : message (status_error st) <> [].
Proof.
  unfold status_error, new_Error. cbn [message]. intros H.
  apply app_eq_nil in H as [H _]. discriminate H.
Qed.

Lemma attempt_loop_error_text net url options :
  rejections_carry_text net ->
  forall n attempt lastError tr e,
    (forall e0, lastError = Some e0 -> message e0 <> []) ->
    outcome (attempt_loop net url options n attempt lastError tr) = Throw e ->
    error_text e <> [].
Proof.
  intros Hnet. induction n as [|n IH]; intros attempt lastError tr e Hlast;
    cbn [attempt_loop].
  - cbn [outcome]. unfold throw_last. intros [= <-]. cbn [error_text].
    destruct lastError as [e0|]; [now apply Hlast | discriminate].
  - unfold attempt_result.
    pose proof (Hnet (request_of url options) attempt) as Hr.
    destruct (net (request_of url options) attempt) as [resp|t].
    + destruct (ok resp).
      * cbn [outcome]. apply Hr.
      * cbn [is_abort_error status_error new_Error is_DOMException andb as_Error].
        fold (new_Error (js "Request failed with status code "
                         ++ show_Z (status resp))).
        fold (status_error (status resp)).
        assert (Hs : forall e0, Some (status_error (status resp)) = Some e0 ->
                                message e0 <> [])
          by (intros e0 [= <-]; apply status_error_text).
        destruct (attempt =? retry_budget options)%Z.
        -- cbn [outcome]. unfold throw_last. intros [= <-].
           apply status_error_text.
        -- now apply IH.
    + assert (Hs : forall e0, Some (as_Error t) = Some e0 -> message e0 <> [])
        by (intros e0 [= <-]; now rewrite message_as_Error).
      destruct (is_abort_error t);
        [|destruct (attempt =? retry_budget options)%Z]; [| |now apply IH].
      * cbn [outcome]. unfold throw_last. intros [= <-]. cbn [error_text].
        now rewrite message_as_Error.
      * cbn [outcome]. unfold throw_last. intros [= <-]. cbn [error_text].
        now rewrite message_as_Error.
Qed.

Lemma makeRequest_error_text net url options e :
  rejections_carry_text net ->
  outcome (makeRequest net url options) = Throw e ->
  error_text e <> [].
Proof.
  intros Hnet. unfold makeRequest.
  apply (attempt_loop_error_text net url options Hnet). discriminate.
Qed.

(** The content and the error of a result, from the fetch of its page and
    from the extraction. *)
Lemma page_result_with_content extract net result :
  let r := page_result_with extract net result in
  cr_url r = url result
  /\ match outcome (makeRequest net (url result) page_options) with
     | Normal html =>
         match extract html with
         | Normal _ => content r <> None /\ error r = None
         | Throw e =>
             content r = None
             /\ error r = Some (js "Error extracting content: " ++ error_text e)
         end
     | Throw e => content r = None /\ error r = Some (error_text e)
     end.
Proof.
  unfold page_result_with, fetchPageContent_with.
  destruct (outcome (makeRequest net (url result) page_options)) as [html|e];
    [destruct (extract html)|]; cbn; repeat split; discriminate.
Qed.

(** The extractor of the program returns for every page: its failures are
    caught inside [extractMainContent]. *)
Lemma extraction_never_fails net url : ~ extraction_failed try_extract net url.
Proof. intros (html & e & _ & H). discriminate H. Qed.

(** C1. On a network whose rejections carry a text, in every result that
    [webSearch] returns [content] is null exactly when the fetch or the
    extraction of its page failed, whatever the call of [extractMainContent]
    does; [error] is then a reason that is not empty, the text of the error
    the fetch threw or [Error extracting content: ] before the text of the
    error the extraction threw, and otherwise there is no error. A result is
    the same on every network that answers the requests for its page the
    same way, given the same search results. With the extractor of the
    program, which returns for every page, [content] is null exactly when
    the fetch failed. *)
Theorem webSearch_content_or_error extract net query schedule response :
  rejections_carry_text net ->
  webSearch_with URL_hostname net extract query schedule = Some response ->
  forall i r,
    results response !! i = Some r ->
    (content r = None
     <-> fetch_failed net (cr_url r) \/ extraction_failed extract net (cr_url r))
    /\ (content r = None ->
        exists reason, error r = Some reason /\ reason <> [])
    /\ (content r <> None -> error r = None)
    /\ (forall e,
          outcome (makeRequest net (cr_url r) page_options) = Throw e ->
          error r = Some (error_text e))
    /\ (forall html e,
          outcome (makeRequest net (cr_url r) page_options) = Normal html ->
          extract html = Throw e ->
          error r = Some (js "Error extracting content: " ++ error_text e))
    /\ (forall net' schedule' response',
          searchDuckDuckGo URL_hostname net' query
          = searchDuckDuckGo URL_hostname net query ->
          webSearch_with URL_hostname net' extract query schedule'
          = Some response' ->
          (forall attempt,
             net' (request_of (cr_url r) page_options) attempt
             = net (request_of (cr_url r) page_options) attempt) ->
          results response' !! i = Some r)
    /\ (extract = try_extract ->
        (content r = None <-> fetch_failed net (cr_url r))).
Proof.
  intros Hnet Hr i r Hi.
  pose proof (webSearch_with_Some extract net query schedule response Hr) as Hres.
  rewrite Hres, list_lookup_fmap in Hi.
  destruct (take 5 (search_results (searchDuckDuckGo URL_hostname net query)) !! i)
    as [s|] eqn:Hs; [|discriminate].
  injection Hi as <-.
  destruct (page_result_with_content extract net s) as (Hurl & Hpage).
  rewrite Hurl. unfold fetch_failed, extraction_failed.
  assert (Hsame : forall net' schedule' response',
             searchDuckDuckGo URL_hostname net' query
             = searchDuckDuckGo URL_hostname net query ->
             webSearch_with URL_hostname net' extract query schedule'
             = Some response' ->
             (forall attempt,
                net' (request_of (url s) page_options) attempt
                = net (request_of (url s) page_options) attempt) ->
             results response' !! i = Some (page_result_with extract net s)).
  { intros net' schedule' response' Hsearch Hr' Hans.
    rewrite (webSearch_with_Some extract net' query schedule' response' Hr'),
      Hsearch.
    rewrite list_lookup_fmap, Hs. cbn. f_equal.
    unfold page_result_with.
    now rewrite (fetchPageContent_ext extract net' net (url s) Hans). }
  destruct (outcome (makeRequest net (url s) page_options)) as [html|e] eqn:Ho.
  - destruct (extract html) as [c|e] eqn:He.
    + destruct Hpage as [Hc Herr].
      split; [split; [intros H; contradiction|]|].
      { intros [[e H] | (html' & e & H & He')]; [discriminate|].
        injection H as <-. rewrite He in He'. discriminate. }
      split; [intros H; contradiction|]. split; [intros _; exact Herr|].
      split; [discriminate|]. split.
      { intros html' e H He'. injection H as <-. rewrite He in He'. discriminate. }
      split; [exact Hsame|]. intros _. split; [intros H; contradiction|].
      intros [e H]. discriminate.
    + destruct Hpage as [Hc Herr].
      split; [split; [intros _; right; eauto | intros _; exact Hc]|].
      split.
      { intros _. eexists. split; [exact Herr|]. intros H.
        apply app_eq_nil in H as [H _]. discriminate H. }
      split; [intros H; contradiction|]. split; [discriminate|]. split.
      { intros html' e' H He'. injection H as <-. rewrite He in He'.
        injection He' as <-. exact Herr. }
      split; [exact Hsame|]. intros ->. discriminate He.
  - destruct Hpage as [Hc Herr].
    split; [split; [intros _; left; eauto | intros _; exact Hc]|].
    split.
    { intros _. exists (error_text e). split; [exact Herr|].
      now apply (makeRequest_error_text net (url s) page_options e). }
    split; [intros H; contradiction|]. split.
    { intros e' [= <-]. exact Herr. }
    split; [discriminate|]. split; [exact Hsame|].
    intros _. split; [intros _; eauto | intros _; exact Hc].
Qed.
End Pipeline.

Section PipelineExamples.
Import Regex WebSearch Fixtures.

Lemma webSearch_order_witness :
  Permutation [1; 0; 2] (seq 0 3)
  /\ exists response,
       webSearch plain_hostname
         (serving three_results_page (second_fails (js "fetch failed")))
         (js "capital of Peru") [1; 0; 2] = Some response
       /\ length (results response) = 3.
Proof.
  assert (Hp : Permutation [1; 0; 2] (seq 0 3)) by apply perm_swap.
  split; [exact Hp|].
  pose proof (webSearch_order plain_hostname
                (serving three_results_page (second_fails (js "fetch failed")))
                (js "capital of Peru") [1; 0; 2]) as H.
  cbv zeta in H.
  assert (Hn : Nat.min
                 (length (search_results
                            (searchDuckDuckGo plain_hostname
                               (serving three_results_page
                                  (second_fails (js "fetch failed")))
                               (js "capital of Peru")))) 5 = 3)
    by (vm_compute; reflexivity).
  rewrite Hn in H.
  destruct (H Hp) as (response & Hr & Hlen & _).
  exists response. split; [exact Hr | exact Hlen].
Defined.

Lemma second_fails_carries_text :
  rejections_carry_text
    (serving three_results_page (second_fails (js "fetch failed"))).
Proof.
  intros req attempt. unfold serving, second_fails, served.
  destruct (is_search req); [discriminate|].
  destruct (jseqb (req_url req) (js "https://b.example/2")); discriminate.
Qed.

Lemma webSearch_content_or_error_witness :
  (exists response r reason,
     webSearch plain_hostname
       (serving three_results_page (second_fails (js "fetch failed")))
       (js "capital of Peru") [1; 0; 2] = Some response
     /\ results response !! 1 = Some r
     /\ content r = None
     /\ error r = Some reason /\ reason <> [])
  /\ (exists response r,
        webSearch_with plain_hostname
          (serving three_results_page (second_fails (js "fetch failed")))
          failing_extract (js "capital of Peru") [1; 0; 2] = Some response
        /\ results response !! 0 = Some r
        /\ content r = None
        /\ error r = Some (js "Error extracting content: bad page")).
Proof.
  split.
  - destruct (webSearch plain_hostname
                (serving three_results_page (second_fails (js "fetch failed")))
                (js "capital of Peru") [1; 0; 2]) as [response|] eqn:Hr;
      [|vm_compute in Hr; discriminate Hr].
    pose proof Hr as Hv. vm_compute in Hv. injection Hv as Hv.
    destruct (results response !! 1) as [r|] eqn:Hi;
      [|rewrite <- Hv in Hi; vm_compute in Hi; discriminate Hi].
    pose proof Hi as Hw. rewrite <- Hv in Hw. vm_compute in Hw.
    injection Hw as Hw.
    assert (Hc : content r = None) by (rewrite <- Hw; reflexivity).
    destruct (webSearch_content_or_error plain_hostname try_extract _ _ _
                response second_fails_carries_text Hr 1 r Hi)
      as (_ & Herr & _).
    destruct (Herr Hc) as (reason & He & Hne).
    exists response, r, reason. split; [reflexivity|]. split; [exact Hi|].
    split; [exact Hc|]. split; [exact He | exact Hne].
  - destruct (webSearch_with plain_hostname
                (serving three_results_page (second_fails (js "fetch failed")))
                failing_extract (js "capital of Peru") [1; 0; 2])
      as [response|] eqn:Hr; [|vm_compute in Hr; discriminate Hr].
    pose proof Hr as Hv. vm_compute in Hv. injection Hv as Hv.
    destruct (results response !! 0) as [r|] eqn:Hi;
      [|rewrite <- Hv in Hi; vm_compute in Hi; discriminate Hi].
    pose proof Hi as Hw. rewrite <- Hv in Hw. vm_compute in Hw.
    injection Hw as Hw.
    destruct (webSearch_content_or_error plain_hostname failing_extract _ _ _
                response second_fails_carries_text Hr 0 r Hi)
      as (Hiff & _ & _ & _ & Hex & _).
    assert (Hu : cr_url r = js "https://a.example/1")
      by (rewrite <- Hw; reflexivity).
    assert (Ho : outcome (makeRequest
                            (serving three_results_page
                               (second_fails (js "fetch failed")))
                            (cr_url r) page_options) = Normal article)
      by (rewrite Hu; vm_compute; reflexivity).
    exists response, r. split; [reflexivity|]. split; [exact Hi|]. split.
    + apply Hiff. right. exists article, (ThrowError (new_Error (js "bad page"))).
      split; [exact Ho | reflexivity].
    + exact (Hex article _ Ho eq_refl).
Defined.
End PipelineExamples.

(** ** The scenarios of the specification *)

Section Scenarios.
Import Regex WebSearch Fixtures.

(** A page with one result block in the primary markup gives one result,
    with its title and its address. *)
Example one_block :
  extractDDGResults plain_hostname
    (results_page (result_block "https%3A%2F%2Fa.example%2F1" ""))
  = [ {| title := js "Example & Co"; url := js "https://a.example/1";
         displayUrl := js "a.example"; snippet := [] |} ].
Proof. vm_compute. reflexivity. Qed.

(** Twelve blocks give ten results. *)
Example twelve_blocks :
  let block := result_block "https%3A%2F%2Fa.example%2F1" "" in
  let four := (block ++ block ++ block ++ block)%string in
  length (match_all re_block
            (cap_of (exec re_results (results_page (four ++ four ++ four))))) = 12
  /\ length (extractDDGResults plain_hostname
               (results_page (four ++ four ++ four))) = 10.
Proof. vm_compute. split; reflexivity. Qed.

(** The main content of a page: scripts and navigation are dropped, the
    articles are joined, tags are removed and entities decoded. *)
Example main_content :
  extractMainContent
    (js ("<html><head><script>var x = 1 < 2;</script></head><body><nav>menu</nav>"
         ++ "<article class=`a`>Hello <b>world</b> &amp; all</article>"
         ++ "<ARTICLE>Second</ARTICLE><footer>f</footer></body></html>"))
  = js "Hello world & all Second".
Proof. vm_compute. reflexivity. Qed.

(** Three results, the second page failing: the other two carry their
    content, whatever the order in which the fetches settle. *)
Example three_pages :
  option_map (fun response => map (fun r => (cr_url r, content r, error r))
                                  (results response))
    (webSearch plain_hostname
       (serving three_results_page (second_fails (js "fetch failed")))
       (js "capital of Peru") [2; 0; 1])
  = Some [ (js "https://a.example/1", Some (js "Lima is the capital."), None);
           (js "https://b.example/2", None, Some (js "fetch failed"));
           (js "https://c.example/3", Some (js "Lima is the capital."), None) ].
Proof. vm_compute. reflexivity. Qed.

(** As long as a fetch has not settled, so has the call. *)
Example pending :
  webSearch plain_hostname
    (serving three_results_page (second_fails (js "fetch failed")))
    (js "capital of Peru") [2; 0] = None.
Proof. vm_compute. reflexivity. Qed.

(** A search request that fails: three attempts, then the error of the
    last, and no page is fetched. *)
Example search_unavailable :
  webSearch plain_hostname unavailable (js "capital of Peru") []
  = Some {| query := js "capital of Peru";
            response_error := Some (js "Request failed with status code 503");
            results := [] |}.
Proof. vm_compute. reflexivity. Qed.
End Scenarios.

(** * Further properties *)

(** ** The HTTP fetcher, for every budget *)

Section FetcherMore.
Import WebSearch Fixtures More.

Variable net : Network.
Variable url : jsstring.
Variable options : RequestOptions.

Lemma backoff_from_S req i k :
  backoff_from req i (S k)
  = [Fetch req (Z.of_nat i); Sleep (1000 * 2 ^ Z.of_nat i)]
    ++ backoff_from req (S i) k.
Proof.
  unfold backoff_from. cbn [seq flat_map]. rewrite <- app_assoc.
  replace (i + S k) with (S i + k) by lia. reflexivity.
Qed.

(** The rounds of the loop on failures that are not aborts. *)
Lemma attempt_loop_rounds k : forall n i lastError tr,
  (forall j, i <= j < i + k -> fails_retryably net url options (Z.of_nat j)) ->
  (Z.of_nat (i + k) <= retry_budget options)%Z ->
  exists lastError',
    attempt_loop net url options (k + n) (Z.of_nat i) lastError tr
    = attempt_loop net url options n (Z.of_nat (i + k)) lastError'
        (tr ++ flat_map (fun j => [Fetch (request_of url options) (Z.of_nat j);
                                   Sleep (1000 * 2 ^ Z.of_nat j)])
                        (seq i k)).
Proof.
  induction k as [|k IH]; intros n i lastError tr Hfail Hb.
  - exists lastError. cbn [seq flat_map Nat.add]. rewrite app_nil_r.
    now rewrite Nat.add_0_r.
  - destruct (Hfail i ltac:(lia)) as (e & He & Ha).
    cbn [Nat.add].
    rewrite (attempt_loop_retry net url options _ _ _ _ e He Ha) by lia.
    replace (Z.of_nat i + 1)%Z with (Z.of_nat (S i)) by lia.
    destruct (IH n (S i) (Some (as_Error e))
                ((tr ++ [Fetch (request_of url options) (Z.of_nat i)])
                   ++ [Sleep (1000 * 2 ^ Z.of_nat i)]))
      as [lastError' Heq].
    + intros j Hj. apply Hfail. lia.
    + lia.
    + exists lastError'. rewrite Heq. replace (S i + k) with (i + S k) by lia.
      cbn [seq flat_map]. now rewrite <- !app_assoc.
Qed.

Lemma backoff_from_counts req k : forall i,
  length (filter (fun e => is_Fetch e = true) (backoff_from req i k)) = S k
  /\ delays_of (backoff_from req i k)
     = map (fun j => (1000 * 2 ^ Z.of_nat j)%Z) (seq i k).
Proof.
  induction k as [|k IH]; intros i.
  - split; reflexivity.
  - rewrite backoff_from_S. destruct (IH (S i)) as [Hn Hd].
    cbn [app seq map delays_of]. rewrite filter_cons_True by reflexivity.
    rewrite filter_cons_False by discriminate. cbn [length].
    rewrite Hn, Hd. split; reflexivity.
Qed.

(** X1. A call whose every attempt fails otherwise than by an abort, with a
    budget of [n >= 0] retries: it sends [n + 1] requests, all the same,
    waits [1000 * 2 ^ i] ms after the [i]-th failure, and throws the error
    of the last attempt. *)
Theorem makeRequest_exhausts :
  (0 <= retry_budget options)%Z ->
  always_fails net url options ->
  let run := makeRequest net url options in
  let n := Z.to_nat (retry_budget options) in
  trace run = backoff (request_of url options) n
  /\ attempts_made run = S n
  /\ delays_of (trace run) = map (fun i => (1000 * 2 ^ Z.of_nat i)%Z) (seq 0 n)
  /\ exists last,
       attempt_error net url options (retry_budget options) = Some last
       /\ outcome run = Throw (ThrowError last).
Proof.
  intros Hb Hfail run n.
  destruct (Hfail (retry_budget options)) as (e & He & Ha).
  assert (Hrun : run = {| outcome := Throw (ThrowError (as_Error e));
                          trace := backoff (request_of url options) n |}).
  { subst run. unfold makeRequest.
    replace (Z.to_nat (retry_budget options + 1)) with (n + 1) by (subst n; lia).
    destruct (attempt_loop_rounds n 1 0 None [])
      as [lastError' Heq]; [intros j _; apply Hfail | subst n; lia |].
    change (Z.of_nat 0) with 0%Z in Heq. rewrite Heq.
    cbn [Nat.add]. subst n. rewrite Z2Nat.id by lia.
    rewrite (attempt_loop_last net url options 0 _ _ _ e He Ha eq_refl).
    unfold backoff, backoff_from. cbn [Nat.add]. rewrite Z2Nat.id by lia.
    reflexivity. }
  rewrite Hrun. unfold attempts_made. cbn [trace outcome].
  destruct (backoff_from_counts (request_of url options) n 0) as [Hn Hd].
  repeat split; try assumption.
  exists (as_Error e). split; [|reflexivity].
  unfold attempt_error. now rewrite He.
Qed.

(** X2. A call whose first [k] attempts fail otherwise than by an abort and
    whose next attempt, within the budget, gets a response with a status in
    200..299: it returns what reading the body of that response gives (a
    body that cannot be read is not retried), after [k + 1] requests and
    the delays [1000 * 2 ^ i] for [i < k]. *)
Theorem makeRequest_succeeds_after k resp :
  (Z.of_nat k <= retry_budget options)%Z ->
  (forall j, j < k -> fails_retryably net url options (Z.of_nat j)) ->
  net (request_of url options) (Z.of_nat k) = Normal resp ->
  ok resp = true ->
  let run := makeRequest net url options in
  run = {| outcome := text resp; trace := backoff (request_of url options) k |}
  /\ attempts_made run = S k
  /\ delays_of (trace run) = map (fun i => (1000 * 2 ^ Z.of_nat i)%Z) (seq 0 k).
Proof.
  intros Hb Hfail Hnet Hok run.
  assert (Hrun : run = {| outcome := text resp;
                          trace := backoff (request_of url options) k |}).
  { subst run. unfold makeRequest.
    replace (Z.to_nat (retry_budget options + 1))
      with (k + S (Z.to_nat (retry_budget options) - k)) by lia.
    destruct (attempt_loop_rounds k (S (Z.to_nat (retry_budget options) - k))
                0 None [])
      as [lastError' Heq]; [intros j Hj; apply Hfail; lia | cbn [Nat.add]; lia |].
    change (Z.of_nat 0) with 0%Z in Heq. rewrite Heq.
    cbn [attempt_loop Nat.add]. unfold attempt_result. rewrite Hnet, Hok.
    reflexivity. }
  rewrite Hrun. unfold attempts_made. cbn [trace].
  destruct (backoff_from_counts (request_of url options) k 0) as [Hn Hd].
  repeat split; assumption.
Qed.

(** The trace of the loop, whatever the network answers. *)
Lemma attempt_loop_shape n : forall i lastError tr,
  (Z.of_nat i + Z.of_nat n = retry_budget options + 1)%Z ->
  0 < n ->
  exists k,
    (Z.of_nat (i + k) <= retry_budget options)%Z
    /\ trace (attempt_loop net url options n (Z.of_nat i) lastError tr)
       = tr ++ backoff_from (request_of url options) i k.
Proof.
  induction n as [|n IH]; intros i lastError tr Hn Hpos; [lia|].
  assert (Hstop : exists k,
             (Z.of_nat (i + k) <= retry_budget options)%Z
             /\ tr ++ [Fetch (request_of url options) (Z.of_nat i)]
                = tr ++ backoff_from (request_of url options) i k).
  { exists 0. split; [lia|]. unfold backoff_from. cbn [seq flat_map app].
    now rewrite Nat.add_0_r. }
  cbn [attempt_loop].
  destruct (attempt_result net url options (Z.of_nat i)) as [resp|error];
    cbn [trace]; [exact Hstop|].
  destruct (is_abort_error error); cbn [trace]; [exact Hstop|].
  destruct (Z.eqb_spec (Z.of_nat i) (retry_budget options)) as [E|E];
    cbn [trace]; [exact Hstop|].
  replace (Z.of_nat i + 1)%Z with (Z.of_nat (S i)) by lia.
  destruct (IH (S i) (Some (as_Error error))
              ((tr ++ [Fetch (request_of url options) (Z.of_nat i)])
                 ++ [Sleep (1000 * 2 ^ Z.of_nat i)]))
    as (k & Hk & Htr); [lia | lia |].
  exists (S k). split; [lia|]. rewrite Htr, backoff_from_S.
  now rewrite <- !app_assoc.
Qed.

(** X3. Whatever the network answers, a call with a budget of [n >= 0]
    retries sends at most [n + 1] requests, all the same, numbered from 0,
    with the delay [1000 * 2 ^ i] ms after the [i]-th and no delay after the
    last; with a negative budget it sends none and throws [Request
    failed]. *)
Theorem makeRequest_bounded :
  let run := makeRequest net url options in
  ((0 <= retry_budget options)%Z ->
     exists k,
       (Z.of_nat k <= retry_budget options)%Z
       /\ trace run = backoff (request_of url options) k
       /\ attempts_made run = S k)
  /\ ((retry_budget options < 0)%Z ->
      run = {| outcome := Throw (ThrowError (new_Error (js "Request failed")));
               trace := [] |}).
Proof.
  intros run. split.
  - intros Hb. subst run. unfold makeRequest.
    destruct (attempt_loop_shape (Z.to_nat (retry_budget options + 1)) 0 None [])
      as (k & Hk & Htr); [lia | lia |].
    change (Z.of_nat 0) with 0%Z in Htr. cbn [app Nat.add] in Hk, Htr.
    exists k. split; [exact Hk|]. split; [exact Htr|].
    unfold attempts_made. rewrite Htr.
    apply (backoff_from_counts (request_of url options) k 0).
  - intros Hb. subst run. unfold makeRequest.
    replace (Z.to_nat (retry_budget options + 1)) with 0 by lia. reflexivity.
Qed.
End FetcherMore.

Section FetcherMoreExamples.
Import WebSearch Fixtures More.

Lemma makeRequest_exhausts_witness :
  (0 <= retry_budget (with_retries (Some (Num 4))))%Z
  /\ always_fails unavailable (js "https://example.com/") (with_retries (Some (Num 4)))
  /\ delays_of (trace (makeRequest unavailable (js "https://example.com/")
                         (with_retries (Some (Num 4)))))
     = [1000; 2000; 4000; 8000]%Z.
Proof.
  assert (Hb : (0 <= retry_budget (with_retries (Some (Num 4))))%Z) by (cbn; lia).
  assert (Hf : always_fails unavailable (js "https://example.com/")
                 (with_retries (Some (Num 4)))).
  { intros attempt. eexists. split; reflexivity. }
  split; [exact Hb|]. split; [exact Hf|].
  exact (proj1 (proj2 (proj2 (makeRequest_exhausts unavailable
                                (js "https://example.com/")
                                (with_retries (Some (Num 4))) Hb Hf)))).
Defined.

Lemma makeRequest_succeeds_after_witness :
  outcome (makeRequest (flaky 2 (js "<html></html>")) (js "https://example.com/")
             (with_retries (Some (Num 2))))
  = Normal (js "<html></html>")
  /\ attempts_made (makeRequest (flaky 2 (js "<html></html>"))
                      (js "https://example.com/") (with_retries (Some (Num 2)))) = 3.
Proof.
  assert (Hf : forall j, j < 2 ->
             fails_retryably (flaky 2 (js "<html></html>"))
               (js "https://example.com/") (with_retries (Some (Num 2)))
               (Z.of_nat j)).
  { intros j Hj. exists (ThrowError (status_error 503)).
    destruct j as [|[|j]]; [split; reflexivity | split; reflexivity | lia]. }
  destruct (makeRequest_succeeds_after (flaky 2 (js "<html></html>"))
              (js "https://example.com/") (with_retries (Some (Num 2))) 2
              {| status := 200; text := Normal (js "<html></html>") |}
              ltac:(cbn; lia) Hf eq_refl eq_refl) as (Hrun & Hn & _).
  split; [rewrite Hrun; reflexivity | exact Hn].
Defined.

Lemma makeRequest_bounded_witness :
  (retry_budget (with_retries (Some (Num (-1)))) < 0)%Z
  /\ makeRequest unavailable (js "https://example.com/")
       (with_retries (Some (Num (-1))))
     = {| outcome := Throw (ThrowError (new_Error (js "Request failed")));
          trace := [] |}.
Proof.
  assert (Hb : (retry_budget (with_retries (Some (Num (-1)))) < 0)%Z) by (cbn; lia).
  split; [exact Hb|].
  exact (proj2 (makeRequest_bounded unavailable (js "https://example.com/")
                  (with_retries (Some (Num (-1))))) Hb).
Defined.
End FetcherMoreExamples.

(** ** The request sent *)

Section RequestSent.
Import WebSearch Fixtures More.

Lemma jseqb_eq a : forall b, jseqb a b = true <-> a = b.
Proof.
  induction a as [|x a IH]; intros [|y b]; cbn [jseqb]; try (split; congruence).
  rewrite andb_true_iff, N.eqb_eq, IH. split; [intros [-> ->]|intros [= -> ->]]; auto.
Qed.

Lemma jseqb_refl a : jseqb a a = true.
Proof. now apply jseqb_eq. Qed.

Lemma header_set_same k v h : header k (set_header k v h) = Some v.
Proof.
  induction h as [|[k' v'] h IH]; cbn [set_header header].
  - now rewrite jseqb_refl.
  - destruct (jseqb k k') eqn:E; cbn [header]; rewrite E; [reflexivity | exact IH].
Qed.

Lemma header_set_other k k1 v h :
  jseqb k k1 = false -> header k (set_header k1 v h) = header k h.
Proof.
  intros Hne. induction h as [|[k' v'] h IH]; cbn [set_header header].
  - now rewrite Hne.
  - destruct (jseqb k1 k') eqn:E; cbn [header].
    + apply jseqb_eq in E. subst k'. now rewrite Hne.
    + now rewrite IH.
Qed.

Lemma header_app k h1 h2 :
  header k (h1 ++ h2)
  = match header k h1 with Some v => Some v | None => header k h2 end.
Proof.
  induction h1 as [|[k' v'] h1 IH]; cbn [app header]; [reflexivity|].
  destruct (jseqb k k'); [reflexivity | exact IH].
Qed.

Lemma header_spread k extra : forall base,
  header k (spread base extra)
  = match last_header k extra with
    | Some v => Some v
    | None => header k base
    end.
Proof.
  unfold spread, last_header.
  induction extra as [|[k1 v1] extra IH]; intros base; cbn [fold_left rev];
    [reflexivity|].
  rewrite IH, header_app. cbn [fst snd header].
  destruct (header k (rev extra)); [reflexivity|].
  destruct (jseqb k k1) eqn:E.
  - apply jseqb_eq in E. subst k1. apply header_set_same.
  - now apply header_set_other.
Qed.

(** X4. In the request [makeRequest] sends, a header the caller gives
    replaces the default of the same name (the last one given wins) and
    every other default header stays; the method is GET unless the caller
    gives a non-empty one; and there is a timeout signal exactly when the
    caller gives a timeout other than 0. *)
Theorem request_of_options url options :
  let req := request_of url options in
  req_url req = url
  /\ (forall k,
        header k (req_headers req)
        = match last_header k (match headers options with
                               | Some h => h
                               | None => []
                               end) with
          | Some v => Some v
          | None => header k default_headers
          end)
  /\ (req_method req = js "GET"
      \/ (method options = Some (req_method req) /\ req_method req <> []))
  /\ (forall t, signal req = Some t <-> (timeout options = Some t /\ t <> 0%N)).
Proof.
  cbv zeta. split; [reflexivity|]. split; [|split].
  - intros k. apply header_spread.
  - cbn [request_of req_method]. destruct (method options) as [[|c m]|];
      cbn [truthy_str]; auto.
  - intros t. cbn [request_of signal].
    destruct (timeout options) as [t'|]; [|split; [discriminate | intros [H _]; discriminate]].
    destruct (N.eqb_spec t' 0) as [->|Hne].
    + split; [discriminate | intros [[= <-] H]; contradiction].
    + split; [intros [= <-]; auto | intros [[= <-] _]; reflexivity].
Qed.

(** The page requests carry the browser identity of the defaults and the
    [Accept] header of [fetchPageContent]. *)
Lemma request_of_options_witness :
  header (js "Accept") (req_headers (request_of (js "https://example.com/") page_options))
  = Some (js "text/html,application/xhtml+xml,application/xml;q=0.9,*/*;q=0.8")
  /\ header (js "Accept-Language")
       (req_headers (request_of (js "https://example.com/") page_options))
     = Some (js "en-US,en;q=0.5")
  /\ signal (request_of (js "https://example.com/") page_options) = Some 15000%N.
Proof.
  destruct (request_of_options (js "https://example.com/") page_options)
    as (_ & Hh & _ & Hs).
  split; [rewrite Hh; reflexivity|]. split; [rewrite Hh; reflexivity|].
  apply Hs. split; [reflexivity | discriminate].
Defined.
End RequestSent.

(** ** Replacing the characters and the runs of one class *)

Section Runs.
Import Regex More.
Variable q : N -> bool.
Variable by_ : jsstring.

Lemma drop_run_length s : length (drop_run q s) <= length s.
Proof.
  induction s as [|c t IH]; cbn [drop_run]; [lia|].
  destruct (q c); cbn [length]; lia.
Qed.

Lemma run_end_state s : forall p pv cs,
  rest (run_end q p pv s cs) = drop_run q s
  /\ pos (run_end q p pv s cs) + length (drop_run q s) = p + length s.
Proof.
  induction s as [|c t IH]; intros p pv cs; cbn [run_end drop_run].
  - split; reflexivity.
  - destruct (q c); [|split; reflexivity].
    destruct (IH (S p) (Some c) cs) as [Hr Hp]. split; [exact Hr|].
    cbn [length]. lia.
Qed.

Lemma rmatch_Chr x k :
  rmatch (Chr q) x k
  = match rest x with
    | c :: t => if q c then k (advance x c t) else None
    | [] => None
    end.
Proof. reflexivity. Qed.

(** The greedy loop over one class stops at the end of the run. *)
Lemma repeat_class s : forall fuel p pv cs,
  length s <= fuel ->
  repeat (rmatch (Chr q)) true fuel 0 None
    {| pos := p; prev := pv; rest := s; caps := cs |} Some
  = Some (run_end q p pv s cs).
Proof.
  induction s as [|c t IH]; intros fuel p pv cs Hf.
  - destruct fuel; reflexivity.
  - destruct fuel as [|fuel]; [cbn [length] in Hf; lia|].
    rewrite repeat_S. cbv zeta. rewrite rmatch_Chr. cbn [rest run_end].
    destruct (q c); [|reflexivity].
    cbn [advance pos prev rest caps Nat.pred option_map].
    rewrite (proj2 (Nat.eqb_neq (S p) p)) by lia. rewrite andb_false_r.
    unfold advance. cbn [pos caps].
    rewrite IH by (cbn [length] in Hf; lia). reflexivity.
Qed.

Lemma plus_class p pv s cs :
  rmatch (plus (Chr q)) {| pos := p; prev := pv; rest := s; caps := cs |} Some
  = match s with
    | c :: t => if q c then Some (run_end q (S p) (Some c) t cs) else None
    | [] => None
    end.
Proof.
  unfold plus.
  change (rmatch (Rep true 1 None (Chr q))
            {| pos := p; prev := pv; rest := s; caps := cs |} Some)
    with (repeat (rmatch (Chr q)) true (1 + length s) 1 None
            {| pos := p; prev := pv; rest := s; caps := cs |} Some).
  cbn [Nat.add]. rewrite repeat_S. cbv zeta. rewrite rmatch_Chr. cbn [rest].
  destruct s as [|c t]; [reflexivity|].
  destruct (q c); [|reflexivity].
  unfold advance. cbn [pos caps Nat.eqb andb Nat.pred option_map].
  apply repeat_class. cbn [length]. lia.
Qed.

Lemma drop_next (pre : jsstring) c t :
  drop (S (length pre)) (pre ++ c :: t) = t.
Proof.
  replace (pre ++ c :: t) with ((pre ++ [c]) ++ t) by now rewrite <- app_assoc.
  replace (S (length pre)) with (length (pre ++ [c]))
    by (rewrite length_app; simpl; lia).
  apply drop_app_length.
Qed.

(** When the match begins after the character at [from], that character is
    kept. *)
Lemma splice_skip pre c t ms :
  (forall a b ms', ms = (a, b) :: ms' -> S (length pre) <= pos a) ->
  splice (pre ++ c :: t) (length pre) ms by_
  = c :: splice (pre ++ c :: t) (S (length pre)) ms by_.
Proof.
  intros Hstart.
  destruct ms as [|[a b] ms']; cbn [splice fst snd].
  - now rewrite drop_app_length, drop_next.
  - specialize (Hstart a b ms' eq_refl).
    rewrite drop_app_length, drop_next.
    replace (pos a - length pre) with (S (pos a - S (length pre))) by lia.
    reflexivity.
Qed.

(** Replacing every character of a class leaves the others in place. *)
Lemma splice_substitute : forall s pre pv f,
  length s < f ->
  splice (pre ++ s) (length pre) (matches_from f (Chr q) (length pre) pv s) by_
  = substitute q by_ s.
Proof.
  induction s as [|c t IH]; intros pre pv f Hf.
  - destruct f; [lia|]. cbn. rewrite app_nil_r. apply drop_all.
  - destruct f as [|f]; [simpl in Hf; lia|]. simpl in Hf.
    unfold substitute. cbn [flat_map]. fold (substitute q by_ t).
    destruct (q c) eqn:Hq.
    + rewrite matches_from_hit by assumption. cbn [splice fst snd pos advance].
      rewrite Nat.sub_diag, take_0. cbn [app]. f_equal.
      replace (pre ++ c :: t) with ((pre ++ [c]) ++ t) by now rewrite <- app_assoc.
      replace (S (length pre)) with (length (pre ++ [c]))
        by (rewrite length_app; simpl; lia).
      apply IH. lia.
    + rewrite matches_from_miss by assumption. cbn [app].
      rewrite splice_skip.
      * f_equal.
        replace (pre ++ c :: t) with ((pre ++ [c]) ++ t) by now rewrite <- app_assoc.
        replace (S (length pre)) with (length (pre ++ [c]))
          by (rewrite length_app; simpl; lia).
        apply IH. lia.
      * intros a b ms' E. now apply matches_from_start in E.
Qed.

Lemma replace_all_substitute s :
  replace_all (Chr q) by_ s = substitute q by_ s.
Proof.
  unfold replace_all, all_matches.
  apply (splice_substitute s [] None (S (length s))). lia.
Qed.

Lemma collapse_run s :
  collapse q by_ true s = collapse q by_ false (drop_run q s).
Proof.
  induction s as [|c t IH]; cbn [collapse drop_run]; [reflexivity|].
  destruct (q c) eqn:Hq; [exact IH|]. cbn [collapse]. now rewrite Hq.
Qed.

Lemma matches_from_plus_miss f n pv c t :
  q c = false ->
  matches_from (S f) (plus (Chr q)) n pv (c :: t)
  = matches_from (S f) (plus (Chr q)) (S n) (Some c) t.
Proof.
  intros Hq. rewrite !matches_from_S. cbn [find]. rewrite plus_class, Hq.
  reflexivity.
Qed.

Lemma matches_from_plus_hit f n pv c t :
  q c = true ->
  matches_from (S f) (plus (Chr q)) n pv (c :: t)
  = (let x := {| pos := n; prev := pv; rest := c :: t; caps := [] |} in
     let y := run_end q (S n) (Some c) t [] in
     (x, y) :: matches_from f (plus (Chr q)) (pos y) (prev y) (rest y)).
Proof.
  intros Hq. rewrite matches_from_S. cbn [find]. rewrite plus_class, Hq.
  cbv zeta. cbn [pos].
  destruct (run_end_state t (S n) (Some c) []) as [_ Hp].
  pose proof (drop_run_length t).
  rewrite (proj2 (Nat.eqb_neq (pos (run_end q (S n) (Some c) t [])) n)) by lia.
  reflexivity.
Qed.

(** Replacing every run of a class: the proof follows the search, which
    resumes after each run. *)
Lemma splice_collapse f : forall s pre pv,
  length s < f ->
  splice (pre ++ s) (length pre)
    (matches_from f (plus (Chr q)) (length pre) pv s) by_
  = collapse q by_ false s.
Proof.
  induction f as [|f IH]; intros s pre pv Hf; [lia|].
  destruct s as [|c t].
  - cbn. rewrite app_nil_r. apply drop_all.
  - cbn [length] in Hf. cbn [collapse]. destruct (q c) eqn:Hq.
    + rewrite matches_from_plus_hit by assumption. cbv zeta.
      cbn [splice fst snd pos]. rewrite Nat.sub_diag, take_0. cbn [app]. f_equal.
      rewrite collapse_run.
      destruct (run_end_state t (S (length pre)) (Some c) []) as [Hr Hp].
      rewrite Hr.
      pose proof (drop_run_length t) as Hl.
      assert (Hsplit : exists run, t = run ++ drop_run q t
                                   /\ length run = length t - length (drop_run q t)).
      { clear. induction t as [|c' t' [run [E L]]]; cbn [drop_run].
        - exists []. split; reflexivity.
        - destruct (q c').
          + exists (c' :: run). split; [cbn; now rewrite <- E|].
            pose proof (drop_run_length t'). cbn [length]. lia.
          + exists []. split; [reflexivity | cbn; lia]. }
      destruct Hsplit as (run & Et & Lrun).
      replace (pre ++ c :: t) with ((pre ++ c :: run) ++ drop_run q t)
        by (rewrite <- app_assoc; cbn [app]; now rewrite <- Et).
      replace (pos (run_end q (S (length pre)) (Some c) t []))
        with (length (pre ++ c :: run))
        by (rewrite length_app; cbn [length]; lia).
      apply IH. lia.
    + rewrite matches_from_plus_miss by assumption.
      rewrite splice_skip.
      * f_equal.
        replace (pre ++ c :: t) with ((pre ++ [c]) ++ t) by now rewrite <- app_assoc.
        replace (S (length pre)) with (length (pre ++ [c]))
          by (rewrite length_app; simpl; lia).
        rewrite <- matches_from_fuel_step by lia.
        apply IH. lia.
      * intros a b ms' E. now apply matches_from_start in E.
Qed.

Lemma replace_all_collapse s :
  replace_all (plus (Chr q)) by_ s = collapse q by_ false s.
Proof.
  unfold replace_all, all_matches.
  apply (splice_collapse (S (length s)) s [] None). lia.
Qed.
End Runs.

(** ** Text cleaned of white space *)

Section Normalized.
Import Regex WebSearch More.

Lemma collapse_loose s : forall b,
  loose b (collapse is_space (js " ") b s) = true.
Proof.
  induction s as [|c t IH]; intros b; cbn [collapse]; [reflexivity|].
  destruct (is_space c) eqn:Hc.
  - destruct b; cbn [app]; [apply IH|].
    change (js " ") with [32%N]. cbn [app loose].
    change (is_space 32) with true. cbn. apply IH.
  - cbn [loose]. rewrite Hc. apply IH.
Qed.

Lemma loose_trim_start w : forall b,
  loose b w = true -> loose true (trim_start w) = true.
Proof.
  induction w as [|c t IH]; intros b H; cbn [trim_start]; [reflexivity|].
  cbn [loose] in H. destruct (is_space c) eqn:Hc.
  - apply andb_true_iff in H as [_ H]. now apply (IH true).
  - cbn [loose]. now rewrite Hc.
Qed.

Lemma trim_start_app a b :
  trim_start (a ++ b)
  = if forallb is_space a then trim_start b else trim_start a ++ b.
Proof.
  induction a as [|c a IH]; cbn [app trim_start forallb]; [reflexivity|].
  destruct (is_space c); [exact IH | reflexivity].
Qed.

Lemma forallb_rev (f : N -> bool) l : forallb f (rev l) = forallb f l.
Proof.
  induction l as [|c l IH]; [reflexivity|].
  cbn [rev forallb]. rewrite forallb_app, IH. cbn [forallb].
  rewrite andb_true_r. apply andb_comm.
Qed.

(** Trimming the end, one character at a time. *)
Lemma trim_end_cons c t :
  rev (trim_start (rev (c :: t)))
  = if forallb is_space t then (if is_space c then [] else [c])
    else c :: rev (trim_start (rev t)).
Proof.
  cbn [rev]. rewrite trim_start_app, forallb_rev.
  destruct (forallb is_space t).
  - cbn [trim_start]. destruct (is_space c); reflexivity.
  - rewrite rev_app_distr. reflexivity.
Qed.

Lemma trim_end_spaces u :
  forallb is_space u = true -> rev (trim_start (rev u)) = [].
Proof.
  induction u as [|c t IH]; [reflexivity|]. intros H.
  cbn [forallb] in H. apply andb_true_iff in H as [Hc Ht].
  now rewrite trim_end_cons, Ht, Hc.
Qed.

Lemma trim_end_spaced u : forall a,
  loose a u = true -> forallb is_space u = false ->
  spaced_from a (rev (trim_start (rev u))) = true.
Proof.
  induction u as [|c t IH]; intros a Hl Hs; [discriminate|].
  rewrite trim_end_cons. cbn [forallb loose] in Hs, Hl.
  destruct (forallb is_space t) eqn:Ht.
  - rewrite andb_true_r in Hs. rewrite Hs. cbn [spaced_from]. now rewrite Hs.
  - cbn [spaced_from]. destruct (is_space c).
    + apply andb_true_iff in Hl as [Hl1 Hl2]. rewrite Hl1. cbn [andb].
      now apply IH.
    + now apply IH.
Qed.

Lemma trim_loose w b : loose b w = true -> normalized (trim w) = true.
Proof.
  intros H. unfold trim. apply loose_trim_start in H.
  destruct (forallb is_space (trim_start w)) eqn:Hs.
  - now rewrite trim_end_spaces.
  - pose proof (trim_end_spaced _ true H Hs) as Hn. unfold normalized.
    destruct (rev (trim_start (rev (trim_start w)))); [reflexivity | exact Hn].
Qed.

(** The last two steps of [cleanHTML] leave single spaces only. *)
Lemma cleanHTML_spaced text : normalized (cleanHTML text) = true.
Proof.
  unfold cleanHTML. destruct (truthy_str text); [|reflexivity].
  cbn [negb]. unfold re_spaces, space. rewrite replace_all_collapse.
  apply (trim_loose _ false), collapse_loose.
Qed.

(** X5. What [cleanHTML] returns, and so what [extractMainContent] returns,
    has no white space but single spaces (U+0020), each between two other
    characters: no tab, line break or other white space, no two spaces in a
    row, none at either end. *)
Theorem cleanHTML_normalized text :
  normalized (cleanHTML text) = true
  /\ normalized (extractMainContent text) = true.
Proof.
  split; [apply cleanHTML_spaced|]. unfold extractMainContent.
  destruct (truthy_str text); [apply cleanHTML_spaced | reflexivity].
Qed.
End Normalized.

(** ** Blocks, links and requests *)

Section Blocks.
Import Regex WebSearch Fixtures More.
Variable URL_hostname : jsstring -> Completion jsstring.

Lemma parse_block_normalized block r :
  parse_block URL_hostname block = Normal (Some r) ->
  normalized (title r) = true /\ normalized (snippet r) = true.
Proof.
  unfold parse_block.
  destruct (exec re_title block) as [titleMatch|]; [|discriminate].
  destruct (exec re_url block) as [urlMatch|]; [|discriminate].
  destruct (decodeURIComponent (cap urlMatch 1)) as [u|]; [|discriminate].
  cbn [bind].
  destruct (match exec re_displayUrl block with
            | Some d => Normal (cleanHTML (cap d 1))
            | None => URL_hostname u
            end) as [d|]; [|discriminate].
  cbn [bind]. intros [= <-]. cbn [title snippet]. split.
  - apply cleanHTML_spaced.
  - destruct (exec re_snippet block); [apply cleanHTML_spaced | reflexivity].
Qed.

(** X6. The primary extractor goes through the first ten blocks of the
    page independently and in order: its results are the contributions of
    these blocks, one after the other, and a block that lacks a field or
    whose [try] throws takes away nothing but its own result. The title and
    the snippet of every result are cleaned of white space. *)
Theorem extractDDGResults_blockwise html :
  extractDDGResults URL_hostname html
  = omap (block_result URL_hostname) (take 10 (result_blocks html))
  /\ Forall (fun r => normalized (title r) = true /\ normalized (snippet r) = true)
            (extractDDGResults URL_hostname html).
Proof.
  pose proof (extractDDGResults_contributions URL_hostname html) as H.
  split; [exact H|]. rewrite H. apply Forall_forall. intros r Hr.
  apply list_elem_of_omap in Hr as (b & _ & Hb).
  unfold block_result in Hb.
  destruct (parse_block URL_hostname b) as [[r'|]|e] eqn:E; try discriminate.
  injection Hb as ->. now apply (parse_block_normalized b).
Qed.

(** X7. In the alternative extractor one link whose [try] throws ends the
    loop: the links after it contribute nothing, whatever they hold, and the
    results are those pushed before it. *)
Theorem extractDDGResultsAlternative_stops html before bad after e :
  match_all re_links html = before ++ bad :: after ->
  parse_link URL_hostname bad = Throw e ->
  extractDDGResultsAlternative URL_hostname html
  = push_links URL_hostname before [].
Proof.
  intros Hl Hbad. unfold extractDDGResultsAlternative. rewrite Hl.
  clear Hl. generalize (@nil SearchResult) as acc.
  induction before as [|l before IH]; intros acc; cbn [app push_links].
  - now rewrite Hbad.
  - destruct (parse_link URL_hostname l) as [[r|]|e'];
      [apply IH | apply IH | reflexivity].
Qed.
End Blocks.

Section BlocksExamples.
Import Regex WebSearch Fixtures More.

Lemma extractDDGResultsAlternative_stops_witness :
  let page := js (result_link "%" ++ result_link "https%3A%2F%2Fa.example%2F1") in
  extractDDGResultsAlternative plain_hostname page = []
  /\ length (extractDDGResultsAlternative plain_hostname
               (js (result_link "https%3A%2F%2Fa.example%2F1"))) = 1.
Proof.
  cbv zeta. split; [|vm_compute; reflexivity].
  assert (Hl : match_all re_links
                 (js (result_link "%" ++ result_link "https%3A%2F%2Fa.example%2F1"))
               = [] ++ js (result_link "%")
                    :: [js (result_link "https%3A%2F%2Fa.example%2F1")])
    by (vm_compute; reflexivity).
  assert (Hbad : parse_link plain_hostname (js (result_link "%"))
                 = Throw (ThrowError URIError))
    by (vm_compute; reflexivity).
  exact (extractDDGResultsAlternative_stops plain_hostname _ _ _ _ _ Hl Hbad).
Defined.
End BlocksExamples.

(** ** Requests and answers of the pipeline *)

Section PipelineMore.
Import Regex WebSearch Fixtures More Handlers.
Variable URL_hostname : jsstring -> Completion jsstring.

(** X9. Every answer of [webSearch] repeats the query, holds at most five
    results, and has an error exactly when it has no result; this error is
    never the empty string. *)
Theorem webSearch_response_shape net q schedule response :
  webSearch URL_hostname net q schedule = Some response ->
  query response = q
  /\ length (results response) <= 5
  /\ (response_error response = None <-> results response <> [])
  /\ (forall e, response_error response = Some e -> e <> []).
Proof.
  intros H. pose proof (webSearch_Some URL_hostname net q schedule response H) as Hres.
  revert H. unfold webSearch, webSearch_with.
  set (searchResults := searchDuckDuckGo URL_hostname net q) in *.
  destruct (_ || _) eqn:Hempty.
  - intros [= <-]. cbn [query results response_error length].
    split; [reflexivity|]. split; [lia|]. split.
    + split; [discriminate | intros Hn; now contradiction Hn].
    + intros e [= <-].
      destruct (search_error searchResults) as [e'|]; [|discriminate].
      destruct e'; cbn [truthy_str]; discriminate.
  - destruct (allSettled _ _) as [settledPromises|]; [|discriminate].
    intros [= <-]. cbn [query results response_error] in *.
    split; [reflexivity|]. rewrite Hres, length_map, length_take.
    split; [lia|]. split; [|discriminate]. split; [|reflexivity].
    intros _ Hnil. apply orb_false_iff in Hempty as [_ Hl].
    apply (f_equal (@length _)) in Hnil. rewrite length_map, length_take in Hnil.
    destruct (search_results searchResults); [discriminate Hl | cbn in Hnil; lia].
Qed.

(** X10. [fetchPageContent] never rejects: it answers with the address it
    was given and with either a content or an error, never both and never
    neither; the content is never the empty string. *)
Theorem fetchPageContent_answers net url :
  exists page,
    fetchPageContent net url = Normal page
    /\ page_url page = url
    /\ (page_content page = None <-> page_error page <> None)
    /\ (forall c, page_content page = Some c -> c <> []).
Proof.
  unfold fetchPageContent, fetchPageContent_with, try_extract.
  destruct (outcome (makeRequest net url page_options)) as [html|e].
  - eexists. split; [reflexivity|]. cbn [page_url page_content page_error].
    split; [reflexivity|]. split.
    + split; [discriminate | intros Hn; now contradiction Hn].
    + intros c [= <-]. destruct (extractMainContent html); cbn [truthy_str];
        discriminate.
  - eexists. split; [reflexivity|]. cbn [page_url page_content page_error].
    split; [reflexivity|]. split; [split; [discriminate | reflexivity]|].
    discriminate.
Qed.

(** X11. The handler never reports what [webSearch] answers as an error:
    an answer with an error, whatever the error, is shown as [No results
    found] for the query, without the error's text; an answer without one is
    shown as [Found n results] with [n] between 1 and 5. *)
Theorem handleWebSearch_hides_errors net q schedule response :
  webSearch URL_hostname net q schedule = Some response ->
  let shown := handleWebSearch q (Normal tt) response in
  isError shown = false
  /\ (response_error response <> None ->
      text shown = js "No results found for `" ++ q ++ js "`.")
  /\ (response_error response = None ->
      1 <= length (results response) <= 5
      /\ text shown
         = js "Found " ++ show_nat (length (results response))
           ++ js " results for `" ++ q ++ js "`. "
           ++ join [10%N] (map result_line (results response))).
Proof.
  intros H shown. pose proof (webSearch_Some URL_hostname net q schedule response H)
    as Hres.
  assert (Hshape : length (results response) <= 5
                   /\ (response_error response = None <-> results response <> [])).
  { revert H. unfold webSearch, webSearch_with.
    set (searchResults := searchDuckDuckGo URL_hostname net q) in *.
    destruct (_ || _) eqn:Hempty.
    - intros [= <-]. cbn [results response_error length]. split; [lia|].
      split; [discriminate | intros Hn; now contradiction Hn].
    - destruct (allSettled _ _) as [settledPromises|]; [|discriminate].
      intros [= <-]. cbn [results response_error] in *.
      rewrite Hres, length_map, length_take. split; [lia|].
      split; [|reflexivity]. intros _ Hnil.
      apply orb_false_iff in Hempty as [_ Hl].
      apply (f_equal (@length _)) in Hnil. rewrite length_map, length_take in Hnil.
      destruct (search_results searchResults); [discriminate Hl | cbn in Hnil; lia]. }
  destruct Hshape as [Hlen Herr]. subst shown. unfold handleWebSearch.
  cbn [isError text]. split; [reflexivity|]. split.
  - intros He. destruct (results response) eqn:E; [reflexivity|].
    contradiction He. apply Herr. discriminate.
  - intros He. apply Herr in He.
    destruct (results response) eqn:E; [now contradiction He|].
    cbn [length Nat.ltb Nat.leb] in *. split; [lia | reflexivity].
Qed.
End PipelineMore.

Section PipelineMoreExamples.
Import Regex WebSearch Fixtures More Handlers.

Lemma webSearch_response_shape_witness :
  exists response,
    webSearch plain_hostname
      (serving three_results_page (second_fails (js "fetch failed")))
      (js "capital of Peru") [1; 0; 2] = Some response
    /\ length (results response) <= 5
    /\ (response_error response = None <-> results response <> []).
Proof.
  destruct (webSearch plain_hostname
              (serving three_results_page (second_fails (js "fetch failed")))
              (js "capital of Peru") [1; 0; 2]) as [response|] eqn:Hr;
    [|vm_compute in Hr; discriminate Hr].
  destruct (webSearch_response_shape plain_hostname _ _ _ response Hr)
    as (_ & Hlen & Herr & _).
  exists response. split; [reflexivity|]. split; [exact Hlen | exact Herr].
Defined.

Lemma handleWebSearch_hides_errors_witness :
  exists response,
    webSearch plain_hostname (fun _ _ => Throw (ThrowError (new_Error (js "down"))))
      (js "capital of Peru") [] = Some response
    /\ isError (handleWebSearch (js "capital of Peru") (Normal tt) response) = false.
Proof.
  destruct (webSearch plain_hostname
              (fun _ _ => Throw (ThrowError (new_Error (js "down"))))
              (js "capital of Peru") []) as [response|] eqn:Hr;
    [|vm_compute in Hr; discriminate Hr].
  destruct (handleWebSearch_hides_errors plain_hostname _ _ _ response Hr)
    as (Herr & _).
  exists response. split; [reflexivity | exact Herr].
Defined.
End PipelineMoreExamples.

(** ** Phone numbers and their quoting *)

Section PhoneMore.
Import Regex Message MessageOps Fixtures MoreMessages.

(** A pattern that begins with [^] matches at the start or nowhere. *)
Lemma find_Bol r s : forall p pv, 0 < p -> find (Seq Bol r) p pv s = None.
Proof.
  induction s as [|c t IH]; intros p pv Hp; cbn [find rmatch pos];
    destruct p; try lia; cbn [Nat.eqb]; [reflexivity|].
  apply IH. lia.
Qed.

Lemma test_anchored r s :
  test (Seq Bol r) s
  = match rmatch r {| pos := 0; prev := None; rest := s; caps := [] |} Some with
    | Some _ => true
    | None => false
    end.
Proof.
  unfold test, exec. destruct s as [|c t]; cbn [find rmatch pos Nat.eqb];
    destruct (rmatch r _ Some); try reflexivity.
  now rewrite find_Bol by lia.
Qed.

Lemma repeat_to_end p n : forall fuel x,
  n <= fuel ->
  match repeat (rmatch (Chr p)) true fuel n (Some n) x
          (fun y => rmatch Eol y Some) with
  | Some _ => true
  | None => false
  end
  = Nat.eqb (length (rest x)) n && forallb p (rest x).
Proof.
  induction n as [|n IH]; intros fuel x Hf.
  - destruct fuel; cbn [repeat rmatch]; destruct (rest x); reflexivity.
  - destruct fuel as [|fuel]; [lia|]. rewrite repeat_S. cbv zeta.
    cbn [Nat.eqb andb Nat.pred option_map]. rewrite rmatch_Chr.
    destruct (rest x) as [|c t] eqn:E; [reflexivity|].
    cbn [length forallb Nat.eqb]. destruct (p c); [|now rewrite andb_false_r].
    rewrite IH by lia. reflexivity.
Qed.

(** [p{n}$] *)
Lemma times_to_end p n x :
  match rmatch (Seq (times n (Chr p)) Eol) x Some with
  | Some _ => true
  | None => false
  end
  = Nat.eqb (length (rest x)) n && forallb p (rest x).
Proof. apply (repeat_to_end p n (n + length (rest x)) x). lia. Qed.

Lemma rmatch_Chr_then q r x :
  rmatch (Seq (Chr q) r) x Some
  = match rest x with
    | c :: t => if q c then rmatch r (advance x c t) Some else None
    | [] => None
    end.
Proof. reflexivity. Qed.

Lemma test_ten_digits c : test re_ten c = ten_digits c.
Proof.
  unfold re_ten. cbn [cat]. rewrite test_anchored. unfold digit.
  now rewrite times_to_end.
Qed.

Lemma test_one_then_ten c :
  test re_one_ten c
  = match c with
    | a :: t => N.eqb 49 a && ten_digits t
    | [] => false
    end.
Proof.
  unfold re_one_ten. cbn [cat]. rewrite test_anchored.
  change (lit "1") with (Chr (N.eqb 49)). rewrite rmatch_Chr_then. cbn [rest].
  destruct c as [|a t]; [reflexivity|]. destruct (N.eqb 49 a); [|reflexivity].
  unfold digit. now rewrite times_to_end.
Qed.

Lemma test_plus_one_then_ten c :
  test re_plus_one_ten c
  = match c with
    | a :: b :: t => N.eqb 43 a && N.eqb 49 b && ten_digits t
    | _ => false
    end.
Proof.
  unfold re_plus_one_ten. cbn [cat]. rewrite test_anchored.
  change (lit "+1") with (Seq (Chr (N.eqb 43)) (Chr (N.eqb 49))).
  change (rmatch (Seq (Seq (Chr (N.eqb 43)) (Chr (N.eqb 49)))
                      (Seq (times 10 digit) Eol)))
    with (rmatch (Seq (Chr (N.eqb 43))
                      (Seq (Chr (N.eqb 49)) (Seq (times 10 digit) Eol)))).
  rewrite rmatch_Chr_then. cbn [rest].
  destruct c as [|a [|b t]]; [reflexivity | now destruct (N.eqb 43 a) |].
  destruct (N.eqb 43 a); [|reflexivity]. rewrite rmatch_Chr_then.
  cbn [advance rest]. destruct (N.eqb 49 b); [|reflexivity].
  unfold digit. now rewrite times_to_end.
Qed.

Lemma startsWith_nil s : startsWith s [] = true.
Proof. now destruct s. Qed.

Lemma startsWith_plus_one c :
  startsWith c (js "+1")
  = match c with
    | a :: b :: _ => N.eqb 43 a && N.eqb 49 b
    | _ => false
    end.
Proof.
  change (js "+1") with [43%N; 49%N].
  destruct c as [|a [|b t]]; cbn [startsWith];
    rewrite ?startsWith_nil, ?andb_true_r, ?andb_false_r; reflexivity.
Qed.

Lemma startsWith_one c :
  startsWith c (js "1")
  = match c with
    | a :: _ => N.eqb 49 a
    | [] => false
    end.
Proof.
  change (js "1") with [49%N].
  destruct c as [|a t]; cbn [startsWith];
    rewrite ?startsWith_nil, ?andb_true_r; reflexivity.
Qed.

Lemma ten_digits_longer a t : ten_digits t = true -> ten_digits (a :: t) = false.
Proof.
  unfold ten_digits. intros H. apply andb_true_iff in H as [H _].
  apply Nat.eqb_eq in H. cbn [length]. rewrite H. reflexivity.
Qed.

Lemma ten_digits_first a t : ten_digits (a :: t) = true -> is_digit a = true.
Proof.
  unfold ten_digits. cbn [forallb]. intros H.
  apply andb_true_iff in H as [_ H]. now apply andb_true_iff in H as [H _].
Qed.

Lemma one_is_digit a : N.eqb 49 a = true -> is_digit a = true.
Proof. intros H. apply N.eqb_eq in H as <-. reflexivity. Qed.

(** The three tests of [normalizePhoneNumber] change the answer of the
    prefixes only for ten digits. *)
Lemma normalizePhoneNumber_cases phone :
  normalizePhoneNumber phone
  = let c := cleaned phone in
    if startsWith c (js "+1") then [c]
    else if ten_digits c then [js "+1" ++ c]
    else if startsWith c (js "1") then [js "+" ++ c]
    else [js "+1" ++ c].
Proof.
  unfold normalizePhoneNumber. cbv zeta. generalize (cleaned phone) as c. intros c.
  rewrite test_plus_one_then_ten, test_one_then_ten, test_ten_digits,
    startsWith_plus_one, startsWith_one.
  destruct c as [|a [|b t]]; [reflexivity | |].
  - change (ten_digits []) with false. rewrite andb_false_r.
    change (ten_digits [a]) with (false && forallb is_digit [a]).
    reflexivity.
  - destruct (N.eqb 43 a) eqn:Ea; cbn [andb].
    + assert (H1 : N.eqb 49 a = false)
        by (apply N.eqb_eq in Ea as <-; reflexivity).
      assert (H2 : ten_digits (a :: b :: t) = false).
      { destruct (ten_digits (a :: b :: t)) eqn:E; [|reflexivity].
        apply ten_digits_first in E. apply N.eqb_eq in Ea as <-.
        discriminate E. }
      rewrite H1, H2. cbn [andb].
      destruct (N.eqb 49 b); cbn [andb]; [|reflexivity].
      now destruct (ten_digits t).
    + destruct (N.eqb 49 a) eqn:E1; cbn [andb].
      * destruct (ten_digits (b :: t)) eqn:E2.
        -- now rewrite (ten_digits_longer a _ E2).
        -- now destruct (ten_digits (a :: b :: t)).
      * reflexivity.
Qed.

Lemma cleaned_chars phone : forallb phone_char (cleaned phone) = true.
Proof.
  rewrite cleaned_filter. apply forallb_forall. intros c Hc.
  now apply List.filter_In in Hc as [_ Hc].
Qed.

Lemma cleaned_fixed s : forallb phone_char s = true -> cleaned s = s.
Proof.
  rewrite cleaned_filter. induction s as [|c t IH]; [reflexivity|].
  cbn [forallb List.filter]. intros H. apply andb_true_iff in H as [-> H].
  now rewrite IH.
Qed.

Lemma normalizePhoneNumber_chars phone s :
  normalizePhoneNumber phone = [s] ->
  startsWith s (js "+1") = true /\ forallb phone_char s = true.
Proof.
  rewrite normalizePhoneNumber_cases. cbv zeta.
  pose proof (cleaned_chars phone) as Hc. revert Hc.
  generalize (cleaned phone) as c. intros c Hc.
  destruct (startsWith c (js "+1")) eqn:E1; [intros [= <-]; now split|].
  assert (H1 : forallb phone_char (js "+1" ++ c) = true)
    by (rewrite forallb_app, Hc; reflexivity).
  assert (H2 : startsWith (js "+1" ++ c) (js "+1") = true)
    by (rewrite startsWith_plus_one; reflexivity).
  destruct (ten_digits c); [intros [= <-]; now split|].
  destruct (startsWith c (js "1")) eqn:E2; [|intros [= <-]; now split].
  assert (H3 : forallb phone_char (js "+" ++ c) = true)
    by (rewrite forallb_app, Hc; reflexivity).
  assert (H4 : startsWith (js "+" ++ c) (js "+1") = true).
  { rewrite startsWith_plus_one. rewrite startsWith_one in E2.
    destruct c as [|a t]; [discriminate|]. exact E2. }
  intros [= <-]. split; [exact H4 | exact H3].
Qed.

(** X12. [normalizePhoneNumber] without its patterns: with [c] the input
    without its characters other than digits and [+], the answer is [c]
    when [c] begins with [+1], [+1] before [c] when [c] is ten digits, [+]
    before [c] when [c] otherwise begins with [1], and [+1] before [c] in
    every other case. So the one string returned always begins with [+1],
    holds digits and [+] only, and is kept as it is when it is normalized
    again. *)
Theorem normalizePhoneNumber_canonical phone :
  normalizePhoneNumber phone
  = (let c := cleaned phone in
     if startsWith c (js "+1") then [c]
     else if ten_digits c then [js "+1" ++ c]
     else if startsWith c (js "1") then [js "+" ++ c]
     else [js "+1" ++ c])
  /\ exists s,
       normalizePhoneNumber phone = [s]
       /\ startsWith s (js "+1") = true
       /\ forallb phone_char s = true
       /\ normalizePhoneNumber s = [s].
Proof.
  split; [apply normalizePhoneNumber_cases|].
  destruct (normalizePhoneNumber_singleton phone) as [s Hs].
  destruct (normalizePhoneNumber_chars phone s Hs) as [H1 H2].
  exists s. split; [exact Hs|]. split; [exact H1|]. split; [exact H2|].
  rewrite normalizePhoneNumber_cases. cbv zeta.
  now rewrite (cleaned_fixed s H2), H1.
Qed.

Lemma substitute_none q by_ s :
  forallb (fun c => negb (q c)) s = true -> More.substitute q by_ s = s.
Proof.
  unfold More.substitute. induction s as [|c t IH]; [reflexivity|].
  cbn [forallb flat_map]. intros H. apply andb_true_iff in H as [Hc H].
  apply negb_true_iff in Hc. rewrite Hc, IH by assumption. reflexivity.
Qed.

(** X13. The list of phone numbers [readMessages] writes into its query is
    one string between two apostrophes, with no apostrophe inside: the
    doubling of apostrophes never has anything to double, and no input can
    close the SQL string. *)
Theorem phoneList_quoted phoneNumber :
  exists s,
    normalizePhoneNumber phoneNumber = [s]
    /\ phoneList phoneNumber = js "'" ++ s ++ js "'"
    /\ forallb (fun c => negb (N.eqb 39 c)) s = true.
Proof.
  destruct (normalizePhoneNumber_singleton phoneNumber) as [s Hs].
  destruct (normalizePhoneNumber_chars phoneNumber s Hs) as [_ H2].
  assert (H : forallb (fun c => negb (N.eqb 39 c)) s = true).
  { apply forallb_forall. intros c Hc.
    rewrite forallb_forall in H2. specialize (H2 c Hc).
    apply negb_true_iff, N.eqb_neq. intros <-. discriminate H2. }
  exists s. split; [exact Hs|]. split; [|exact H].
  unfold phoneList, sql_quote. rewrite Hs. cbn [map WebSearch.join].
  unfold chr. rewrite replace_all_substitute.
  now rewrite (substitute_none _ _ s H).
Qed.
End PhoneMore.

(** ** Retried operations *)

Section RetryMore.
Import Regex Message MessageOps Fixtures MoreMessages.

Lemma retry_steps_S delay i k :
  retry_steps delay i (S k) = [Call i; Wait delay] ++ retry_steps delay (S i) k.
Proof.
  unfold retry_steps. cbn [seq flat_map]. rewrite <- app_assoc.
  replace (i + S k) with (S i + k) by lia. reflexivity.
Qed.

Lemma retry_steps_0 delay i : retry_steps delay i 0 = [Call i].
Proof. unfold retry_steps. cbn [seq flat_map app]. now rewrite Nat.add_0_r. Qed.

Lemma retry_steps_counts delay k : forall i,
  length (List.filter (fun s => match s with Call _ => true | Wait _ => false end)
                      (retry_steps delay i k)) = S k
  /\ waits (retry_steps delay i k) = replicate k delay.
Proof.
  induction k as [|k IH]; intros i; [rewrite retry_steps_0; split; reflexivity|].
  rewrite retry_steps_S. destruct (IH (S i)) as [Hc Hw].
  cbn [app List.filter length waits replicate]. now rewrite Hc, Hw.
Qed.

Lemma retry_loop_shape {A} (operation : nat -> Completion A) delay n :
  forall i done,
  exists k,
    k <= n
    /\ steps (retry_loop operation delay n i done)
       = done ++ retry_steps delay i k
    /\ returned (retry_loop operation delay n i done) = operation (i + k)
    /\ (forall j, i <= j < i + k -> exists e, operation j = Throw e)
    /\ (forall e, operation (i + k) = Throw e -> k = n).
Proof.
  induction n as [|n IH]; intros i done; cbn [retry_loop].
  - exists 0. rewrite Nat.add_0_r, retry_steps_0. split; [lia|].
    destruct (operation i) as [a|error] eqn:E; cbn [steps returned];
      (split; [reflexivity|]); (split; [reflexivity|]);
      (split; [intros; lia | reflexivity]).
  - destruct (operation i) as [a|error] eqn:E.
    + exists 0. rewrite Nat.add_0_r, retry_steps_0. cbn [steps returned].
      split; [lia|]. split; [reflexivity|]. split; [now rewrite E|].
      split; [intros; lia | intros e He; rewrite E in He; discriminate He].
    + destruct (IH (S i) (done ++ [Call i; Wait delay]))
        as (k & Hk & Hs & Hr & Hf & Hl).
      exists (S k). replace (i + S k) with (S i + k) by lia.
      split; [lia|]. split; [|split; [exact Hr|split]].
      * rewrite Hs, retry_steps_S. now rewrite <- app_assoc.
      * intros j Hj. destruct (Nat.eq_dec j i) as [->|Hne]; [eauto|].
        apply Hf. lia.
      * intros e He. f_equal. now apply (Hl e).
Qed.

(** The runs of an operation retried with the defaults. *)
Lemma retryOperation_shape_aux {A} (operation : nat -> Completion A) :
  exists k,
    k <= 3
    /\ calls (retryOperation operation None None) = S k
    /\ returned (retryOperation operation None None) = operation k
    /\ (forall j, j < k -> exists e, operation j = Throw e)
    /\ (forall e, returned (retryOperation operation None None) = Throw e ->
        k = 3).
Proof.
  unfold retryOperation.
  change (Z.to_nat MAX_RETRIES) with 3.
  destruct (retry_loop_shape operation RETRY_DELAY 3 0 [])
    as (k & Hk & Hs & Hr & Hf & Hl).
  cbn [app Nat.add] in *. exists k. split; [exact Hk|].
  unfold calls. rewrite Hs.
  destruct (retry_steps_counts RETRY_DELAY k 0) as [Hc _].
  split; [exact Hc|]. split; [exact Hr|].
  split; [intros j Hj; apply Hf; lia|].
  intros e He. apply (Hl e). now rewrite <- Hr.
Qed.

(** X14. [retryOperation] calls the operation until a call succeeds, at
    most once more than [retries] (3 by default), waiting the same [delay]
    (1000 ms by default) between two calls and not after the last; it
    returns what the first successful call returns, and when every call
    fails it throws the error of the last call, not of the first. *)
Theorem retryOperation_shape {A} (operation : nat -> Completion A)
    (retries delay : option Z) :
  let n := Z.to_nat (match retries with Some r => r | None => MAX_RETRIES end) in
  let d := match delay with Some d => d | None => RETRY_DELAY end in
  let run := retryOperation operation retries delay in
  exists k,
    k <= n
    /\ steps run = retry_steps d 0 k
    /\ calls run = S k
    /\ waits (steps run) = replicate k d
    /\ returned run = operation k
    /\ (forall j, j < k -> exists e, operation j = Throw e)
    /\ (forall e, returned run = Throw e -> k = n).
Proof.
  intros n d run. subst run. unfold retryOperation. fold n d.
  destruct (retry_loop_shape operation d n 0 []) as (k & Hk & Hs & Hr & Hf & Hl).
  cbn [app Nat.add] in *. exists k. split; [exact Hk|]. split; [exact Hs|].
  unfold calls. rewrite Hs. destruct (retry_steps_counts d k 0) as [Hc Hw].
  split; [exact Hc|]. split; [exact Hw|]. split; [exact Hr|].
  split; [intros j Hj; apply Hf; lia|].
  intros e He. apply (Hl e). now rewrite <- Hr.
Qed.

(** X15. Reading the store: the access check is called once and never
    retried, since it turns every failure into [false], and without access
    the answer is empty, whatever the store holds. With access the query is
    run until a run succeeds, at most four times, and the answer is built
    from the first run that succeeds; it is empty when the four runs
    fail. *)
Theorem read_store_runs attachment_rows toISOString store run_query :
  access_check store
  = {| returned := Normal (checkMessagesDBAccess (store 0)); steps := [Call 0] |}
  /\ (checkMessagesDBAccess (store 0) = false ->
      read_store attachment_rows toISOString store run_query = [])
  /\ (checkMessagesDBAccess (store 0) = true ->
      exists k,
        k <= 3
        /\ calls (query_runs run_query) = S k
        /\ (forall j, j < k -> exists e, run_query j = Throw e)
        /\ match run_query k with
           | Normal selected =>
               read_store attachment_rows toISOString store run_query
               = readMessages attachment_rows toISOString true selected
           | Throw _ =>
               k = 3
               /\ read_store attachment_rows toISOString store run_query = []
           end).
Proof.
  split; [reflexivity|]. unfold read_store.
  change (returned (access_check store))
    with (Normal (checkMessagesDBAccess (store 0)) : Completion bool).
  split; [intros ->; reflexivity|]. intros ->. cbn [negb].
  destruct (retryOperation_shape_aux run_query) as (k & Hk & Hc & Hr & Hf & Hl).
  exists k. split; [exact Hk|]. split; [exact Hc|]. split; [exact Hf|].
  unfold query_runs in *. rewrite Hr.
  destruct (run_query k) as [selected|e] eqn:E; [reflexivity|].
  split; [|reflexivity]. apply (Hl e). now rewrite Hr.
Qed.
End RetryMore.

Section RetryMoreExamples.
Import Regex Message MessageOps Fixtures MoreMessages.

Lemma read_store_runs_witness :
  checkMessagesDBAccess (open_store 0) = true
  /\ exists k,
       k <= 3
       /\ calls (query_runs (third_run [bare_message 1 None])) = S k.
Proof.
  split; [reflexivity|].
  destruct (proj2 (proj2 (read_store_runs two_files fixed_iso open_store
                            (third_run [bare_message 1 None]))) eq_refl)
    as (k & Hk & Hc & _).
  exists k. split; [exact Hk | exact Hc].
Defined.
End RetryMoreExamples.

(** ** Sending, decoding and formatting messages *)

Section MessagesMore.
Import Regex Message MessageOps Fixtures MoreMessages.

(** X16. The escaping of [sendMessage] puts a backslash before every
    double quote and changes nothing else. Backslashes are left as they are,
    so a double quote the message already escapes comes out after two
    backslashes. *)
Theorem escapedMessage_quotes message :
  escapedMessage message
  = flat_map (fun c => if N.eqb 34 c then [92%N; 34%N] else [c]) message
  /\ forall a b,
       escapedMessage (a ++ [92%N; 34%N] ++ b)
       = escapedMessage a ++ [92%N; 92%N; 34%N] ++ escapedMessage b.
Proof.
  assert (H : forall m, escapedMessage m
                        = flat_map (fun c => if N.eqb 34 c then [92%N; 34%N] else [c]) m).
  { intros m. unfold escapedMessage, chr. now rewrite replace_all_substitute. }
  split; [apply H|]. intros a b. rewrite !H, !flat_map_app. reflexivity.
Qed.

Lemma hex_value_digit n : (n < 16)%N -> hex_value (hex_digit n) = Some n.
Proof.
  intros Hn. unfold hex_digit, hex_value.
  destruct (N.ltb_spec n 10) as [H|H].
  - replace ((48 <=? 48 + n) && (48 + n <=? 57))%N with true
      by (symmetry; apply andb_true_iff; split; apply N.leb_le; lia).
    f_equal. lia.
  - replace ((48 <=? 55 + n) && (55 + n <=? 57))%N with false
      by (symmetry; apply andb_false_iff; right; apply N.leb_gt; lia).
    replace ((65 <=? 55 + n) && (55 + n <=? 70))%N with true
      by (symmetry; apply andb_true_iff; split; apply N.leb_le; lia).
    f_equal. lia.
Qed.

Lemma hex_digit_low n : (n < 16)%N -> (hex_digit n mod 256 = hex_digit n)%N.
Proof.
  intros Hn. apply N.mod_small. unfold hex_digit.
  destruct (n <? 10)%N; lia.
Qed.

Lemma byte_halves b :
  (b < 256 -> b / 16 < 16 /\ b mod 16 < 16 /\ 16 * (b / 16) + b mod 16 = b)%N.
Proof.
  intros H. pose proof (N.div_mod' b 16) as Hd.
  assert (H16 : (16 <> 0)%N) by discriminate.
  pose proof (N.mod_lt b 16 H16) as Hm.
  generalize dependent (b / 16)%N. generalize dependent (b mod 16)%N.
  intros. lia.
Qed.

Lemma hex_round_trip bytes :
  Forall (fun b => (b < 256)%N) bytes -> Buffer_from_hex (hex bytes) = bytes.
Proof.
  induction 1 as [|b bytes Hb _ IH]; [reflexivity|].
  unfold hex. cbn [map concat app Buffer_from_hex]. fold (hex bytes).
  destruct (byte_halves b Hb) as (H1 & H2 & H3).
  rewrite (hex_digit_low _ H1), (hex_digit_low _ H2).
  now rewrite (hex_value_digit _ H1), (hex_value_digit _ H2), H3, IH.
Qed.

(** X17. A stored message without text, with an attributed body, comes out
    of the query as a row of content type 1 whose content is the body in
    hexadecimal, and the decoder reads back from it exactly the bytes that
    are stored. *)
Theorem attributedBody_round_trip m bytes :
  has_text m = false ->
  attributedBody m = Some bytes ->
  Forall (fun b => (b < 256)%N) bytes ->
  content_type (select m) = 1%Z
  /\ row_content (select m) = Some (hex bytes)
  /\ Buffer_from_hex (hex bytes) = bytes
  /\ kept (select m) = true.
Proof.
  intros Ht Hb Hbytes. unfold kept, select. cbn [content_type row_content].
  rewrite Ht, Hb. repeat split. now apply hex_round_trip.
Qed.


Lemma getAttachmentPaths_names attachment_rows messageId :
  Forall (fun f => f <> []) (getAttachmentPaths attachment_rows messageId).
Proof.
  unfold getAttachmentPaths. destruct (attachment_rows messageId) as [rows|];
    [|constructor].
  apply Forall_forall. intros f Hf. apply list_elem_of_omap in Hf as (o & _ & Ho).
  destruct o as [name|]; [|discriminate]. destruct name; cbn [truthy_str] in Ho;
    [discriminate|]. injection Ho as <-. discriminate.
Qed.

(** X19. Every message [readMessages] formats has a content that is not
    empty, the sender of its row, and the date the clock gives for the row.
    It has [attachments] only for a row flagged for attachments, and then at
    least one file, none with an empty name, and the marker with their
    number in its content; it has a [url] only when it is not empty, and
    then its content ends with the marker of this URL. *)
Theorem format_content attachment_rows toISOString msg m :
  format attachment_rows toISOString msg = Normal m ->
  content m <> []
  /\ sender m = row_sender msg
  /\ toISOString (row_date msg) = Normal (date m)
  /\ (forall files, attachments m = Some files ->
        files <> [] /\ Forall (fun f => f <> []) files
        /\ cache_has_attachments msg <> 0%Z
        /\ files = getAttachmentPaths attachment_rows (message_id msg)
        /\ exists before after,
             content m = before ++ attachments_marker (length files) ++ after)
  /\ (forall u, msg_url m = Some u ->
        u <> []
        /\ exists before,
             content m = before ++ [10%N] ++ js "[URL: " ++ u ++ js "]").
Proof.
  unfold format. cbv zeta.
  set (body := match row_content msg with Some c => c | None => [] end).
  set (u0 := if (content_type msg =? 1)%Z then url (decodeAttributedBody body)
             else match exec re_text_url body with
                  | Some urlMatch => group urlMatch 1
                  | None => None
                  end).
  set (files0 := if negb (cache_has_attachments msg =? 0)%Z
                 then getAttachmentPaths attachment_rows (message_id msg)
                 else []).
  set (shown := match subject msg with
                | Some s0 => if truthy_str s0 then _ else _
                | None => _
                end).
  destruct (toISOString (row_date msg)) as [iso|t]; [|discriminate].
  intros [= <-]. cbn [content sender date attachments msg_url].
  split; [|split; [reflexivity|split; [reflexivity|split]]].
  - destruct (truthy_str shown) eqn:E.
    + destruct shown; [discriminate E | discriminate].
    + discriminate.
  - intros files Hfiles.
    destruct (Nat.ltb 0 (length files0)) eqn:E; [|discriminate].
    injection Hfiles as <-. apply Nat.ltb_lt in E.
    assert (Hflag : negb (cache_has_attachments msg =? 0)%Z = true).
    { subst files0. destruct (negb _); [reflexivity | cbn in E; lia]. }
    subst files0. rewrite Hflag in *.
    split; [intros Hnil; rewrite Hnil in E; cbn in E; lia|].
    split; [apply getAttachmentPaths_names|].
    split; [apply negb_true_iff, Z.eqb_neq in Hflag; exact Hflag|].
    split; [reflexivity|].
    unfold attachments_marker.
    match goal with
    | |- exists before after, ?P ++ ?Q ++ ?R = _ => exists P, R; reflexivity
    end.
  - intros u Hu.
    destruct u0 as [u'|]; [|discriminate].
    destruct (truthy_str u') eqn:E; [|discriminate].
    injection Hu as <-. split; [destruct u'; [discriminate E | discriminate]|].
    match goal with
    | |- exists before, ?P ++ ?Q ++ ?R = _ =>
        exists (P ++ Q); exact (app_assoc P Q R)
    end.
Qed.

Lemma mapM_Throw {A B} (f : A -> Completion B) l a e :
  In a l -> f a = Throw e -> exists t, mapM f l = Throw t.
Proof.
  induction l as [|b l IH]; intros Hin Hf; [contradiction|]. cbn [mapM].
  destruct Hin as [->|Hin].
  - rewrite Hf. eauto.
  - destruct (f b); [|eauto]. destruct (IH Hin Hf) as [t ->]. eauto.
Qed.

(** X20. One date that is not valid empties the whole answer: when the
    clock throws for the date of a message the query selects, with a content
    or flagged for attachments, [readMessages] returns no message at all,
    whatever the other messages are. *)
Theorem readMessages_invalid_date attachment_rows toISOString selected m e :
  In m selected ->
  kept (select m) = true ->
  toISOString (stored_date m) = Throw e ->
  readMessages attachment_rows toISOString true selected = [].
Proof.
  intros Hin Hk Hd. unfold readMessages, processedMessages. cbn [negb].
  destruct (mapM_Throw (format attachment_rows toISOString)
              (filter (fun msg => kept msg = true) (map select selected))
              (select m) e) as [t ->]; [| |reflexivity].
  - apply list_elem_of_In, list_elem_of_filter. split; [exact Hk|].
    apply list_elem_of_In, in_map, Hin.
  - unfold format. cbv zeta. cbn [row_date select]. now rewrite Hd.
Qed.
End MessagesMore.

Section MessagesMoreExamples.
Import Regex Message MessageOps Fixtures MoreMessages.

Lemma attributedBody_round_trip_witness :
  row_content (select {| ROWID := 3; stored_text := Some [];
                         attributedBody := Some [104%N; 105%N; 255%N];
                         stored_date := None; handle := [];
                         stored_is_from_me := 0; stored_is_audio_message := 0;
                         stored_cache_has_attachments := 0;
                         stored_subject := None |})
  = Some (js "6869FF")
  /\ Buffer_from_hex (js "6869FF") = [104%N; 105%N; 255%N].
Proof.
  destruct (attributedBody_round_trip
              {| ROWID := 3; stored_text := Some [];
                 attributedBody := Some [104%N; 105%N; 255%N];
                 stored_date := None; handle := [];
                 stored_is_from_me := 0; stored_is_audio_message := 0;
                 stored_cache_has_attachments := 0;
                 stored_subject := None |}
              [104%N; 105%N; 255%N] eq_refl eq_refl)
    as (_ & Hc & Hb & _).
  - repeat constructor.
  - split; [exact Hc | exact Hb].
Defined.


Lemma format_content_witness :
  exists m,
    format two_files fixed_iso (select (bare_message 1 None)) = Normal m
    /\ content m <> [].
Proof.
  destruct (format two_files fixed_iso (select (bare_message 1 None)))
    as [m|] eqn:E; [|vm_compute in E; discriminate E].
  exists m. split; [reflexivity|].
  exact (proj1 (format_content two_files fixed_iso _ m E)).
Defined.

Lemma readMessages_invalid_date_witness :
  readMessages no_table strict_iso true
    [text_message "first" "2024-05-01 10:00:00"; text_message "second" "";
     text_message "third" "2024-05-01 10:02:00"] = []
  /\ length (readMessages no_table strict_iso true
               [text_message "first" "2024-05-01 10:00:00";
                text_message "third" "2024-05-01 10:02:00"]) = 2.
Proof.
  split; [|vm_compute; reflexivity].
  apply (readMessages_invalid_date no_table strict_iso _
           (text_message "second" "")
           (ThrowError {| is_DOMException := false; name := js "RangeError";
                          message := js "Invalid time value" |})).
  - right. left. reflexivity.
  - reflexivity.
  - reflexivity.
Defined.
End MessagesMoreExamples.
